(** * Merkle-Patricia-Trie proofs of the Erigon [trie] package

    A shallow embedding of [Prove], the node decoder ([decodeNode],
    [decodeShort], [decodeFull], [decodeRef]), [proofMap], [verifyProof],
    [VerifyAccountProofByHash] and [VerifyStorageProofByHash], and the
    properties of the proof builder and verifier established on it.

    Go values are modelled as follows: a [byte] is a [Z] in [0, 256), a
    [[]byte] is a [list Z], an [int] is a [Z], a [common.Hash] is the list
    of its 32 bytes, a Go [map[common.Hash]T] is a [gmap (list Z) T], and a
    Go [error] is a value of the inductive type [error] (one constructor
    per message of the source). *)

From Stdlib Require Import ZArith List Lia Bool ZifyBool.
From stdpp Require Import base option list gmap fin_maps.
Import ListNotations.
Local Open Scope Z_scope.

Abbreviation bytes := (list Z).

(** ** Errors and results *)

Inductive error : Type :=
  (* erigon-lib/rlp *)
  | ErrUnexpectedEOF
  | ErrCanonSize
  | ErrValueTooLarge
  | ErrExpectedString
  | ErrExpectedList
  (* decodeRef *)
  | ErrEmbeddedTooLarge            (* embedded nodes must be less than hash size *)
  | ErrInvalidStringSize (n : Z)   (* invalid RLP string size %d (want 0 through 32) *)
  (* decodeNode *)
  | ErrZeroLength                  (* nodes must not be zero length *)
  | ErrInvalidListElems (c : Z)    (* invalid number of list elements: %v *)
  (* verifyProof *)
  | ErrFullNodeValue               (* full nodes should not have values *)
  | ErrShortHexTooLong (n k : Z)   (* len(shortHex)=%d must be leq len(key)=%d *)
  | ErrMissingHash (h : bytes)     (* missing hash %s *)
  | ErrOutOfOrder (expected next : Z)
                                   (* proof elements present but not in expected order *)
  | ErrValueNodeKey (key : bytes)  (* value node should have zero length remaining in key *)
  | ErrUnusedElements              (* not all proof elements were used *)
  | ErrUnexpectedType              (* unexpected type: %T *)
  (* Prove *)
  | ErrHashNodeUnexpected (key : bytes) (fromLevel : Z)
                                   (* encountered hashNode unexpectedly *)
  | ErrHasher                      (* an error reported by hasher.hashChildren *)
  (* VerifyAccountProofByHash, VerifyStorageProofByHash *)
  | ErrProofMap (e : error)        (* could not construct proofMap: %w *)
  | ErrVerifyProof (e : error)     (* could not verify proof: %w *)
  | ErrAbsentNonce                 (* account is not in state, but has non-zero nonce *)
  | ErrAbsentBalance               (* account is not in state, but has balance *)
  | ErrAbsentStorageHash           (* account is not in state, but has non-empty storage hash *)
  | ErrAbsentCodeHash              (* account is not in state, but has non-empty code hash *)
  | ErrAccountMismatch (value expected : bytes)
                                   (* account bytes from proof do not match expected *)
  | ErrEmptyRootNonZero            (* empty storage root cannot have non-zero values *)
  | ErrEmptyRootProof              (* empty storage root should have RLP encoding of empty proof *)
  | ErrZeroRootProof               (* zero storage root should have empty proof *)
  | ErrStorageMismatch (value expected : bytes)
                                   (* storage value from proof does not match expected *)
  (* not a Go error: the recursion bound of a bounded loop of this model
     was reached; the totality lemmas show that the top-level functions
     never return it *)
  | ErrFuel.

Inductive result (A : Type) : Type :=
  | Ok (a : A)
  | Err (e : error).
Arguments Ok {A} a.
Arguments Err {A} e.

Definition rbind {A B} (r : result A) (f : A -> result B) : result B :=
  match r with
  | Ok a => f a
  | Err e => Err e
  end.

Notation "'let*' x ':=' r 'in' k" := (rbind r (fun x => k))
  (at level 10, x pattern, r at level 100, k at level 200).

Definition is_ok {A} (r : result A) : Prop := exists a, r = Ok a.
Definition is_err {A} (r : result A) : Prop := exists e, r = Err e.

Definition len (b : bytes) : Z := Z.of_nat (length b).

(** ** Keccak-256 *)

(** Modelled from the spec: [crypto.Keccak256Hash] is not among the
    sources at hand; the spec treats it as "a pure function from byte
    string to 32-byte digest".  It is the Keccak-f[1600] sponge with rate
    136 and the legacy padding. *)
Module Keccak.

Definition mask64 : Z := 0xFFFFFFFFFFFFFFFF.

Definition rotl64 (x n : Z) : Z :=
  Z.lor (Z.land (Z.shiftl x n) mask64) (Z.shiftr x (64 - n)).

Definition rotc : list Z :=
  [0; 1; 62; 28; 27; 36; 44; 6; 55; 20; 3; 10; 43; 25; 39;
   41; 45; 15; 21; 8; 18; 2; 61; 56; 14].

Definition rndc : list Z :=
  [0x0000000000000001; 0x0000000000008082; 0x800000000000808A;
   0x8000000080008000; 0x000000000000808B; 0x0000000080000001;
   0x8000000080008081; 0x8000000000008009; 0x000000000000008A;
   0x0000000000000088; 0x0000000080008009; 0x000000008000000A;
   0x000000008000808B; 0x800000000000008B; 0x8000000000008089;
   0x8000000000008003; 0x8000000000008002; 0x8000000000000080;
   0x000000000000800A; 0x800000008000000A; 0x8000000080008081;
   0x8000000000008080; 0x0000000080000001; 0x8000000080008008].

Definition lane (s : list Z) (i : nat) : Z := nth i s 0.

Definition theta (s : list Z) : list Z :=
  let c := map (fun x => Z.lxor (lane s x) (Z.lxor (lane s (x + 5))
             (Z.lxor (lane s (x + 10)) (Z.lxor (lane s (x + 15)) (lane s (x + 20))))))
             (seq 0 5) in
  let d := map (fun x => Z.lxor (lane c ((x + 4) mod 5))
                                (rotl64 (lane c ((x + 1) mod 5)) 1))
             (seq 0 5) in
  map (fun i => Z.lxor (lane s i) (lane d (i mod 5))) (seq 0 25).

Definition rhopi (s : list Z) : list Z :=
  map (fun j => let X := (j mod 5)%nat in let Y := (j / 5)%nat in
                let x := ((X + 3 * Y) mod 5)%nat in
                rotl64 (lane s (x + 5 * X)) (lane rotc (x + 5 * X)))
      (seq 0 25).

Definition chi (s : list Z) : list Z :=
  map (fun i => let x := (i mod 5)%nat in let y := (i / 5)%nat in
                Z.lxor (lane s i)
                  (Z.land (Z.lxor (lane s ((x + 1) mod 5 + 5 * y)) mask64)
                          (lane s ((x + 2) mod 5 + 5 * y))))
      (seq 0 25).

Definition iota (rc : Z) (s : list Z) : list Z :=
  match s with
  | [] => []
  | a :: t => Z.lxor a rc :: t
  end.

Definition round (s : list Z) (rc : Z) : list Z :=
  iota rc (chi (rhopi (theta s))).

Definition keccakF1600 (s : list Z) : list Z := fold_left round rndc s.

Fixpoint le64 (bs : list Z) (n : nat) : Z :=
  match n, bs with
  | S n', b :: t => b + 256 * le64 t n'
  | _, _ => 0
  end.

Fixpoint lanes_of (bs : list Z) (n : nat) : list Z :=
  match n with
  | O => []
  | S n' => le64 bs 8 :: lanes_of (skipn 8 bs) n'
  end.

Fixpoint xor_lanes (s b : list Z) : list Z :=
  match s, b with
  | x :: s', y :: b' => Z.lxor x y :: xor_lanes s' b'
  | _, _ => s
  end.

Definition rate : nat := 136.

Fixpoint absorb (blocks : nat) (s : list Z) (p : list Z) : list Z :=
  match blocks with
  | O => s
  | S f =>
    match p with
    | [] => s
    | _ => absorb f (keccakF1600 (xor_lanes s (lanes_of (firstn rate p) 17)))
                  (skipn rate p)
    end
  end.

Definition pad (data : list Z) : list Z :=
  let padlen := (rate - length data mod rate)%nat in
  match padlen with
  | 1%nat => data ++ [0x81]
  | _ => data ++ [0x01] ++ repeat 0 (padlen - 2) ++ [0x80]
  end.

Fixpoint bytes_le (x : Z) (n : nat) : list Z :=
  match n with
  | O => []
  | S n' => (x mod 256) :: bytes_le (x / 256) n'
  end.

Definition Keccak256 (data : list Z) : list Z :=
  let p := pad data in
  let s := absorb (S (length p / rate)) (repeat 0 25%nat) p in
  flat_map (fun x => bytes_le x 8) (firstn 4 s).

End Keccak.

Definition Keccak256Hash (data : bytes) : bytes := Keccak.Keccak256 data.

(** [common.Hash{}], the all-zero digest. *)
Definition zeroHash : bytes := repeat 0 32%nat.

(** Modelled from the spec: the constant [EmptyRoot] is declared outside
    the sources at hand; it is "the canonical empty-root constant", the
    digest of the serialization [0x80] of the empty string. *)
Definition EmptyRoot : bytes :=
  [0x56; 0xe8; 0x1f; 0x17; 0x1b; 0xcc; 0x55; 0xa6; 0xff; 0x83; 0x45; 0xe6;
   0x92; 0xc0; 0xf8; 0x6e; 0x5b; 0x48; 0xe0; 0x1b; 0x99; 0x6c; 0xad; 0xc0;
   0x01; 0x62; 0x2f; 0xb5; 0xe3; 0x63; 0xb4; 0x21].

(** The digest of the empty byte string, the code hash of an account
    without code. *)
Definition EmptyCodeHash : bytes :=
  [0xc5; 0xd2; 0x46; 0x01; 0x86; 0xf7; 0x23; 0x3c; 0x92; 0x7e; 0x7d; 0xb2;
   0xdc; 0xc7; 0x03; 0xc0; 0xe5; 0x00; 0xb6; 0x53; 0xca; 0x82; 0x27; 0x3b;
   0x7b; 0xfa; 0xd8; 0x04; 0x5d; 0x85; 0xa4; 0x70].

(** [common.BytesToHash]: the last 32 bytes of [b], left-padded with
    zeroes. *)
Definition BytesToHash (b : bytes) : bytes :=
  let b' := skipn (length b - 32) b in
  repeat 0 (32 - length b') ++ b'.

(** ** The serialization codec (RLP) *)

(** Modelled from the spec: the functions of [erigon-lib/rlp] used by the
    decoder ([Split], [SplitString], [SplitList], [CountValues]) and by
    the record cross-checkers ([EncodeToBytes]) are not among the sources
    at hand.  The spec asks for a "split-into-items decoding of a
    serialized node/list, distinguishing list-typed vs. string-typed
    items and reporting item count" and an "encoding of an ordered field
    list or byte string back to canonical form"; this is the canonical
    recursive-length-prefix codec. *)
Module rlp.

Inductive Kind : Type := Byte | String | List.

#[global] Instance Kind_eq_dec : EqDecision Kind.
Proof. solve_decision. Defined.

(** Big-endian value of a byte string. *)
Definition be_value (b : bytes) : Z := fold_left (fun a x => a * 256 + x) b 0.

(** [readSize b slen]: the size held in the first [slen] bytes of [b]. *)
Definition readSize (b : bytes) (slen : Z) : result Z :=
  if slen >? len b then Err ErrUnexpectedEOF
  else
    let s := be_value (firstn (Z.to_nat slen) b) in
    if (s <? 56) || (nth 0 b 0 =? 0) then Err ErrCanonSize
    else Ok s.

(** [readKind buf]: kind, tag size and content size of the first value. *)
Definition readKind (buf : bytes) : result (Kind * Z * Z) :=
  match buf with
  | [] => Err ErrUnexpectedEOF
  | b :: tl =>
    let* (k, tagsize, contentsize) :=
      (if b <? 0x80 then Ok (Byte, 0, 1)
       else if b <? 0xB8 then
         let contentsize := b - 0x80 in
         if (contentsize =? 1) && (len buf >? 1) && (nth 1 buf 0 <? 128)
         then Err ErrCanonSize
         else Ok (String, 1, contentsize)
       else if b <? 0xC0 then
         let* contentsize := readSize tl (b - 0xB7) in
         Ok (String, (b - 0xB7) + 1, contentsize)
       else if b <? 0xF8 then Ok (List, 1, b - 0xC0)
       else
         let* contentsize := readSize tl (b - 0xF7) in
         Ok (List, (b - 0xF7) + 1, contentsize)) in
    if contentsize >? len buf - tagsize then Err ErrValueTooLarge
    else Ok (k, tagsize, contentsize)
  end.

(** [Split b]: kind and content of the first value, and the bytes after it. *)
Definition Split (b : bytes) : result (Kind * bytes * bytes) :=
  let* (k, ts, cs) := readKind b in
  Ok (k, firstn (Z.to_nat cs) (skipn (Z.to_nat ts) b),
         skipn (Z.to_nat (ts + cs)) b).

Definition SplitString (b : bytes) : result (bytes * bytes) :=
  let* (k, content, rest) := Split b in
  if bool_decide (k = List) then Err ErrExpectedString
  else Ok (content, rest).

Definition SplitList (b : bytes) : result (bytes * bytes) :=
  let* (k, content, rest) := Split b in
  if bool_decide (k = List) then Ok (content, rest)
  else Err ErrExpectedList.

(** [CountValues b]: the number of values in [b].  Every value takes at
    least one byte, so [length b] iterations exhaust [b]. *)
Fixpoint CountValues_loop (n : nat) (i : Z) (b : bytes) : result Z :=
  match b with
  | [] => Ok i
  | _ :: _ =>
    match n with
    | O => Err ErrFuel
    | S n' =>
      let* (_, tagsize, size) := readKind b in
      CountValues_loop n' (i + 1) (skipn (Z.to_nat (tagsize + size)) b)
    end
  end.

Definition CountValues (b : bytes) : result Z :=
  CountValues_loop (length b) 0 b.

(** Minimal big-endian bytes of a non-negative integer ([big.Int.Bytes],
    and the integer encoding of the codec). *)
Fixpoint be_bytes_loop (n : nat) (x : Z) (acc : bytes) : bytes :=
  match n with
  | O => acc
  | S n' => if x <=? 0 then acc
            else be_bytes_loop n' (x / 256) (x mod 256 :: acc)
  end.

Definition be_bytes (x : Z) : bytes :=
  be_bytes_loop (Z.to_nat (Z.log2 x) + 1) x [].

Definition encode_header (short long : Z) (n : Z) : bytes :=
  if n <? 56 then [short + n]
  else let l := be_bytes n in (long + len l) :: l.

(** A byte string as an item. *)
Definition encode_string (s : bytes) : bytes :=
  match s with
  | [b] => if b <? 0x80 then [b] else [0x81; b]
  | _ => encode_header 0x80 0xB7 (len s) ++ s
  end.

(** A list item around the concatenated encodings of its elements. *)
Definition encode_list (payload : bytes) : bytes :=
  encode_header 0xC0 0xF7 (len payload) ++ payload.

(** A [uint64]. *)
Definition encode_uint (x : Z) : bytes := encode_string (be_bytes x).

End rlp.

(** ** The node model *)

(** Modelled from the spec: the account record of an account node, with
    "the four canonical fields (nonce, balance, storage-root, code-root)". *)
Record Account : Type := {
  acc_Nonce : Z;
  acc_Balance : Z;
  acc_Root : bytes;
  acc_CodeHash : bytes
}.

(** Modelled from the spec: the declarations of the node types are not
    among the sources at hand; the variants are those dispatched on by
    [Prove] and [verifyProof] and listed in the data model of the spec.
    [NilNode] is the nil interface value.  The 17 slots of a [FullNode]
    are the list [Children]; [DuoNode] keeps the bit mask of its two
    occupied slots. *)
#[local] Set Warnings "-register-all".
Inductive Node : Type :=
  | NilNode
  | FullNode (Children : list Node)
  | ShortNode (Key : bytes) (Val : Node)
  | DuoNode (mask : Z) (child1 child2 : Node)
  | AccountNode (account : Account) (Storage : Node)
  | HashNode (hash : bytes)
  | ValueNode (value : bytes).
#[local] Set Warnings "register-all".

(** [nt.Children[i]]: in the source the index is a nibble of a key
    expanded by [keybytesToHex], hence below 17. *)
Definition child_at (Children : list Node) (i : Z) : Node :=
  nth (Z.to_nat i) Children NilNode.

(** Modelled from the spec: [childrenIdx], the two occupied slots of a
    [DuoNode], the positions of the two lowest bits set in its mask. *)
Definition set_bits (mask : Z) : list Z :=
  filter (fun i => Z.testbit mask i) (map Z.of_nat (seq 0 16)).

Definition childrenIdx (mask : Z) : Z * Z :=
  match set_bits mask with
  | i1 :: i2 :: _ => (i1, i2)
  | [i1] => (i1, 0)
  | [] => (0, 0)
  end.

(** ** Key encodings *)

(** Modelled from the spec: [keybytesToHex] expands "each byte into two
    nibbles, with one additional terminator nibble" (16) at the end. *)
Definition nibbles (str : bytes) : bytes :=
  flat_map (fun b => [b / 16; b mod 16]) str.

Definition keybytesToHex (str : bytes) : bytes := nibbles str ++ [16].

(** Modelled from the spec: [CompactToKeybytes] un-compacts the compact
    path-key "into nibbles, recovering the terminator flag": the high
    nibble of the first byte holds the flags (bit 5: terminating, bit 4:
    odd number of nibbles), an odd key starts in its low nibble.  [ToHex]
    gives the nibbles, followed by the terminator when terminating. *)
Record Keybytes : Type := {
  Nibbles : bytes;
  Terminating : bool
}.

Definition CompactToKeybytes (c : bytes) : Keybytes :=
  match c with
  | [] => {| Nibbles := []; Terminating := false |}
  | c0 :: tl =>
    {| Nibbles := if Z.testbit c0 4 then (c0 mod 16) :: nibbles tl else nibbles tl;
       Terminating := Z.testbit c0 5 |}
  end.

Definition ToHex (kb : Keybytes) : bytes :=
  Nibbles kb ++ (if Terminating kb then [16] else []).

(** ** The node codec *)

(** [length.Hash] *)
Definition length_Hash : Z := 32.

Section Decoder.

(** The recursive call to [decodeNode]. *)
Variable decodeNode_rec : bytes -> result Node.

Definition decodeRef_with (buf : bytes) : result (Node * bytes) :=
  let* (kind, val, rest) := rlp.Split buf in
  if bool_decide (kind = rlp.List) then
    if len buf - len rest >=? length_Hash then Err ErrEmbeddedTooLarge
    else
      let* n := decodeNode_rec buf in
      Ok (n, rest)
  else if bool_decide (kind = rlp.String) && (len val =? 0) then Ok (NilNode, rest)
  else if bool_decide (kind = rlp.String) && (len val =? 32) then Ok (HashNode val, rest)
  else Err (ErrInvalidStringSize (len val)).

(** The loop of [decodeFull] over the first [n] slots. *)
Fixpoint decodeFull_children (n : nat) (elems : bytes)
  : result (list Node * bytes) :=
  match n with
  | O => Ok ([], elems)
  | S n' =>
    let* (c, elems') := decodeRef_with elems in
    let* (cs, elems'') := decodeFull_children n' elems' in
    Ok (c :: cs, elems'')
  end.

Definition decodeFull_with (elems : bytes) : result Node :=
  let* (cs, elems') := decodeFull_children 16 elems in
  let* (val, _) := rlp.SplitString elems' in
  Ok (FullNode (cs ++ [if len val >? 0 then ValueNode val else NilNode])).

Definition decodeShort_with (elems : bytes) : result Node :=
  let* (kbuf, rest) := rlp.SplitString elems in
  let kb := CompactToKeybytes kbuf in
  if Terminating kb then
    let* (val, _) := rlp.SplitString rest in
    Ok (ShortNode (ToHex kb) (ValueNode val))
  else
    let* (val, _) := decodeRef_with rest in
    Ok (ShortNode (ToHex kb) val).

Definition decodeNode_with (encoded : bytes) : result Node :=
  if len encoded =? 0 then Err ErrZeroLength
  else
    let* (elems, _) := rlp.SplitList encoded in
    let c := match rlp.CountValues elems with Ok c => c | Err _ => 0 end in
    if c =? 2 then decodeShort_with elems
    else if c =? 17 then decodeFull_with elems
    else Err (ErrInvalidListElems c).

End Decoder.

(** The recursion of [decodeNode] through [decodeShort]/[decodeFull] and
    [decodeRef] goes to a strictly shorter buffer (the content of a list
    is shorter than the list), so [length encoded] unfoldings are enough;
    see [decodeNode_unfold] and [decodeNode_total]. *)
Fixpoint decodeNode_bounded (n : nat) (encoded : bytes) : result Node :=
  match n with
  | O => Err ErrFuel
  | S n' => decodeNode_with (decodeNode_bounded n') encoded
  end.

Definition decodeNode (encoded : bytes) : result Node :=
  decodeNode_bounded (S (length encoded)) encoded.

Definition decodeRef : bytes -> result (Node * bytes) := decodeRef_with decodeNode.
Definition decodeFull : bytes -> result Node := decodeFull_with decodeNode.
Definition decodeShort : bytes -> result Node := decodeShort_with decodeNode.

(** ** The proof element set *)

Record rawProofElement : Type := {
  index : Z;
  value : bytes
}.

#[global] Instance rawProofElement_eq_dec : EqDecision rawProofElement.
Proof. solve_decision. Defined.

(** The loop of [proofMap], at position [i] of the input. *)
Fixpoint proofMap_loop (i : Z) (proof : list bytes)
    (res : gmap bytes Node) (raw : gmap bytes rawProofElement)
  : result (gmap bytes Node * gmap bytes rawProofElement) :=
  match proof with
  | [] => Ok (res, raw)
  | proofB :: proof' =>
    let hash := Keccak256Hash proofB in
    let* n := decodeNode proofB in
    proofMap_loop (i + 1) proof'
      (<[hash := n]> res)
      (<[hash := {| index := i; value := proofB |}]> raw)
  end.

(** [proofMap] creates a map from hash to proof node. *)
Definition proofMap (proof : list bytes)
  : result (gmap bytes Node * gmap bytes rawProofElement) :=
  proofMap_loop 0 proof ∅ ∅.

(** ** The proof verifier *)

(** The variables of the loop of [verifyProof]. *)
Record vstate : Type := {
  v_node : Node;
  v_key : bytes;
  v_nextIndex : Z;
  v_used : gmap bytes rawProofElement
}.

(** One iteration either goes on or returns ([Ok None] is the nil value
    without error). *)
Inductive vstep : Type :=
  | Continue (st : vstate)
  | Return (r : result (option bytes)).

Definition verifyProof_step (proofs : gmap bytes Node) (st : vstate) : vstep :=
  let key := v_key st in
  match v_node st with
  | FullNode Children =>
    match key with
    | [] => Return (Err ErrFullNodeValue)
    | k :: key' =>
      match child_at Children k with
      | NilNode => Return (Ok None)
      | node =>
        Continue {| v_node := node; v_key := key';
                    v_nextIndex := v_nextIndex st; v_used := v_used st |}
      end
    end
  | ShortNode shortHex Val =>
    if len shortHex >? len key then
      Return (Err (ErrShortHexTooLong (len shortHex) (len key)))
    else if negb (bool_decide (shortHex = firstn (length shortHex) key)) then
      Return (Ok None)
    else
      Continue {| v_node := Val; v_key := skipn (length shortHex) key;
                  v_nextIndex := v_nextIndex st; v_used := v_used st |}
  | HashNode hash =>
    let h := BytesToHash hash in
    match proofs !! h with
    | None => Return (Err (ErrMissingHash hash))
    | Some node =>
      match v_used st !! h with
      | None => Return (Err (ErrMissingHash hash))
      | Some raw =>
        if negb (v_nextIndex st =? index raw) then
          Return (Err (ErrOutOfOrder (index raw) (v_nextIndex st)))
        else
          Continue {| v_node := node; v_key := key;
                      v_nextIndex := v_nextIndex st + 1;
                      v_used := delete h (v_used st) |}
      end
    end
  | ValueNode nt =>
    if negb (len key =? 0) then Return (Err (ErrValueNodeKey key))
    else if negb (bool_decide (v_used st = ∅)) then Return (Err ErrUnusedElements)
    else Return (Ok (Some nt))
  | _ => Return (Err ErrUnexpectedType)
  end.

(** The loop [for { ... }], unfolded at most [fuel] times. *)
Fixpoint verifyProof_loop (proofs : gmap bytes Node) (fuel : nat) (st : vstate)
  : result (option bytes) :=
  match fuel with
  | O => Err ErrFuel
  | S fuel' =>
    match verifyProof_step proofs st with
    | Return r => r
    | Continue st' => verifyProof_loop proofs fuel' st'
    end
  end.

Fixpoint node_size (n : Node) : nat :=
  match n with
  | FullNode Children => S (list_sum (map node_size Children))
  | ShortNode _ Val => S (node_size Val)
  | DuoNode _ child1 child2 => S (node_size child1 + node_size child2)
  | AccountNode _ Storage => S (node_size Storage)
  | _ => 1
  end.

(** A bound on the number of iterations: every resolution of a hash
    removes an entry of [used], and between two resolutions the loop
    descends into a node of the map; see [verifyProof_total]. *)
Definition proofs_size (proofs : gmap bytes Node) : nat :=
  map_fold (fun _ n acc => Nat.max (node_size n) acc) 1%nat proofs.

Definition verifyProof_bound (proofs : gmap bytes Node)
    (used : gmap bytes rawProofElement) : nat :=
  S (size used * S (proofs_size proofs) + 1).

Definition verifyProof_init (root key : bytes)
    (used : gmap bytes rawProofElement) : vstate :=
  {| v_node := HashNode root; v_key := keybytesToHex key;
     v_nextIndex := 0; v_used := used |}.

Definition verifyProof (root key : bytes) (proofs : gmap bytes Node)
    (used : gmap bytes rawProofElement) : result (option bytes) :=
  verifyProof_loop proofs (verifyProof_bound proofs used)
    (verifyProof_init root key used).

(** [VerifyProof(rootHash, key, proofEntries)] of the spec: the two maps
    are built from the entries, then [verifyProof] runs on them. *)
Definition VerifyProof (root key : bytes) (proof : list bytes)
  : result (option bytes) :=
  let* (pm, used) := proofMap proof in
  verifyProof root key pm used.

(** ** The record cross-checkers *)

(** [accounts.AccProofResult]; the balance is a big integer, the nonce a
    64-bit unsigned integer. *)
Record AccProofResult : Type := {
  Address : bytes;
  AccountProof : list bytes;
  Balance : Z;
  CodeHash : bytes;
  Nonce : Z;
  StorageHash : bytes
}.

(** [accounts.StorProofResult] *)
Record StorProofResult : Type := {
  Value : Z;
  Proof : list bytes
}.

(** [bytes.Equal] on slices that may be nil: a nil slice equals an empty
    one. *)
Definition bytes_Equal (a b : option bytes) : bool :=
  bool_decide (default [] a = default [] b).

(** A Go [error] result: [None] is nil. *)
Definition VerifyAccountProofByHash (stateRoot accountKey : bytes)
    (proof : AccProofResult) : option error :=
  match proofMap (AccountProof proof) with
  | Err err => Some (ErrProofMap err)
  | Ok (pm, used) =>
    match verifyProof stateRoot accountKey pm used with
    | Err err => Some (ErrVerifyProof err)
    | Ok None =>
      (* A nil value proves the account does not exist. *)
      if negb (Nonce proof =? 0) then Some ErrAbsentNonce
      else if negb (Z.sgn (Balance proof) =? 0) then Some ErrAbsentBalance
      else if negb (bool_decide (StorageHash proof = zeroHash)) then
        Some ErrAbsentStorageHash
      else if negb (bool_decide (CodeHash proof = zeroHash)) then
        Some ErrAbsentCodeHash
      else None
    | Ok (Some value) =>
      let expected :=
        rlp.encode_list
          (rlp.encode_uint (Nonce proof)
           ++ rlp.encode_string (rlp.be_bytes (Z.abs (Balance proof)))
           ++ rlp.encode_string (StorageHash proof)
           ++ rlp.encode_string (CodeHash proof)) in
      if negb (bytes_Equal (Some expected) (Some value)) then
        Some (ErrAccountMismatch value expected)
      else None
    end
  end.

Definition VerifyAccountProof (stateRoot : bytes) (proof : AccProofResult)
  : option error :=
  let accountKey := Keccak256Hash (Address proof) in
  VerifyAccountProofByHash stateRoot accountKey proof.

Definition VerifyStorageProofByHash (storageRoot keyHash : bytes)
    (proof : StorProofResult) : option error :=
  if bool_decide (storageRoot = EmptyRoot) || bool_decide (storageRoot = zeroHash)
  then
    if negb (Z.sgn (Value proof) =? 0) then Some ErrEmptyRootNonZero
    else if bool_decide (storageRoot = EmptyRoot) then
      if forallb (fun p => bool_decide (p = [0x80])) (Proof proof) then None
      else Some ErrEmptyRootProof
    else
      if forallb (fun p => len p =? 0) (Proof proof) then None
      else Some ErrZeroRootProof
  else
    match proofMap (Proof proof) with
    | Err err => Some (ErrProofMap err)
    | Ok (pm, used) =>
      match verifyProof storageRoot keyHash pm used with
      | Err err => Some (ErrVerifyProof err)
      | Ok value =>
        let expected :=
          match value with
          | Some _ =>
            (* A non-nil value proves the storage does exist. *)
            Some (rlp.encode_string (rlp.be_bytes (Z.abs (Value proof))))
          | None => None
          end in
        if negb (bytes_Equal expected value) then
          Some (ErrStorageMismatch (default [] value) (default [] expected))
        else None
      end
    end.

(** ** The proof builder *)

(** Modelled from the spec: the fields of [Trie] read by [Prove]. *)
Record Trie : Type := {
  RootNode : Node;
  valueNodesRLPEncoded : bool
}.

(** [bytes.Equal(nKey, key[:len(nKey)])], once [len(key) >= len(nKey)]. *)
Definition has_prefix (nKey key : bytes) : bool :=
  bool_decide (nKey = firstn (length nKey) key).

(** [nKey[len(nKey)-1] == 16] followed by [nKey = nKey[:len(nKey)-1]].
    The source indexes the last nibble of the key of a short node: the
    short nodes of a trie have a non-empty key. *)
Definition strip_terminator (nKey : bytes) : bytes :=
  if bool_decide (last nKey = Some 16) then removelast nKey else nKey.

Section Prover.

(** [newHasher(valueNodesRLPEncoded)] followed by
    [hasher.hashChildren(n, 0)]: the serialization of a node, or an
    error.  The hasher is not among the sources at hand and is a
    parameter of the builder. *)
Variable hashChildren : bool -> Node -> result bytes.

(** [if fromLevel == 0 { ... proof = append(proof, rlp) ... }] *)
Definition emit (hasher : bool) (n : Node) (fromLevel : Z)
    (proof : list bytes) : result (list bytes) :=
  if fromLevel =? 0 then
    let* rlp := hashChildren hasher n in
    Ok (proof ++ [rlp])
  else Ok proof.

(** [if fromLevel > 0 { fromLevel-- }] *)
Definition level_down (fromLevel : Z) : Z :=
  if fromLevel >? 0 then fromLevel - 1 else fromLevel.

(** The loop [for len(key) > 0 && tn != nil { switch n := tn.(type) ... }].
    Every iteration that goes on descends into a child of [tn], so the
    loop is a structural recursion on [tn]; the inner [pick] is
    [tn = n.Children[key[0]]] followed by the next iteration. *)
Fixpoint Prove_loop (hasher storage : bool) (tn : Node) (key : bytes)
    (fromLevel : Z) (proof : list bytes) {struct tn} : result (list bytes) :=
  match key with
  | [] => Ok proof
  | k :: key' =>
    match tn with
    | NilNode => Ok proof
    | ShortNode Key Val =>
      let* proof := emit hasher tn fromLevel proof in
      let nKey := strip_terminator Key in
      if (len key <? len nKey) || negb (has_prefix nKey key) then
        (* The trie doesn't contain the key. *)
        Ok proof
      else
        Prove_loop hasher storage Val (skipn (length nKey) key)
          (level_down fromLevel) proof
    | DuoNode mask child1 child2 =>
      let* proof := emit hasher tn fromLevel proof in
      let (i1, i2) := childrenIdx mask in
      if k =? i1 then Prove_loop hasher storage child1 key' (level_down fromLevel) proof
      else if k =? i2 then Prove_loop hasher storage child2 key' (level_down fromLevel) proof
      else Ok proof
    | FullNode Children =>
      let* proof := emit hasher tn fromLevel proof in
      (fix pick (cs : list Node) (i : nat) {struct cs} : result (list bytes) :=
         match cs, i with
         | [], _ => Ok proof
         | c :: _, O => Prove_loop hasher storage c key' (level_down fromLevel) proof
         | _ :: cs', S i' => pick cs' i'
         end) Children (Z.to_nat k)
    | AccountNode _ Storage =>
      if storage then Prove_loop hasher storage Storage key fromLevel proof
      else Ok proof
    | ValueNode _ => Ok proof
    | HashNode _ => Err (ErrHashNodeUnexpected key fromLevel)
    end
  end.

(** [Prove] constructs a merkle proof for key. *)
Definition Prove (t : Trie) (key : bytes) (fromLevel : Z) (storage : bool)
  : result (list bytes) :=
  let key := keybytesToHex key in
  let key := removelast key in (* Remove terminator *)
  Prove_loop (valueNodesRLPEncoded t) storage (RootNode t) key fromLevel [].

End Prover.

(** ** Auxiliary notions for the properties of the verifier *)

(** The quantity that decreases at every iteration. *)
Definition vmeasure (proofs : gmap bytes Node) (st : vstate) : nat :=
  size (v_used st) * S (proofs_size proofs) + node_size (v_node st).

(** The states that the loop goes through. *)
Inductive reaches (proofs : gmap bytes Node) : vstate -> vstate -> Prop :=
  | reaches_here st : reaches proofs st st
  | reaches_next st st' st'' :
      verifyProof_step proofs st = Continue st' ->
      reaches proofs st' st'' ->
      reaches proofs st st''.

(** The entries that an iteration removes from the index map. *)
Definition consumed_by (st st' : vstate) : list (bytes * rawProofElement) :=
  map_to_list (v_used st ∖ v_used st').

(** The entries removed by the first [fuel] iterations from [st], in the
    order of their removal. *)
Fixpoint verifyProof_consumed (proofs : gmap bytes Node) (fuel : nat)
    (st : vstate) : list (bytes * rawProofElement) :=
  match fuel with
  | O => []
  | S fuel' =>
    match verifyProof_step proofs st with
    | Return _ => []
    | Continue st' => consumed_by st st' ++ verifyProof_consumed proofs fuel' st'
    end
  end.

(** The state [st] with another index map. *)
Definition with_used (st : vstate) (used : gmap bytes rawProofElement) : vstate :=
  {| v_node := v_node st; v_key := v_key st; v_nextIndex := v_nextIndex st;
     v_used := used |}.

(** ** The binding of a key in a live trie *)

(** The serialization of the four fields of an account, as
    [VerifyAccountProofByHash] builds it. *)
Definition account_rlp (a : Account) : bytes :=
  rlp.encode_list
    (rlp.encode_uint (acc_Nonce a)
     ++ rlp.encode_string (rlp.be_bytes (Z.abs (acc_Balance a)))
     ++ rlp.encode_string (acc_Root a)
     ++ rlp.encode_string (acc_CodeHash a)).

(** Modelled from the spec: [trie.getRaw(key)], "the stored value when
    the key is present and the absence indicator when it is not", is not
    among the sources at hand.  The lookup follows the expanded key
    (terminator included) from the root: a short node holds a fragment of
    the path, a branch selects a child by the next nibble, and the path
    must end on a value (or on an account, whose raw value is the
    serialization of its fields).  A hash reference stands for a part of
    the trie that is not in memory and binds nothing here. *)
Fixpoint trie_get (tn : Node) (key : bytes) {struct tn} : option bytes :=
  match tn with
  | NilNode => None
  | ValueNode v => match key with [] => Some v | _ => None end
  | AccountNode a _ => match key with [] => Some (account_rlp a) | _ => None end
  | ShortNode Key Val =>
    if has_prefix Key key then trie_get Val (skipn (length Key) key) else None
  | FullNode Children =>
    match key with
    | [] => None
    | k :: key' =>
      (fix pick (cs : list Node) (i : nat) {struct cs} : option bytes :=
         match cs, i with
         | [], _ => None
         | c :: _, O => trie_get c key'
         | _ :: cs', S i' => pick cs' i'
         end) Children (Z.to_nat k)
    end
  | DuoNode mask child1 child2 =>
    match key with
    | [] => None
    | k :: key' =>
      let (i1, i2) := childrenIdx mask in
      if k =? i1 then trie_get child1 key'
      else if k =? i2 then trie_get child2 key'
      else None
    end
  | HashNode _ => None
  end.

Definition getRaw (t : Trie) (key : bytes) : option bytes :=
  trie_get (RootNode t) (keybytesToHex key).

(** Modelled from the spec: [trie.rootHash()], the digest of the
    serialization of the root node, and the canonical empty-root constant
    for the empty trie. *)
Definition rootHash (hashChildren : bool -> Node -> result bytes) (t : Trie)
  : bytes :=
  match RootNode t with
  | NilNode => EmptyRoot
  | n =>
    match hashChildren (valueNodesRLPEncoded t) n with
    | Ok enc => Keccak256Hash enc
    | Err _ => zeroHash
    end
  end.

(** ** Paths on which the builder and the verifier agree *)

(** The nodes that [Prove] serializes. *)
Definition is_inner (n : Node) : Prop :=
  match n with
  | ShortNode _ _ | DuoNode _ _ _ | FullNode _ => True
  | _ => False
  end.


Section Paths.

(** The serialization of a node by the hasher of the trie. *)
Variable enc : Node -> result bytes.


End Paths.

(** The two maps hold the entries [l], in this order from index [next],
    and nothing else. *)
Definition entries_ok (proofs : gmap bytes Node)
    (used : gmap bytes rawProofElement) (next : Z) (l : list bytes) : Prop :=
  NoDup (fmap Keccak256Hash l) /\
  (forall i x, l !! i = Some x ->
     exists n, decodeNode x = Ok n /\
       proofs !! Keccak256Hash x = Some n /\
       used !! Keccak256Hash x
       = Some {| index := next + Z.of_nat i; value := x |}) /\
  (forall h, is_Some (used !! h) -> h ∈ fmap Keccak256Hash l).


(** ** A model of the hasher *)

(** Modelled from the spec: [hexToCompact], the inverse of the
    un-compacting of path-keys: a flag nibble (bit 1: terminating, bit 0:
    odd number of nibbles), then the nibbles, two per byte. *)
Fixpoint pack_nibbles (hex : bytes) : bytes :=
  match hex with
  | a :: b :: hex' => (16 * a + b) :: pack_nibbles hex'
  | _ => []
  end.

Definition hexToCompact (hex : bytes) : bytes :=
  let flag := if bool_decide (last hex = Some 16) then 32 else 0 in
  let hex := strip_terminator hex in
  if Nat.odd (length hex) then
    match hex with
    | h0 :: hex' => (flag + 16 + h0) :: pack_nibbles hex'
    | [] => [flag]
    end
  else flag :: pack_nibbles hex.

(** Modelled from the spec: [hasher.hashChildren] is not among the
    sources at hand; the builder has to "serialize the node (recomputing
    its child-hashes encoding as needed)".  A short node is the list of
    its compact path-key and its child, a branch the list of its 16
    children and its value; a child is written as the empty string when
    nil, as the string of its value when a value (or an account), as
    itself when its serialization takes less than 32 bytes and as its
    32-byte digest otherwise. *)
Fixpoint node_rlp (n : Node) : bytes :=
  let ref (c : Node) : bytes :=
    match c with
    | NilNode => [0x80]
    | ValueNode v => rlp.encode_string v
    | AccountNode a _ => rlp.encode_string (account_rlp a)
    | HashNode h => rlp.encode_string h
    | _ =>
      let e := node_rlp c in
      if len e <? length_Hash then e else rlp.encode_string (Keccak256Hash e)
    end in
  match n with
  | ShortNode Key Val =>
    rlp.encode_list (rlp.encode_string (hexToCompact Key) ++ ref Val)
  | FullNode Children =>
    rlp.encode_list
      (concat (firstn 16 (map ref Children))
       ++ match nth 16 Children NilNode with
          | ValueNode v => rlp.encode_string v
          | AccountNode a _ => rlp.encode_string (account_rlp a)
          | _ => [0x80]
          end)
  | DuoNode mask child1 child2 =>
    let (i1, i2) := childrenIdx mask in
    rlp.encode_list
      (concat (map (fun i => if i =? i1 then ref child1
                             else if i =? i2 then ref child2
                             else [0x80])
                   (map Z.of_nat (seq 0 16)))
       ++ [0x80])
  | _ => []
  end.

Definition hashChildren_model (valueNodesRLPEncoded : bool) (n : Node)
  : result bytes :=
  match n with
  | ShortNode _ _ | FullNode _ | DuoNode _ _ _ => Ok (node_rlp n)
  | _ => Err ErrHasher
  end.

(** ** Sample data *)



(** A state trie made of one leaf, which binds the 32-byte key
    [0x11...11] to the value [0x05], and its root hash. *)
Definition sample_key : bytes := repeat 0x11 32%nat.

Definition sample_leaf : bytes :=
  rlp.encode_list (rlp.encode_string (0x20 :: sample_key)
                   ++ rlp.encode_string [0x05]).

Definition sample_root : bytes := Keccak256Hash sample_leaf.

(** A key that the sample trie does not bind. *)
Definition sample_absent_key : bytes := repeat 0x12 32%nat.

(** A well-formed leaf that does not belong to the sample trie. *)
Definition sample_unrelated : bytes :=
  rlp.encode_list (rlp.encode_string (0x20 :: repeat 0x33 32%nat)
                   ++ rlp.encode_string [0x07]).

(** The claim of an account with nonce 0 and balance 0, with the sample
    leaf as its proof. *)
Definition sample_absent_claim (storageHash codeHash : bytes) : AccProofResult :=
  {| Address := repeat 0 20%nat; AccountProof := [sample_leaf];
     Balance := 0; CodeHash := codeHash; Nonce := 0;
     StorageHash := storageHash |}.

(** The sample trie as a live trie. *)
Definition sample_trie : Trie :=
  {| RootNode := ShortNode (nibbles sample_key ++ [16]) (ValueNode [0x05]);
     valueNodesRLPEncoded := false |}.

(** The two maps of the proof made of the sample leaf twice: the second
    occurrence overwrites the first, and the leaf has index 1. *)
Definition sample_twice_proofs : gmap bytes Node :=
  {[ sample_root := ShortNode (nibbles sample_key ++ [16]) (ValueNode [0x05]) ]}.

Definition sample_twice_used : gmap bytes rawProofElement :=
  {[ sample_root := {| index := 1; value := sample_leaf |} ]}.

(** A trie of two leaves under a branch: the 32-byte key [0x11...11] is
    bound to [0x05] and the key [0x21 0x11...11] to [0x07]. *)
Definition branch_leaf (v : Z) : Node :=
  ShortNode (repeat 1 63%nat ++ [16]) (ValueNode [v]).

Definition branch_trie : Trie :=
  {| RootNode := FullNode ([NilNode; branch_leaf 0x05; branch_leaf 0x07]
                           ++ repeat NilNode 14%nat);
     valueNodesRLPEncoded := false |}.


(** The trie that binds the key [0x01] to "a" and the key [0x02] to "b":
    its three nodes below the root take less than 32 bytes and are
    embedded in the serialization of the root. *)
Definition small_trie : Trie :=
  {| RootNode :=
       ShortNode [0]
         (FullNode ([NilNode; ShortNode [16] (ValueNode [0x61]);
                     ShortNode [16] (ValueNode [0x62])]
                    ++ repeat NilNode 14%nat));
     valueNodesRLPEncoded := false |}.


(** ** More sample data *)

(** A trie whose root is a branch with an unresolved hash reference in
    slot 1. *)
Definition hash_branch_trie : Trie :=
  {| RootNode := FullNode ([NilNode; HashNode sample_root]
                           ++ repeat NilNode 15%nat);
     valueNodesRLPEncoded := false |}.

(** ** The shape of decoded nodes *)

(** What [decodeRef] returns for a child: nil, a hash reference of 32
    bytes, or an embedded node; and what [decodeNode] returns: a short
    node whose key ends with the terminator and that holds a value, a
    short node whose key does not end with the terminator and that holds
    a child reference, or a full node of 17 slots, the first 16 of them
    child references and the last one nil or a non-empty value. *)
Inductive decoded_ref : Node -> Prop :=
  | dref_nil : decoded_ref NilNode
  | dref_hash h : length h = 32%nat -> decoded_ref (HashNode h)
  | dref_embedded n : decoded_node n -> decoded_ref n
with decoded_node : Node -> Prop :=
  | dnode_leaf Key v :
      last Key = Some 16 -> decoded_node (ShortNode Key (ValueNode v))
  | dnode_ext Key r :
      last Key <> Some 16 -> decoded_ref r -> decoded_node (ShortNode Key r)
  | dnode_full cs v :
      length cs = 16%nat ->
      Forall decoded_ref cs ->
      v = NilNode \/ (exists b, b <> [] /\ v = ValueNode b) ->
      decoded_node (FullNode (cs ++ [v])).

(** ** The content of the two maps *)

(** What the maps hold for the entries of the list: the decoded node and
    the position of the last entry with that digest; and they hold
    nothing else. *)
Definition maps_of (proof : list bytes) (pm : gmap bytes Node)
    (used : gmap bytes rawProofElement) : Prop :=
  (forall j x, proof !! j = Some x ->
     exists n r,
       pm !! Keccak256Hash x = Some n /\
       used !! Keccak256Hash x = Some r /\
       decodeNode (value r) = Ok n /\
       Keccak256Hash (value r) = Keccak256Hash x /\
       0 <= index r /\ (j <= Z.to_nat (index r))%nat /\
       proof !! Z.to_nat (index r) = Some (value r)) /\
  (forall h, is_Some (pm !! h) \/ is_Some (used !! h) ->
     exists j x, proof !! j = Some x /\ Keccak256Hash x = h).

(** ** Two runs of the verifier, one on a shorter proof *)

(** The states of a run on the maps of a proof ([st]) and of a run on
    the maps of that proof without its entry of digest [he] and index [i]
    ([st']), as long as the first run has not come to that entry: the two
    stand at the same node, key and index, the entry is still unused in
    the first, and the unused entries below [i] of the first are unused
    entries of the second. *)
Definition removed_sim (he : bytes) (i : Z) (st st' : vstate) : Prop :=
  v_node st' = v_node st /\ v_key st' = v_key st /\
  v_nextIndex st' = v_nextIndex st /\
  v_nextIndex st <= i /\
  is_Some (v_used st !! he) /\
  (forall h r, v_used st !! h = Some r -> index r = i -> h = he) /\
  (forall h r, v_used st !! h = Some r -> index r < i ->
               v_used st' !! h = Some r).

(** ** Nodes whose keys end where a value stands *)

(** The nodes that stand where a key ends: a value, or nothing. *)
Definition ends_key (n : Node) : bool :=
  match n with
  | NilNode | ValueNode _ => true
  | _ => false
  end.

(** [well_keyed n]: in [n] and in the nodes embedded in it, a short node
    whose key holds the terminator nibble 16 holds a value (or nothing),
    and the 17th slot of a full node holds a value (or nothing). *)
Fixpoint well_keyed (n : Node) : bool :=
  match n with
  | ShortNode Key Val =>
    (negb (bool_decide (16 ∈ Key)) || ends_key Val) && well_keyed Val
  | FullNode Children =>
    ends_key (child_at Children 16) && forallb well_keyed Children
  | _ => true
  end.

(** The invariant of the loop of [verifyProof] on well-keyed nodes: the
    rest of the key ends with its only terminator, or the key has ended
    and the node is a value (or nothing). *)
Definition key_open (st : vstate) : Prop :=
  well_keyed (v_node st) = true /\
  ((exists hex, v_key st = hex ++ [16] /\ 16 ∉ hex) \/
   ends_key (v_node st) = true).

(** ** A sample account *)

(** The claim of an account with nonce 1, balance 2, no storage and no
    code, proved by the leaf that binds [sample_key] to the
    serialization of these four fields. *)
Definition sample_account_value : bytes :=
  rlp.encode_list
    (rlp.encode_uint 1
     ++ rlp.encode_string (rlp.be_bytes 2)
     ++ rlp.encode_string EmptyRoot
     ++ rlp.encode_string EmptyCodeHash).

Definition sample_account_leaf : bytes :=
  rlp.encode_list (rlp.encode_string (0x20 :: sample_key)
                   ++ rlp.encode_string sample_account_value).

Definition sample_account_root : bytes := Keccak256Hash sample_account_leaf.

Definition sample_account_claim (proof : list bytes) : AccProofResult :=
  {| Address := repeat 0 20%nat; AccountProof := proof;
     Balance := 2; CodeHash := EmptyCodeHash; Nonce := 1;
     StorageHash := EmptyRoot |}.

(** A trie of one account, bound to the key [0x11], whose storage binds
    the key [0x22] to the value [0x07]. *)
Definition account_trie : Trie :=
  {| RootNode :=
       ShortNode [1; 1; 16]
         (AccountNode {| acc_Nonce := 1; acc_Balance := 2;
                         acc_Root := EmptyRoot; acc_CodeHash := EmptyCodeHash |}
            (ShortNode [2; 2; 16] (ValueNode [0x07])));
     valueNodesRLPEncoded := false |}.

(** ** The path of the builder *)

(** One iteration of the loop of [Prove] that goes on: from a node, the
    rest of the key and the level, to the node, the rest of the key and
    the level of the next iteration. *)
Inductive Prove_next (storage : bool)
  : Node * bytes * Z -> Node * bytes * Z -> Prop :=
  | next_short Key Val key l :
      key <> [] ->
      (len key <? len (strip_terminator Key))
      || negb (has_prefix (strip_terminator Key) key) = false ->
      Prove_next storage (ShortNode Key Val, key, l)
        (Val, skipn (length (strip_terminator Key)) key, level_down l)
  | next_duo_first mask child1 child2 k key l :
      k = fst (childrenIdx mask) ->
      Prove_next storage (DuoNode mask child1 child2, k :: key, l)
        (child1, key, level_down l)
  | next_duo_second mask child1 child2 k key l :
      k <> fst (childrenIdx mask) ->
      k = snd (childrenIdx mask) ->
      Prove_next storage (DuoNode mask child1 child2, k :: key, l)
        (child2, key, level_down l)
  | next_full Children k key l :
      Prove_next storage (FullNode Children, k :: key, l)
        (child_at Children k, key, level_down l)
  | next_account account Storage key l :
      key <> [] ->
      storage = true ->
      Prove_next storage (AccountNode account Storage, key, l) (Storage, key, l).

(** The iterations of the loop of [Prove], from the first one on. *)
Inductive Prove_path (storage : bool)
  : Node * bytes * Z -> Node * bytes * Z -> Prop :=
  | path_here s : Prove_path storage s s
  | path_next s1 s2 s3 :
      Prove_next storage s1 s2 -> Prove_path storage s2 s3 ->
      Prove_path storage s1 s3.

(** * Properties

    ** The codec consumes its input *)

Lemma readSize_bounds b slen s :
  rlp.readSize b slen = Ok s -> 56 <= s.
Proof.
  unfold rlp.readSize. destruct (slen >? len b); [discriminate|].
  destruct (_ <? 56) eqn:E; simpl; [discriminate|].
  destruct (_ =? 0); [discriminate|]. intros [= <-]. lia.
Qed.

Lemma readKind_bounds buf k ts cs :
  rlp.readKind buf = Ok (k, ts, cs) ->
  0 <= ts /\ 0 <= cs /\ 1 <= ts + cs <= len buf /\ (k = rlp.List -> 1 <= ts).
Proof.
  unfold rlp.readKind. destruct buf as [|b tl]; [discriminate|].
  set (L := len (b :: tl)).
  destruct (b <? 128) eqn:E1.
  { simpl. destruct (1 >? L - 0) eqn:E; [discriminate|]. intros [= <- <- <-]. repeat split; try lia; try discriminate. }
  destruct (b <? 184) eqn:E2.
  { destruct (_ && _); simpl; [discriminate|].
    destruct (_ >? _) eqn:E; [discriminate|]. intros [= <- <- <-]. repeat split; try lia; try discriminate. }
  destruct (b <? 192) eqn:E3.
  { destruct (rlp.readSize tl (b - 183)) as [s|e] eqn:ES; simpl; [|discriminate].
    apply readSize_bounds in ES.
    destruct (_ >? _) eqn:E; [discriminate|]. intros [= <- <- <-]. repeat split; try lia; try discriminate. }
  destruct (b <? 248) eqn:E4.
  { simpl. destruct (_ >? _) eqn:E; [discriminate|]. intros [= <- <- <-]. repeat split; try lia; try discriminate. }
  destruct (rlp.readSize tl (b - 247)) as [s|e] eqn:ES; simpl; [|discriminate].
  apply readSize_bounds in ES.
  destruct (_ >? _) eqn:E; [discriminate|]. intros [= <- <- <-]. repeat split; try lia; try discriminate.
Qed.

Lemma Split_inv b k content rest :
  rlp.Split b = Ok (k, content, rest) ->
  exists ts cs, rlp.readKind b = Ok (k, ts, cs) /\
    content = firstn (Z.to_nat cs) (skipn (Z.to_nat ts) b) /\
    rest = skipn (Z.to_nat (ts + cs)) b.
Proof.
  unfold rlp.Split. destruct (rlp.readKind b) as [[[k' ts] cs]|e]; simpl; [|discriminate].
  intros [= <- <- <-]. eauto.
Qed.

Lemma Split_length b k content rest :
  rlp.Split b = Ok (k, content, rest) ->
  (length rest < length b)%nat /\ (length content <= length b)%nat /\
  (k = rlp.List -> (length content < length b)%nat).
Proof.
  intros (ts & cs & HK & -> & ->)%Split_inv.
  apply readKind_bounds in HK. unfold len in HK.
  rewrite length_take, !length_drop. repeat split; try lia.
  intros HL. destruct HK as (? & ? & ? & HK). specialize (HK HL). lia.
Qed.

Lemma SplitString_length b content rest :
  rlp.SplitString b = Ok (content, rest) -> (length rest < length b)%nat.
Proof.
  unfold rlp.SplitString.
  destruct (rlp.Split b) as [[[k c] r]|e] eqn:E; simpl; [|discriminate].
  destruct (bool_decide _); [discriminate|]. intros [= <- <-].
  apply Split_length in E. lia.
Qed.

Lemma SplitList_length b content rest :
  rlp.SplitList b = Ok (content, rest) -> (length content < length b)%nat.
Proof.
  unfold rlp.SplitList.
  destruct (rlp.Split b) as [[[k c] r]|e] eqn:E; simpl; [|discriminate].
  case_bool_decide; [|discriminate]. intros [= <- <-].
  apply Split_length in E. destruct E as (_ & _ & E). auto.
Qed.

Lemma readSize_not_fuel b slen : rlp.readSize b slen <> Err ErrFuel.
Proof.
  unfold rlp.readSize. destruct (slen >? len b); [discriminate|].
  destruct (_ || _); discriminate.
Qed.

Lemma readKind_not_fuel buf : rlp.readKind buf <> Err ErrFuel.
Proof.
  unfold rlp.readKind. destruct buf as [|b tl]; [discriminate|].
  assert (forall k ts cs,
            (if cs >? len (b :: tl) - ts then Err ErrValueTooLarge
             else Ok (k, ts, cs)) <> Err (A:=rlp.Kind * Z * Z) ErrFuel) as Hc.
  { intros k ts cs. destruct (_ >? _); discriminate. }
  destruct (b <? 128); [apply Hc|].
  destruct (b <? 184).
  { destruct (_ && _); [discriminate|apply Hc]. }
  destruct (b <? 192).
  { pose proof (readSize_not_fuel tl (b - 183)).
    destruct (rlp.readSize tl (b - 183)); [apply Hc|]. unfold rbind. congruence. }
  destruct (b <? 248); [apply Hc|].
  pose proof (readSize_not_fuel tl (b - 247)).
  destruct (rlp.readSize tl (b - 247)); [apply Hc|]. unfold rbind. congruence.
Qed.

Lemma CountValues_loop_total n i b :
  (length b <= n)%nat -> rlp.CountValues_loop n i b <> Err ErrFuel.
Proof.
  revert i b. induction n as [|n IH]; intros i b Hn.
  - destruct b; simpl in *; [discriminate|lia].
  - destruct b as [|x b]; [discriminate|].
    cbn [rlp.CountValues_loop].
    pose proof (readKind_not_fuel (x :: b)) as HF.
    destruct (rlp.readKind (x :: b)) as [[[k ts] cs]|e] eqn:E; unfold rbind.
    + apply IH. apply readKind_bounds in E. unfold len in E.
      rewrite length_drop. cbn [length] in *. lia.
    + congruence.
Qed.

Lemma CountValues_total b : rlp.CountValues b <> Err ErrFuel.
Proof. apply CountValues_loop_total. lia. Qed.

(** ** The decoder is total and satisfies its recursive equations *)

Section DecoderExt.

Variables f g : bytes -> result Node.

Lemma decodeRef_with_ext buf :
  f buf = g buf -> decodeRef_with f buf = decodeRef_with g buf.
Proof. intros H. unfold decodeRef_with. rewrite H. reflexivity. Qed.

Lemma decodeRef_with_rest buf n rest :
  decodeRef_with f buf = Ok (n, rest) -> (length rest < length buf)%nat.
Proof.
  unfold decodeRef_with.
  destruct (rlp.Split buf) as [[[k c] r]|e] eqn:E; simpl; [|discriminate].
  apply Split_length in E. intros H.
  assert (rest = r) as ->; [|lia].
  destruct (bool_decide (k = rlp.List)).
  - destruct (_ >=? _); [discriminate|].
    destruct (f buf); [|discriminate]. unfold rbind in H. congruence.
  - destruct (_ && _); [congruence|]. destruct (_ && _); [congruence|discriminate].
Qed.

Lemma decodeFull_children_ext n elems :
  (forall b, (length b <= length elems)%nat -> f b = g b) ->
  decodeFull_children f n elems = decodeFull_children g n elems.
Proof.
  revert elems. induction n as [|n IH]; intros elems H; [reflexivity|].
  cbn [decodeFull_children].
  rewrite (decodeRef_with_ext elems) by (apply H; lia).
  destruct (decodeRef_with g elems) as [[c r]|e] eqn:E; simpl; [|reflexivity].
  rewrite <- (decodeRef_with_ext elems) in E by (apply H; lia).
  apply decodeRef_with_rest in E.
  rewrite IH; [reflexivity|]. intros b Hb. apply H. lia.
Qed.

Lemma decodeNode_with_ext encoded :
  (forall b, (length b < length encoded)%nat -> f b = g b) ->
  decodeNode_with f encoded = decodeNode_with g encoded.
Proof.
  intros H. unfold decodeNode_with.
  destruct (len encoded =? 0); [reflexivity|].
  destruct (rlp.SplitList encoded) as [[elems r]|e] eqn:E; simpl; [|reflexivity].
  apply SplitList_length in E.
  destruct (_ =? 2).
  - unfold decodeShort_with.
    destruct (rlp.SplitString elems) as [[kbuf rest]|e] eqn:E'; simpl; [|reflexivity].
    apply SplitString_length in E'.
    destruct (Terminating _); [reflexivity|].
    rewrite (decodeRef_with_ext rest) by (apply H; lia). reflexivity.
  - destruct (_ =? 17); [|reflexivity].
    unfold decodeFull_with.
    rewrite decodeFull_children_ext; [reflexivity|].
    intros b Hb. apply H. lia.
Qed.

End DecoderExt.

Lemma decodeNode_bounded_irrel n m encoded :
  (length encoded < n)%nat -> (length encoded < m)%nat ->
  decodeNode_bounded n encoded = decodeNode_bounded m encoded.
Proof.
  revert m encoded. induction n as [|n IH]; intros m encoded Hn Hm; [lia|].
  destruct m as [|m]; [lia|]. cbn [decodeNode_bounded].
  apply decodeNode_with_ext. intros b Hb. apply IH; lia.
Qed.

(** [decodeNode] is the function of the source: it satisfies the
    recursive equation that the source writes. *)
Lemma decodeNode_unfold encoded :
  decodeNode encoded = decodeNode_with decodeNode encoded.
Proof.
  unfold decodeNode at 1. cbn [decodeNode_bounded].
  apply decodeNode_with_ext. intros b Hb.
  unfold decodeNode. apply decodeNode_bounded_irrel; lia.
Qed.

Lemma Split_not_fuel b : rlp.Split b <> Err ErrFuel.
Proof.
  unfold rlp.Split. pose proof (readKind_not_fuel b).
  destruct (rlp.readKind b) as [[[k ts] cs]|e]; unfold rbind; congruence.
Qed.

Lemma SplitString_not_fuel b : rlp.SplitString b <> Err ErrFuel.
Proof.
  unfold rlp.SplitString. pose proof (Split_not_fuel b).
  destruct (rlp.Split b) as [[[k c] r]|e]; simpl; [|congruence].
  destruct (bool_decide _); discriminate.
Qed.

Lemma SplitList_not_fuel b : rlp.SplitList b <> Err ErrFuel.
Proof.
  unfold rlp.SplitList. pose proof (Split_not_fuel b).
  destruct (rlp.Split b) as [[[k c] r]|e]; simpl; [|congruence].
  destruct (bool_decide _); discriminate.
Qed.

Section DecoderTotal.

Variable f : bytes -> result Node.

Lemma decodeRef_with_not_fuel buf :
  f buf <> Err ErrFuel -> decodeRef_with f buf <> Err ErrFuel.
Proof.
  intros H. unfold decodeRef_with. pose proof (Split_not_fuel buf).
  destruct (rlp.Split buf) as [[[k c] r]|e]; simpl; [|congruence].
  destruct (bool_decide (k = rlp.List)).
  - destruct (_ >=? _); [discriminate|].
    destruct (f buf); unfold rbind; congruence.
  - destruct (_ && _); [discriminate|]. destruct (_ && _); discriminate.
Qed.

Lemma decodeFull_children_not_fuel n elems :
  (forall b, (length b <= length elems)%nat -> f b <> Err ErrFuel) ->
  decodeFull_children f n elems <> Err ErrFuel.
Proof.
  revert elems. induction n as [|n IH]; intros elems H; [discriminate|].
  cbn [decodeFull_children].
  pose proof (decodeRef_with_not_fuel elems (H _ (Nat.le_refl _))) as HR.
  destruct (decodeRef_with f elems) as [[c r]|e] eqn:E; simpl; [|congruence].
  apply decodeRef_with_rest in E.
  assert (decodeFull_children f n r <> Err ErrFuel) as HI.
  { apply IH. intros b Hb. apply H. lia. }
  destruct (decodeFull_children f n r) as [[cs r']|e]; simpl; congruence.
Qed.

Lemma decodeNode_with_not_fuel encoded :
  (forall b, (length b < length encoded)%nat -> f b <> Err ErrFuel) ->
  decodeNode_with f encoded <> Err ErrFuel.
Proof.
  intros H. unfold decodeNode_with.
  destruct (len encoded =? 0); [discriminate|].
  pose proof (SplitList_not_fuel encoded).
  destruct (rlp.SplitList encoded) as [[elems r]|e] eqn:E; simpl; [|congruence].
  apply SplitList_length in E.
  destruct (_ =? 2).
  - unfold decodeShort_with. pose proof (SplitString_not_fuel elems).
    destruct (rlp.SplitString elems) as [[kbuf rest]|e] eqn:E'; simpl; [|congruence].
    apply SplitString_length in E'.
    destruct (Terminating _).
    + pose proof (SplitString_not_fuel rest).
      destruct (rlp.SplitString rest) as [[v r']|e]; simpl; congruence.
    + assert (decodeRef_with f rest <> Err ErrFuel) as HR.
      { apply decodeRef_with_not_fuel, H. lia. }
      destruct (decodeRef_with f rest) as [[v r']|e]; simpl; congruence.
  - destruct (_ =? 17); [|discriminate].
    unfold decodeFull_with.
    assert (decodeFull_children f 16 elems <> Err ErrFuel) as HC.
    { apply decodeFull_children_not_fuel. intros b Hb. apply H. lia. }
    destruct (decodeFull_children f 16 elems) as [[cs r']|e]; simpl; [|congruence].
    pose proof (SplitString_not_fuel r').
    destruct (rlp.SplitString r') as [[v r'']|e]; simpl; congruence.
Qed.

End DecoderTotal.

Lemma decodeNode_bounded_total n encoded :
  (length encoded < n)%nat -> decodeNode_bounded n encoded <> Err ErrFuel.
Proof.
  revert encoded. induction n as [|n IH]; intros encoded Hn; [lia|].
  cbn [decodeNode_bounded]. apply decodeNode_with_not_fuel.
  intros b Hb. apply IH. lia.
Qed.

(** [decodeNode] always returns: the recursion bound is never reached. *)
Lemma decodeNode_total encoded : decodeNode encoded <> Err ErrFuel.
Proof. apply decodeNode_bounded_total. lia. Qed.

(** ** Child references and two-item nodes *)

Lemma Split_consumed b k content rest :
  rlp.Split b = Ok (k, content, rest) ->
  exists ts cs, rlp.readKind b = Ok (k, ts, cs) /\ len b - len rest = ts + cs.
Proof.
  intros (ts & cs & HK & -> & ->)%Split_inv. exists ts, cs. split; [done|].
  apply readKind_bounds in HK. unfold len in *. rewrite length_drop. lia.
Qed.

(** C8: a child reference that is an embedded list (not a digest) decodes
    only when the embedded encoding, tag and content together, takes
    strictly less than 32 bytes; at 32 bytes or more [decodeRef] returns
    the error "embedded nodes must be less than hash size", and below 32
    bytes the outcome is that of [decodeNode] on the embedded encoding. *)
Theorem decodeRef_embedded_size buf val rest :
  rlp.Split buf = Ok (rlp.List, val, rest) ->
  (exists ts cs, rlp.readKind buf = Ok (rlp.List, ts, cs) /\
                 len buf - len rest = ts + cs) /\
  (32 <= len buf - len rest -> decodeRef buf = Err ErrEmbeddedTooLarge) /\
  (is_ok (decodeRef buf) -> len buf - len rest < 32) /\
  (len buf - len rest < 32 ->
   decodeRef buf = let* n := decodeNode buf in Ok (n, rest)).
Proof.
  intros HS. split; [eapply Split_consumed; eassumption|].
  assert (decodeRef buf
          = if len buf - len rest >=? 32 then Err ErrEmbeddedTooLarge
            else let* n := decodeNode buf in Ok (n, rest)) as ->.
  { unfold decodeRef, decodeRef_with, length_Hash. rewrite HS. reflexivity. }
  destruct (len buf - len rest >=? 32) eqn:E.
  - split; [reflexivity|]. split; [|lia]. intros [a Ha]. discriminate.
  - split; [lia|]. split; [lia|]. reflexivity.
Qed.

Lemma decodeRef_embedded_size_witness :
  let buf := rlp.encode_list (rlp.encode_string (0x20 :: repeat 0x11 28%nat)
                              ++ rlp.encode_string [0x05]) ++ [0x80] in
  rlp.Split buf = Ok (rlp.List, removelast (tail buf), [0x80]) /\
  decodeRef buf = Err ErrEmbeddedTooLarge.
Proof.
  intros buf.
  assert (rlp.Split buf = Ok (rlp.List, removelast (tail buf), [0x80])) as HS
    by (vm_compute; reflexivity).
  split; [exact HS|].
  apply (decodeRef_embedded_size buf _ _ HS). vm_compute. discriminate.
Defined.

(** C7 (amended): in a 2-item node whose compact path-key is not
    terminating, a second item that is a literal string which is neither
    empty nor 32 bytes long makes [decodeNode] fail with the error
    "invalid RLP string size"; the empty string is accepted as the nil
    child reference and the decoding succeeds. *)
Theorem decodeNode_short_literal encoded elems r kbuf rest kind val rest' :
  rlp.SplitList encoded = Ok (elems, r) ->
  rlp.CountValues elems = Ok 2 ->
  rlp.SplitString elems = Ok (kbuf, rest) ->
  Terminating (CompactToKeybytes kbuf) = false ->
  rlp.Split rest = Ok (kind, val, rest') ->
  kind <> rlp.List ->
  len val <> 32 ->
  (len val <> 0 -> decodeNode encoded = Err (ErrInvalidStringSize (len val))) /\
  (kind = rlp.String -> len val = 0 ->
   decodeNode encoded = Ok (ShortNode (ToHex (CompactToKeybytes kbuf)) NilNode)).
Proof.
  intros HL HC HK HT HS Hkind H32.
  rewrite decodeNode_unfold. unfold decodeNode_with.
  assert ((len encoded =? 0) = false) as ->.
  { destruct encoded; [discriminate|]. unfold len. simpl. lia. }
  rewrite HL. simpl. rewrite HC. simpl.
  unfold decodeShort_with. rewrite HK. simpl. rewrite HT.
  unfold decodeRef_with. rewrite HS. simpl.
  rewrite bool_decide_eq_false_2 by assumption.
  split.
  - intros H0.
    assert ((len val =? 0) = false) as -> by lia.
    assert ((len val =? 32) = false) as -> by lia.
    rewrite !andb_false_r. reflexivity.
  - intros -> H0. rewrite bool_decide_eq_true_2 by reflexivity.
    assert ((len val =? 0) = true) as -> by lia. reflexivity.
Qed.

Lemma decodeNode_short_literal_witness :
  rlp.SplitList [0xc3; 0x00; 0x81; 0xff] = Ok ([0x00; 0x81; 0xff], []) /\
  rlp.Split [0x81; 0xff] = Ok (rlp.String, [0xff], []) /\
  decodeNode [0xc3; 0x00; 0x81; 0xff] = Err (ErrInvalidStringSize 1).
Proof.
  split; [reflexivity|]. split; [reflexivity|].
  refine (proj1 (decodeNode_short_literal [0xc3; 0x00; 0x81; 0xff]
                   [0x00; 0x81; 0xff] [] [0x00] [0x81; 0xff] rlp.String [0xff] []
                   _ _ _ _ _ _ _) _);
    try reflexivity; try discriminate.
Defined.

(** C7, as stated, fails on the empty string: the node [0xc2 0x00 0x80]
    has two items, a non-terminating compact key and the empty string,
    and it decodes without error. *)
Lemma decodeNode_short_empty_string_accepted :
  rlp.SplitList [0xc2; 0x00; 0x80] = Ok ([0x00; 0x80], []) /\
  rlp.CountValues [0x00; 0x80] = Ok 2 /\
  rlp.SplitString [0x00; 0x80] = Ok ([0x00], [0x80]) /\
  Terminating (CompactToKeybytes [0x00]) = false /\
  rlp.Split [0x80] = Ok (rlp.String, [], []) /\
  decodeNode [0xc2; 0x00; 0x80] = Ok (ShortNode [] NilNode).
Proof. repeat split; vm_compute; reflexivity. Qed.

(** ** Malformed entries *)

Lemma proofMap_loop_malformed proof i res raw entry e :
  In entry proof -> decodeNode entry = Err e ->
  is_err (proofMap_loop i proof res raw).
Proof.
  revert i res raw. induction proof as [|p proof IH]; intros i res raw Hin He.
  - destruct Hin.
  - cbn [proofMap_loop].
    destruct (decodeNode p) as [n|e'] eqn:E; simpl.
    + destruct Hin as [->|Hin]; [congruence|]. apply IH; assumption.
    + exists e'. reflexivity.
Qed.

(** C10: an entry of the proof list that does not decode as a node, at
    any position and whether or not the key's path would reach it, makes
    [proofMap] fail, and [VerifyAccountProofByHash] returns that failure
    (wrapped as "could not construct proofMap") without running
    [verifyProof]. *)
Theorem malformed_entry_rejected stateRoot accountKey proof entry e :
  In entry (AccountProof proof) ->
  decodeNode entry = Err e ->
  exists e', proofMap (AccountProof proof) = Err e' /\
    VerifyAccountProofByHash stateRoot accountKey proof = Some (ErrProofMap e').
Proof.
  intros Hin He.
  destruct (proofMap_loop_malformed _ 0 ∅ ∅ _ _ Hin He) as [e' He'].
  exists e'. split; [exact He'|].
  unfold VerifyAccountProofByHash. unfold proofMap. rewrite He'. reflexivity.
Qed.

Lemma malformed_entry_rejected_witness :
  VerifyProof sample_root sample_key [sample_leaf] = Ok (Some [0x05]) /\
  In [0x80] [sample_leaf; [0x80]] /\
  decodeNode [0x80] = Err ErrExpectedList /\
  exists e', proofMap [sample_leaf; [0x80]] = Err e' /\
    VerifyAccountProofByHash sample_root sample_key
      {| Address := []; AccountProof := [sample_leaf; [0x80]]; Balance := 0;
         CodeHash := zeroHash; Nonce := 0; StorageHash := zeroHash |}
    = Some (ErrProofMap e').
Proof.
  split; [vm_compute; reflexivity|].
  assert (In [0x80] [sample_leaf; [0x80]]) as Hin by (right; left; reflexivity).
  assert (decodeNode [0x80] = Err ErrExpectedList) as He by reflexivity.
  split; [exact Hin|]. split; [exact He|].
  exact (malformed_entry_rejected sample_root sample_key
           {| Address := []; AccountProof := [sample_leaf; [0x80]]; Balance := 0;
              CodeHash := zeroHash; Nonce := 0; StorageHash := zeroHash |}
           [0x80] ErrExpectedList Hin He).
Defined.

(** ** The verifier's loop *)

Lemma verifyProof_step_not_fuel proofs st :
  verifyProof_step proofs st <> Return (Err ErrFuel).
Proof.
  unfold verifyProof_step.
  destruct (v_node st) as [|cs|sk sv|m a b|acc s|h|v]; try discriminate.
  - destruct (v_key st) as [|k key]; [discriminate|].
    destruct (child_at cs k); discriminate.
  - destruct (_ >? _); [discriminate|]. destruct (negb _); discriminate.
  - destruct (proofs !! _); [|discriminate].
    destruct (v_used st !! _); [|discriminate].
    destruct (negb _); discriminate.
  - destruct (negb _); [discriminate|]. destruct (negb _); discriminate.
Qed.

(** The result of the loop does not depend on the bound, once the bound
    is not reached. *)
Lemma verifyProof_loop_deterministic proofs f f' st r :
  verifyProof_loop proofs f st = r -> r <> Err ErrFuel ->
  verifyProof_loop proofs f' st <> Err ErrFuel ->
  verifyProof_loop proofs f' st = r.
Proof.
  revert f' st. induction f as [|f IH]; intros f' st Hr Hne Hf'.
  - simpl in Hr. congruence.
  - destruct f' as [|f']; [simpl in Hf'; congruence|].
    cbn [verifyProof_loop] in *.
    destruct (verifyProof_step proofs st) as [st'|r']; [|assumption].
    eapply IH; eassumption.
Qed.

Lemma child_at_size cs k :
  (node_size (child_at cs k) <= list_sum (map node_size cs) \/
   child_at cs k = NilNode)%nat.
Proof.
  unfold child_at. generalize (Z.to_nat k) as i.
  induction cs as [|c cs IH]; intros [|i]; simpl; auto; [lia|].
  destruct (IH i) as [H|H]; [left; lia|right; exact H].
Qed.

Lemma proofs_size_ge (proofs : gmap bytes Node) h n :
  proofs !! h = Some n -> (node_size n <= proofs_size proofs)%nat.
Proof.
  unfold proofs_size. revert h n.
  apply (map_fold_weak_ind
           (fun r (m : gmap bytes Node) =>
              forall h n, m !! h = Some n -> (node_size n <= r)%nat)).
  - intros h n. rewrite lookup_empty. discriminate.
  - intros i x m r Hi IH h n. rewrite lookup_insert.
    case_decide as E.
    + intros [= ->]. lia.
    + intros H. apply IH in H. lia.
Qed.

Lemma proofs_size_pos (proofs : gmap bytes Node) : (1 <= proofs_size proofs)%nat.
Proof.
  unfold proofs_size.
  apply (map_fold_weak_ind (fun r (m : gmap bytes Node) => (1 <= r)%nat)); intros; lia.
Qed.


Lemma verifyProof_step_decreases proofs st st' :
  (node_size (v_node st) <= proofs_size proofs)%nat ->
  verifyProof_step proofs st = Continue st' ->
  (node_size (v_node st') <= proofs_size proofs)%nat /\
  (vmeasure proofs st' < vmeasure proofs st)%nat.
Proof.
  unfold verifyProof_step, vmeasure. intros Hinv.
  destruct (v_node st) as [|cs|sk sv|m a b|acc s|h|v] eqn:EN; try discriminate.
  - destruct (v_key st) as [|k key]; [discriminate|].
    destruct (child_at_size cs k) as [Hc|Hc]; [|rewrite Hc; discriminate].
    destruct (child_at cs k) eqn:EC; try discriminate;
      intros [= <-]; simpl in *; lia.
  - destruct (_ >? _); [discriminate|]. destruct (negb _); [discriminate|].
    intros [= <-]. simpl in *. lia.
  - destruct (proofs !! _) as [n|] eqn:EP; [|discriminate].
    destruct (v_used st !! _) as [raw|] eqn:EU; [|discriminate].
    destruct (negb _); [discriminate|]. intros [= <-]. simpl.
    apply proofs_size_ge in EP.
    rewrite map_size_delete, EU. simpl.
    assert (size (v_used st) <> 0)%nat as Hs.
    { rewrite map_size_non_empty_iff. intros Hempty. rewrite Hempty in EU.
      rewrite lookup_empty in EU. discriminate. }
    split; [exact EP|]. nia.
  - destruct (negb _); [discriminate|]. destruct (negb _); discriminate.
Qed.

Lemma verifyProof_loop_total proofs fuel st :
  (node_size (v_node st) <= proofs_size proofs)%nat ->
  (vmeasure proofs st < fuel)%nat ->
  verifyProof_loop proofs fuel st <> Err ErrFuel.
Proof.
  revert st. induction fuel as [|fuel IH]; intros st Hinv Hm; [lia|].
  cbn [verifyProof_loop].
  destruct (verifyProof_step proofs st) as [st'|r] eqn:E.
  - apply verifyProof_step_decreases in E as [H1 H2]; [|assumption].
    apply IH; [assumption|lia].
  - intros ->. eapply verifyProof_step_not_fuel; eassumption.
Qed.

(** [verifyProof] always returns: the bound on its loop is never reached. *)
Lemma verifyProof_total root key proofs used :
  verifyProof root key proofs used <> Err ErrFuel.
Proof.
  unfold verifyProof. pose proof (proofs_size_pos proofs).
  apply verifyProof_loop_total; unfold verifyProof_bound, vmeasure;
    simpl; lia.
Qed.


Lemma reaches_trans proofs st1 st2 st3 :
  reaches proofs st1 st2 -> reaches proofs st2 st3 -> reaches proofs st1 st3.
Proof.
  induction 1; [auto|]. intros H3. eapply reaches_next; eauto.
Qed.

Lemma reaches_return proofs st st' r fuel :
  reaches proofs st st' ->
  verifyProof_step proofs st' = Return r ->
  verifyProof_loop proofs fuel st <> Err ErrFuel ->
  verifyProof_loop proofs fuel st = r.
Proof.
  intros H. revert fuel. induction H as [st|st st' st'' Hs _ IH]; intros fuel Hr Hf.
  - destruct fuel; [simpl in Hf; congruence|]. simpl. rewrite Hr. reflexivity.
  - destruct fuel; [simpl in Hf; congruence|]. cbn [verifyProof_loop] in *.
    rewrite Hs in *. apply IH; assumption.
Qed.

(** What a state reached from the initial state returns is what
    [verifyProof] returns. *)
Lemma verifyProof_reaches_return root key proofs used st r :
  reaches proofs (verifyProof_init root key used) st ->
  verifyProof_step proofs st = Return r ->
  verifyProof root key proofs used = r.
Proof.
  intros H Hr. eapply reaches_return; [exact H|exact Hr|].
  apply verifyProof_total.
Qed.

(** ** Branch nodes do not end a key *)




(** ** The order in which proof entries are consumed *)


(** An iteration that goes on either leaves the counter and the index
    map as they are, or resolves a hash: the entry has the index that the
    counter holds, the counter moves by one and the entry is removed. *)
Lemma verifyProof_step_consumes proofs st st' :
  verifyProof_step proofs st = Continue st' ->
  (v_nextIndex st' = v_nextIndex st /\ v_used st' = v_used st /\
   consumed_by st st' = [])
  \/
  (exists h raw, v_used st !! h = Some raw /\ index raw = v_nextIndex st /\
     v_nextIndex st' = v_nextIndex st + 1 /\ v_used st' = delete h (v_used st) /\
     consumed_by st st' = [(h, raw)]).
Proof.
  unfold verifyProof_step, consumed_by.
  destruct (v_node st) as [|cs|sk sv|m a b|acc s|h|v] eqn:EN; try discriminate.
  - destruct (v_key st) as [|k key]; [discriminate|].
    destruct (child_at cs k); try discriminate; intros [= <-]; left; simpl;
      rewrite map_difference_diag, map_to_list_empty; auto.
  - destruct (_ >? _); [discriminate|]. destruct (negb _); [discriminate|].
    intros [= <-]. left. simpl.
    rewrite map_difference_diag, map_to_list_empty; auto.
  - destruct (proofs !! _) as [n|] eqn:EP; [|discriminate].
    destruct (v_used st !! _) as [raw|] eqn:EU; [|discriminate].
    destruct (v_nextIndex st =? index raw) eqn:EI; [|discriminate].
    intros [= <-]. right. exists (BytesToHash h), raw. simpl.
    rewrite (difference_delete _ _ _ _ EU), map_difference_diag, insert_empty,
      map_to_list_singleton.
    repeat split; try assumption; try reflexivity. lia.
  - destruct (negb _); [discriminate|]. destruct (negb _); discriminate.
Qed.

Lemma verifyProof_consumed_inv proofs fuel st :
  let log := verifyProof_consumed proofs fuel st in
  (forall i h raw, log !! i = Some (h, raw) ->
     index raw = v_nextIndex st + Z.of_nat i /\ v_used st !! h = Some raw) /\
  NoDup (fmap fst log).
Proof.
  revert st. induction fuel as [|fuel IH]; intros st; simpl.
  { split; [intros i h raw H; discriminate|constructor]. }
  destruct (verifyProof_step proofs st) as [st'|r] eqn:E.
  2:{ split; [intros i h raw H; discriminate|constructor]. }
  destruct (IH st') as [IH1 IH2].
  apply verifyProof_step_consumes in E
    as [(Hn & Hu & ->)|(h0 & raw0 & Hl & Hi & Hn & Hu & ->)]; simpl.
  - rewrite Hn, Hu in IH1. split; assumption.
  - split.
    + intros [|i] h raw; simpl.
      * intros [= <- <-]. split; [lia|assumption].
      * intros H. apply IH1 in H as [H1 H2]. rewrite Hn in H1. rewrite Hu in H2.
        apply lookup_delete_Some in H2 as [_ H2]. split; [lia|assumption].
    + constructor; [|assumption].
      intros Hin. apply list_elem_of_fmap in Hin as ([h raw] & Heq & Hin).
      simpl in Heq. subst h.
      apply list_elem_of_lookup in Hin as [i Hin].
      apply IH1 in Hin as [_ Hin]. rewrite Hu, lookup_delete_eq in Hin.
      discriminate.
Qed.

Lemma proofMap_loop_index (prefix proof : list bytes) res raw pm used :
  (forall h r, raw !! h = Some r ->
     (prefix ++ proof) !! Z.to_nat (index r) = Some (value r) /\
     0 <= index r /\ h = Keccak256Hash (value r)) ->
  proofMap_loop (Z.of_nat (length prefix)) proof res raw = Ok (pm, used) ->
  forall h r, used !! h = Some r ->
    (prefix ++ proof) !! Z.to_nat (index r) = Some (value r) /\
    0 <= index r /\ h = Keccak256Hash (value r).
Proof.
  revert prefix res raw. induction proof as [|p proof IH]; intros prefix res raw Hinv.
  - intros [= <- <-]. exact Hinv.
  - cbn [proofMap_loop]. destruct (decodeNode p) as [n|e]; [|discriminate].
    unfold rbind. intros Heq.
    replace (prefix ++ p :: proof) with ((prefix ++ [p]) ++ proof)
      by (rewrite <- app_assoc; reflexivity).
    apply (IH (prefix ++ [p]) (<[Keccak256Hash p := n]> res)
              (<[Keccak256Hash p :=
                   {| index := Z.of_nat (length prefix); value := p |}]> raw)).
    + intros h r. rewrite lookup_insert. case_decide as E.
      * intros [= <-]. cbn [index value]. rewrite Nat2Z.id.
        rewrite <- app_assoc. cbn [app]. rewrite list_lookup_middle by reflexivity.
        split; [reflexivity|]. split; [lia|congruence].
      * intros Hr. rewrite <- app_assoc. cbn [app]. apply Hinv. exact Hr.
    + rewrite length_app. cbn [length].
      replace (Z.of_nat (length prefix + 1)) with (Z.of_nat (length prefix) + 1)
        by lia.
      exact Heq.
Qed.

(** The index that [proofMap] records for an entry is a position of the
    entry in the proof list, and the key of the entry is its digest. *)
Lemma proofMap_index proof pm used h r :
  proofMap proof = Ok (pm, used) ->
  used !! h = Some r ->
  proof !! Z.to_nat (index r) = Some (value r) /\
  0 <= index r /\ h = Keccak256Hash (value r).
Proof.
  intros Heq. apply (proofMap_loop_index [] proof ∅ ∅ pm used); [|exact Heq].
  intros h' r'. rewrite lookup_empty. discriminate.
Qed.

(** C2: the counter of [verifyProof] starts at 0; when a hash reference
    is resolved from the two maps, an entry whose original index differs
    from the counter makes [verifyProof] return the error "proof elements
    present but not in expected order", and otherwise the counter moves
    by one and the entry is removed from the index map.  So the entries
    that a run consumes are distinct entries of the index map and the
    i-th of them has original index i: each entry is consumed at most
    once and in strictly increasing order of original index.  The
    index of an entry of the maps built by [proofMap] is a position of
    the entry in the proof list. *)
Theorem proof_elements_consumed_in_order root key proofs used :
  let init := verifyProof_init root key used in
  v_nextIndex init = 0 /\
  (forall st hash node raw,
     reaches proofs init st ->
     v_node st = HashNode hash ->
     proofs !! BytesToHash hash = Some node ->
     v_used st !! BytesToHash hash = Some raw ->
     (index raw <> v_nextIndex st ->
      verifyProof root key proofs used
      = Err (ErrOutOfOrder (index raw) (v_nextIndex st))) /\
     (index raw = v_nextIndex st ->
      verifyProof_step proofs st
      = Continue {| v_node := node; v_key := v_key st;
                    v_nextIndex := v_nextIndex st + 1;
                    v_used := delete (BytesToHash hash) (v_used st) |})) /\
  (forall fuel,
     let log := verifyProof_consumed proofs fuel init in
     (forall i h raw, log !! i = Some (h, raw) ->
        index raw = Z.of_nat i /\ used !! h = Some raw) /\
     NoDup (fmap fst log)) /\
  (forall proof, proofMap proof = Ok (proofs, used) ->
     forall h raw, used !! h = Some raw ->
       proof !! Z.to_nat (index raw) = Some (value raw) /\
       0 <= index raw /\ h = Keccak256Hash (value raw)).
Proof.
  intros init. split; [reflexivity|]. split.
  - intros st hash node raw Hreach Hnode Hp Hu.
    assert (verifyProof_step proofs st
            = if negb (v_nextIndex st =? index raw)
              then Return (Err (ErrOutOfOrder (index raw) (v_nextIndex st)))
              else Continue {| v_node := node; v_key := v_key st;
                               v_nextIndex := v_nextIndex st + 1;
                               v_used := delete (BytesToHash hash) (v_used st) |})
      as Hstep.
    { unfold verifyProof_step. rewrite Hnode, Hp, Hu. reflexivity. }
    split; intros Hi.
    + eapply verifyProof_reaches_return; [exact Hreach|].
      rewrite Hstep. assert ((v_nextIndex st =? index raw) = false) as -> by lia.
      reflexivity.
    + rewrite Hstep. assert ((v_nextIndex st =? index raw) = true) as -> by lia.
      reflexivity.
  - split.
    + intros fuel log.
      destruct (verifyProof_consumed_inv proofs fuel init) as [H1 H2].
      split; [|exact H2]. intros i h raw H. apply H1 in H. simpl in H. exact H.
    + intros proof Hpm h raw Hraw. eapply proofMap_index; eassumption.
Qed.

Lemma proof_elements_consumed_in_order_witness :
  proofMap [sample_leaf; sample_leaf] = Ok (sample_twice_proofs, sample_twice_used) /\
  verifyProof sample_root sample_key sample_twice_proofs sample_twice_used
  = Err (ErrOutOfOrder 1 0).
Proof.
  split; [vm_compute; reflexivity|].
  refine (proj1 (proj1 (proj2 (proof_elements_consumed_in_order
                   sample_root sample_key sample_twice_proofs sample_twice_used))
                   (verifyProof_init sample_root sample_key sample_twice_used)
                   sample_root
                   (ShortNode (nibbles sample_key ++ [16]) (ValueNode [0x05]))
                   {| index := 1; value := sample_leaf |} _ _ _ _) _).
  - apply reaches_here.
  - reflexivity.
  - vm_compute. reflexivity.
  - vm_compute. reflexivity.
  - simpl. discriminate.
Defined.

(** ** Entries that the traversal does not use *)

Lemma verifyProof_step_extra proofs st h n r :
  proofs !! h = None -> v_used st !! h = None ->
  let st1 := with_used st (<[h := r]> (v_used st)) in
  match verifyProof_step proofs st with
  | Continue st' =>
      v_used st' !! h = None /\
      verifyProof_step (<[h := n]> proofs) st1
      = Continue (with_used st' (<[h := r]> (v_used st')))
  | Return (Ok (Some v)) =>
      verifyProof_step (<[h := n]> proofs) st1 = Return (Err ErrUnusedElements)
  | Return (Ok None) =>
      verifyProof_step (<[h := n]> proofs) st1 = Return (Ok None)
  | Return (Err _) => True
  end.
Proof.
  intros Hp Hu. unfold verifyProof_step, with_used. simpl.
  destruct (v_node st) as [|cs|sk sv|m a b|acc s|hash|v] eqn:EN; try exact I.
  - destruct (v_key st) as [|k key]; [exact I|].
    destruct (child_at cs k); simpl; auto.
  - destruct (_ >? _); [exact I|]. destruct (negb _); simpl; auto.
  - destruct (proofs !! BytesToHash hash) as [node|] eqn:EP; [|exact I].
    assert (h <> BytesToHash hash) as Hne by congruence.
    rewrite lookup_insert_ne by assumption. rewrite EP.
    rewrite lookup_insert_ne by assumption.
    destruct (v_used st !! BytesToHash hash) as [raw|] eqn:EU; [|exact I].
    destruct (negb _); [exact I|]. simpl.
    split; [rewrite lookup_delete_ne by congruence; assumption|].
    rewrite delete_insert_ne by congruence. reflexivity.
  - destruct (negb (len (v_key st) =? 0)); [exact I|].
    case_bool_decide as E; simpl; [|exact I].
    rewrite bool_decide_eq_false_2; [reflexivity|]. apply insert_non_empty.
Qed.

Lemma verifyProof_loop_extra proofs h n r fuel st res :
  proofs !! h = None -> v_used st !! h = None ->
  verifyProof_loop proofs fuel st = Ok res ->
  verifyProof_loop (<[h := n]> proofs) fuel (with_used st (<[h := r]> (v_used st)))
  = match res with
    | Some _ => Err ErrUnusedElements
    | None => Ok None
    end.
Proof.
  intros Hp. revert st. induction fuel as [|fuel IH]; intros st Hu; [discriminate|].
  cbn [verifyProof_loop].
  pose proof (verifyProof_step_extra proofs st h n r Hp Hu) as Hs. simpl in Hs.
  destruct (verifyProof_step proofs st) as [st'|[[v|]|e]].
  - destruct Hs as [Hu' ->]. apply IH. exact Hu'.
  - rewrite Hs. intros [= <-]. reflexivity.
  - rewrite Hs. intros [= <-]. reflexivity.
  - discriminate.
Qed.

Lemma verifyProof_extra root key proofs used h n r res :
  proofs !! h = None -> used !! h = None ->
  verifyProof root key proofs used = Ok res ->
  verifyProof root key (<[h := n]> proofs) (<[h := r]> used)
  = match res with
    | Some _ => Err ErrUnusedElements
    | None => Ok None
    end.
Proof.
  intros Hp Hu H. unfold verifyProof in H.
  apply (verifyProof_loop_extra proofs h n r) in H; [|assumption|assumption].
  eapply verifyProof_loop_deterministic; [exact H| |apply verifyProof_total].
  destruct res; discriminate.
Qed.

Lemma proofMap_loop_app i proof extra res raw :
  proofMap_loop i (proof ++ [extra]) res raw
  = let* (pm, used) := proofMap_loop i proof res raw in
    let* n := decodeNode extra in
    Ok (<[Keccak256Hash extra := n]> pm,
        <[Keccak256Hash extra := {| index := i + Z.of_nat (length proof);
                                    value := extra |}]> used).
Proof.
  revert i res raw. induction proof as [|p proof IH]; intros i res raw.
  - cbn [app proofMap_loop length]. rewrite Z.add_0_r.
    destruct (decodeNode extra); reflexivity.
  - cbn [app proofMap_loop].
    destruct (decodeNode p) as [n|e]; unfold rbind at 1; [|reflexivity].
    rewrite IH. cbn [length].
    replace (i + 1 + Z.of_nat (length proof)) with (i + Z.of_nat (S (length proof)))
      by lia.
    reflexivity.
Qed.

Lemma proofMap_loop_fresh i proof res raw pm used h :
  proofMap_loop i proof res raw = Ok (pm, used) ->
  res !! h = None -> raw !! h = None ->
  ~ In h (map Keccak256Hash proof) ->
  pm !! h = None /\ used !! h = None.
Proof.
  revert i res raw. induction proof as [|p proof IH]; intros i res raw.
  - intros [= <- <-]. auto.
  - cbn [proofMap_loop map]. destruct (decodeNode p) as [n|e]; simpl; [|discriminate].
    intros H Hres Hraw Hin. eapply IH; [exact H| | |].
    + rewrite lookup_insert_ne; [assumption|]. intros E. apply Hin. left. exact E.
    + rewrite lookup_insert_ne; [assumption|]. intros E. apply Hin. left. exact E.
    + intros Hin'. apply Hin. right. exact Hin'.
Qed.

Lemma VerifyProof_extra root key proof extra res :
  is_ok (decodeNode extra) ->
  ~ In (Keccak256Hash extra) (map Keccak256Hash proof) ->
  VerifyProof root key proof = Ok res ->
  VerifyProof root key (proof ++ [extra])
  = match res with
    | Some _ => Err ErrUnusedElements
    | None => Ok None
    end.
Proof.
  intros [n Hn] Hfresh. unfold VerifyProof, proofMap. rewrite proofMap_loop_app.
  destruct (proofMap_loop 0 proof ∅ ∅) as [[pm used]|e] eqn:E; unfold rbind at 2;
    [|discriminate].
  rewrite Hn. unfold rbind. intros Hv.
  destruct (proofMap_loop_fresh _ _ _ _ _ _ (Keccak256Hash extra) E)
    as [Hp Hu]; try apply lookup_empty; [assumption|].
  apply verifyProof_extra; assumption.
Qed.

(** X19: when [VerifyProof] accepts a proof with a value, the proof
    followed by one more entry that decodes as a node and whose digest is
    not the digest of an entry of the proof is rejected with the error
    "not all proof elements were used". *)
Theorem extra_entry_rejected root key proof extra v :
  is_ok (decodeNode extra) ->
  ~ In (Keccak256Hash extra) (map Keccak256Hash proof) ->
  VerifyProof root key proof = Ok (Some v) ->
  VerifyProof root key (proof ++ [extra]) = Err ErrUnusedElements.
Proof.
  intros Hdec Hfresh Hv.
  exact (VerifyProof_extra root key proof extra (Some v) Hdec Hfresh Hv).
Qed.

Lemma extra_entry_rejected_witness :
  VerifyProof sample_root sample_key [sample_leaf] = Ok (Some [0x05]) /\
  VerifyProof sample_root sample_key ([sample_leaf] ++ [sample_unrelated])
  = Err ErrUnusedElements.
Proof.
  assert (VerifyProof sample_root sample_key [sample_leaf] = Ok (Some [0x05])) as H
    by (vm_compute; reflexivity).
  split; [exact H|].
  refine (extra_entry_rejected sample_root sample_key [sample_leaf]
            sample_unrelated [0x05] _ _ H).
  - eexists. vm_compute. reflexivity.
  - vm_compute. intros [E|[]]. discriminate E.
Defined.

(** C3 (the code departs from it): when [VerifyProof] accepts a proof
    with the nil value, the proof followed by one more entry that decodes
    as a node and whose digest is not the digest of an entry of the proof
    is accepted with the nil value as well, without the error "not all
    proof elements were used".  The check for unused entries is made on
    the return of a value only; the two returns of the nil value (an
    empty slot of a full node, a short node off the key) do not make
    it. *)
Theorem extra_entry_after_absence root key proof extra :
  is_ok (decodeNode extra) ->
  ~ In (Keccak256Hash extra) (map Keccak256Hash proof) ->
  VerifyProof root key proof = Ok None ->
  VerifyProof root key (proof ++ [extra]) = Ok None.
Proof.
  intros Hdec Hfresh Hv.
  exact (VerifyProof_extra root key proof extra None Hdec Hfresh Hv).
Qed.

(** The sample leaf proves that [sample_absent_key] is not bound, and
    the proof followed by an unrelated well-formed leaf is accepted with
    the same result. *)
Lemma extra_entry_after_absence_witness :
  VerifyProof sample_root sample_absent_key [sample_leaf] = Ok None /\
  is_ok (decodeNode sample_unrelated) /\
  ~ In (Keccak256Hash sample_unrelated) (map Keccak256Hash [sample_leaf]) /\
  VerifyProof sample_root sample_absent_key ([sample_leaf] ++ [sample_unrelated])
  = Ok None.
Proof.
  assert (VerifyProof sample_root sample_absent_key [sample_leaf] = Ok None) as H
    by (vm_compute; reflexivity).
  assert (is_ok (decodeNode sample_unrelated)) as Hdec
    by (eexists; vm_compute; reflexivity).
  assert (~ In (Keccak256Hash sample_unrelated) (map Keccak256Hash [sample_leaf]))
    as Hfresh by (vm_compute; intros [E|[]]; discriminate E).
  split; [exact H|]. split; [exact Hdec|]. split; [exact Hfresh|].
  exact (extra_entry_after_absence sample_root sample_absent_key [sample_leaf]
           sample_unrelated Hdec Hfresh H).
Defined.

(** ** Absent accounts and absent storage slots *)

Lemma EmptyRoot_not_zero : EmptyRoot <> zeroHash.
Proof. discriminate. Qed.

Lemma EmptyCodeHash_not_zero : EmptyCodeHash <> zeroHash.
Proof. discriminate. Qed.

(** C4 (amended): when the verification of an account proof yields
    absence, [VerifyAccountProofByHash] succeeds exactly when the claimed
    nonce is zero, the claimed balance is zero, the claimed storage root
    is the all-zero digest and the claimed code hash is the all-zero
    digest.  A claimed storage root equal to the canonical empty-trie
    root is rejected with "account is not in state, but has non-empty
    storage hash". *)
Theorem absent_account_fields stateRoot accountKey proof :
  VerifyProof stateRoot accountKey (AccountProof proof) = Ok None ->
  (VerifyAccountProofByHash stateRoot accountKey proof = None <->
   Nonce proof = 0 /\ Balance proof = 0 /\
   StorageHash proof = zeroHash /\ CodeHash proof = zeroHash) /\
  (Nonce proof = 0 -> Balance proof = 0 -> StorageHash proof = EmptyRoot ->
   VerifyAccountProofByHash stateRoot accountKey proof = Some ErrAbsentStorageHash).
Proof.
  unfold VerifyProof, VerifyAccountProofByHash.
  destruct (proofMap (AccountProof proof)) as [[pm used]|e]; simpl; [|discriminate].
  intros ->. split.
  - destruct (Nonce proof =? 0) eqn:E1; simpl;
      [|split; [discriminate|intros (? & _); lia]].
    destruct (Z.sgn (Balance proof) =? 0) eqn:E2; simpl;
      [|split; [discriminate|intros (_ & ? & _); lia]].
    case_bool_decide as E3; simpl;
      [|split; [discriminate|intros (_ & _ & ? & _); contradiction]].
    case_bool_decide as E4; simpl;
      [|split; [discriminate|intros (_ & _ & _ & ?); contradiction]].
    split; [intros _|reflexivity]. repeat split; try assumption; lia.
  - intros -> -> ->. reflexivity.
Qed.

Lemma absent_account_fields_witness :
  VerifyProof sample_root sample_absent_key [sample_leaf] = Ok None /\
  VerifyAccountProofByHash sample_root sample_absent_key
    (sample_absent_claim zeroHash zeroHash) = None.
Proof.
  assert (VerifyProof sample_root sample_absent_key [sample_leaf] = Ok None) as H
    by (vm_compute; reflexivity).
  split; [exact H|].
  apply (absent_account_fields sample_root sample_absent_key
           (sample_absent_claim zeroHash zeroHash) H).
  repeat split; reflexivity.
Defined.

(** C4, as stated, fails: the sample leaf proves that the account key
    [sample_absent_key] (and the key of the address of the claim) is
    absent, and the claim with nonce 0, balance 0 and the canonical
    empty-trie root as storage root is rejected, with the all-zero code
    hash as well as with the hash of the empty code. *)
Lemma absent_account_empty_root_rejected :
  VerifyProof sample_root sample_absent_key [sample_leaf] = Ok None /\
  VerifyAccountProofByHash sample_root sample_absent_key
    (sample_absent_claim EmptyRoot zeroHash) = Some ErrAbsentStorageHash /\
  VerifyAccountProofByHash sample_root sample_absent_key
    (sample_absent_claim EmptyRoot EmptyCodeHash) = Some ErrAbsentStorageHash /\
  VerifyAccountProof sample_root (sample_absent_claim EmptyRoot EmptyCodeHash)
  = Some ErrAbsentStorageHash.
Proof. repeat split; vm_compute; reflexivity. Qed.

(** C5 (the code departs from it): under a storage root that is neither
    the empty-trie root nor the all-zero digest, when the verification of
    the proof yields absence, [VerifyStorageProofByHash] returns no
    error whatever the claimed value is: the expected bytes are computed
    only for a value that is present, so a non-zero claimed value of an
    absent slot is accepted. *)
Theorem absent_slot_any_value_accepted storageRoot keyHash proof :
  storageRoot <> EmptyRoot ->
  storageRoot <> zeroHash ->
  VerifyProof storageRoot keyHash (Proof proof) = Ok None ->
  VerifyStorageProofByHash storageRoot keyHash proof = None.
Proof.
  intros H1 H2. unfold VerifyProof, VerifyStorageProofByHash.
  rewrite !bool_decide_eq_false_2 by assumption. simpl.
  destruct (proofMap (Proof proof)) as [[pm used]|e]; simpl; [|discriminate].
  intros ->. reflexivity.
Qed.

Lemma absent_slot_any_value_accepted_witness :
  sample_root <> EmptyRoot /\ sample_root <> zeroHash /\
  VerifyProof sample_root sample_absent_key [sample_leaf] = Ok None /\
  VerifyStorageProofByHash sample_root sample_absent_key
    {| Value := 1; Proof := [sample_leaf] |} = None.
Proof.
  assert (sample_root <> EmptyRoot) as H1 by (vm_compute; discriminate).
  assert (sample_root <> zeroHash) as H2 by (vm_compute; discriminate).
  assert (VerifyProof sample_root sample_absent_key [sample_leaf] = Ok None) as H3
    by (vm_compute; reflexivity).
  split; [exact H1|]. split; [exact H2|]. split; [exact H3|].
  exact (absent_slot_any_value_accepted sample_root sample_absent_key
           {| Value := 1; Proof := [sample_leaf] |} H1 H2 H3).
Defined.

(** The sibling path: under the empty storage root the same claim is
    rejected. *)
Lemma empty_root_nonzero_value_rejected :
  VerifyStorageProofByHash EmptyRoot sample_absent_key
    {| Value := 1; Proof := [[0x80]] |} = Some ErrEmptyRootNonZero.
Proof. vm_compute. reflexivity. Qed.

(** ** The builder on the empty key *)

(** C6 (the code departs from it): [Prove] removes the terminator from
    the expanded key before its loop, so on the empty key the loop does
    not run and the proof is empty, without the root node, whatever the
    trie is. *)
Theorem Prove_empty_key hashChildren t fromLevel storage :
  Prove hashChildren t [] fromLevel storage = Ok [].
Proof. unfold Prove. simpl. destruct (RootNode t); reflexivity. Qed.

Lemma Prove_empty_key_sample :
  RootNode sample_trie <> NilNode /\
  Prove (fun _ _ => Ok sample_leaf) sample_trie [] 0 false = Ok [].
Proof. split; [discriminate|reflexivity]. Qed.

(** ** Digests *)

(** The two digests that the Ethereum constants record: the empty-trie
    root is the digest of the serialization [0x80] of the empty string,
    and the hash of the empty code is the digest of the empty string. *)
Lemma Keccak256Hash_empty_string_rlp : Keccak256Hash [0x80] = EmptyRoot.
Proof. vm_compute. reflexivity. Qed.

Lemma Keccak256Hash_empty : Keccak256Hash [] = EmptyCodeHash.
Proof. vm_compute. reflexivity. Qed.









(** ** The builder and the verifier walk the same path *)

(** One iteration of the verifier on a state whose fields are known. *)
Ltac vstep :=
  unfold verifyProof_step; cbn [v_node v_key v_nextIndex v_used app].







Section Agreement.

Variable hashChildren : bool -> Node -> result bytes.
Variable hasher : bool.

Lemma Prove_loop_nil storage key fromLevel proof :
  Prove_loop hashChildren hasher storage NilNode key fromLevel proof = Ok proof.
Proof. destruct key; reflexivity. Qed.


Lemma Prove_loop_short storage Key Val key fromLevel proof :
  key <> [] ->
  Prove_loop hashChildren hasher storage (ShortNode Key Val) key fromLevel proof
  = let* proof := emit hashChildren hasher (ShortNode Key Val) fromLevel proof in
    if (len key <? len (strip_terminator Key))
       || negb (has_prefix (strip_terminator Key) key)
    then Ok proof
    else Prove_loop hashChildren hasher storage Val
           (skipn (length (strip_terminator Key)) key)
           (level_down fromLevel) proof.
Proof. destruct key; [congruence|reflexivity]. Qed.

Lemma Prove_loop_full storage Children k key fromLevel proof :
  Prove_loop hashChildren hasher storage (FullNode Children) (k :: key)
    fromLevel proof
  = let* proof := emit hashChildren hasher (FullNode Children) fromLevel proof in
    Prove_loop hashChildren hasher storage (child_at Children k) key
      (level_down fromLevel) proof.
Proof.
  cbn [Prove_loop].
  destruct (emit hashChildren hasher (FullNode Children) fromLevel proof)
    as [proof'|e]; [|reflexivity].
  unfold rbind. unfold child_at. generalize (Z.to_nat k) as i.
  induction Children as [|c cs IH]; intros [|i]; cbn [nth];
    try (rewrite Prove_loop_nil); try reflexivity.
  apply IH.
Qed.

Lemma emit_zero n proof e :
  hashChildren hasher n = Ok e ->
  emit hashChildren hasher n 0 proof = Ok (proof ++ [e]).
Proof. intros H. unfold emit. simpl. rewrite H. reflexivity. Qed.







End Agreement.

(** ** From the proof list to the two maps *)

Lemma proofMap_loop_entries proof i res raw :
  NoDup (fmap Keccak256Hash proof) ->
  Forall (fun x => is_ok (decodeNode x)) proof ->
  exists pm used,
    proofMap_loop i proof res raw = Ok (pm, used) /\
    (forall j x, proof !! j = Some x ->
       exists n, decodeNode x = Ok n /\
         pm !! Keccak256Hash x = Some n /\
         used !! Keccak256Hash x
         = Some {| index := i + Z.of_nat j; value := x |}) /\
    (forall h, h ∉ fmap Keccak256Hash proof ->
       pm !! h = res !! h /\ used !! h = raw !! h).
Proof.
  revert i res raw. induction proof as [|p proof IH]; intros i res raw Hnd Hdec.
  - exists res, raw. split; [reflexivity|].
    split; [intros j x Hx; discriminate|auto].
  - cbn [fmap list_fmap] in Hnd. apply NoDup_cons in Hnd as [Hfresh Hnd].
    inversion Hdec as [|? ? [n Hn] Hdec']; subst.
    cbn [proofMap_loop]. rewrite Hn. unfold rbind.
    destruct (IH (i + 1) (<[Keccak256Hash p := n]> res)
                (<[Keccak256Hash p := {| index := i; value := p |}]> raw)
                Hnd Hdec') as (pm & used & Heq & Hent & Hrest).
    exists pm, used. split; [exact Heq|]. split.
    + intros [|j] x Hx.
      * cbn in Hx. injection Hx as <-.
        destruct (Hrest _ Hfresh) as [Hp Hu].
        rewrite lookup_insert_eq in Hp. rewrite lookup_insert_eq in Hu.
        exists n. split; [exact Hn|]. split; [exact Hp|].
        rewrite Hu. f_equal. f_equal. lia.
      * destruct (Hent j x Hx) as (n' & Hn' & Hp & Hu).
        exists n'. split; [exact Hn'|]. split; [exact Hp|].
        rewrite Hu. f_equal. f_equal. lia.
    + intros h Hh. cbn [fmap list_fmap] in Hh. apply not_elem_of_cons in Hh as [Hne Hh].
      destruct (Hrest _ Hh) as [Hp Hu].
      rewrite lookup_insert_ne in Hp by congruence.
      rewrite lookup_insert_ne in Hu by congruence. auto.
Qed.

Lemma proofMap_entries_ok proof :
  NoDup (fmap Keccak256Hash proof) ->
  Forall (fun x => is_ok (decodeNode x)) proof ->
  exists pm used, proofMap proof = Ok (pm, used) /\ entries_ok pm used 0 proof.
Proof.
  intros Hnd Hdec.
  destruct (proofMap_loop_entries proof 0 ∅ ∅ Hnd Hdec)
    as (pm & used & Heq & Hent & Hrest).
  exists pm, used. split; [exact Heq|]. split; [exact Hnd|]. split; [exact Hent|].
  intros h [r Hr]. destruct (decide (h ∈ fmap Keccak256Hash proof)) as [Hin|Hin];
    [exact Hin|].
  destruct (Hrest _ Hin) as [_ Hu]. rewrite lookup_empty in Hu. congruence.
Qed.

Lemma nibbles_range key :
  Forall (fun b => 0 <= b < 256) key -> 16 ∉ nibbles key.
Proof.
  induction 1 as [|b key Hb _ IH]; cbn [nibbles flat_map app].
  - apply not_elem_of_nil.
  - assert (b / 16 < 16) by (apply Z.div_lt_upper_bound; lia).
    apply not_elem_of_cons. split; [lia|].
    apply not_elem_of_cons. split; [|exact IH].
    pose proof (Z.mod_pos_bound b 16). lia.
Qed.



Lemma sample_key_bytes : Forall (fun b => 0 <= b < 256) sample_key.
Proof.
  unfold sample_key. cbv [repeat].
  repeat (constructor; [lia|]). constructor.
Qed.



(** The same run, evaluated: the proof has two entries with distinct
    digests, and its verification returns the value bound to the key. *)
Lemma prove_then_verify_branch_trie :
  exists proof,
    Prove hashChildren_model branch_trie sample_key 0 false = Ok proof /\
    length proof = 2%nat /\
    NoDup (fmap Keccak256Hash proof) /\
    getRaw branch_trie sample_key = Some [0x05] /\
    VerifyProof (rootHash hashChildren_model branch_trie) sample_key proof
    = Ok (Some [0x05]).
Proof.
  eexists. split; [vm_compute; reflexivity|].
  split; [reflexivity|].
  split; [apply (bool_decide_unpack _); vm_compute; exact I|].
  split; [vm_compute; reflexivity|]. vm_compute. reflexivity.
Qed.


(** Two more ways in which the path of a key is not a good path.  A key
    that ends inside the path fragment of a leaf: the verifier returns
    the error "len(shortHex) must be leq len(key)". *)
Lemma prove_then_verify_short_key :
  getRaw sample_trie [0x11] = None /\
  exists proof,
    Prove hashChildren_model sample_trie [0x11] 0 false = Ok proof /\
    VerifyProof (rootHash hashChildren_model sample_trie) [0x11] proof
    = Err (ErrShortHexTooLong 65 3).
Proof.
  split; [vm_compute; reflexivity|].
  eexists. split; [vm_compute; reflexivity|]. vm_compute. reflexivity.
Qed.

(** Nodes of less than 32 bytes: the model of the hasher embeds them in
    their parent, [Prove] emits them all the same, the verifier walks
    through the embedded copies and finds the emitted entries unused. *)
Lemma prove_then_verify_embedded_nodes :
  getRaw small_trie [0x01] = Some [0x61] /\
  exists proof,
    Prove hashChildren_model small_trie [0x01] 0 false = Ok proof /\
    length proof = 2%nat /\
    VerifyProof (rootHash hashChildren_model small_trie) [0x01] proof
    = Err ErrUnusedElements.
Proof.
  split; [vm_compute; reflexivity|].
  eexists. split; [vm_compute; reflexivity|].
  split; [reflexivity|]. vm_compute. reflexivity.
Qed.


(** ** The builder: skipped levels and failures *)

Section BuilderLevels.

Variable hashChildren : bool -> Node -> result bytes.
Variables hasher storage : bool.

Lemma emit_level n fromLevel proof :
  0 < fromLevel -> emit hashChildren hasher n fromLevel proof = Ok proof.
Proof. intros H. unfold emit. replace (fromLevel =? 0) with false by lia. reflexivity. Qed.

Lemma level_down_pos n : 0 < n -> level_down n = n - 1.
Proof. intros H. unfold level_down. replace (n >? 0) with true by lia. reflexivity. Qed.

Lemma skipn_level {A} n (x : A) (l : list A) :
  0 < n -> skipn (Z.to_nat n) (x :: l) = skipn (Z.to_nat (n - 1)) l.
Proof.
  intros H. replace (Z.to_nat n) with (S (Z.to_nat (n - 1))) by lia. reflexivity.
Qed.

Lemma Prove_loop_empty_key tn fromLevel proof :
  Prove_loop hashChildren hasher storage tn [] fromLevel proof = Ok proof.
Proof. destruct tn; reflexivity. Qed.

(** What [Prove_loop] returns from level 0 determines what it returns
    from any level and any list collected so far. *)
Lemma Prove_loop_levels s :
  forall tn key acc p,
    (node_size tn <= s)%nat ->
    Prove_loop hashChildren hasher storage tn key 0 acc = Ok p ->
    exists q, p = acc ++ q /\
      forall n acc', 0 <= n ->
        Prove_loop hashChildren hasher storage tn key n acc'
        = Ok (acc' ++ skipn (Z.to_nat n) q).
Proof.
  induction s as [|s IH]; intros tn key acc p Hs Hp.
  { destruct tn; simpl in Hs; lia. }
  assert (forall acc' n, acc' ++ skipn (Z.to_nat n) (@nil bytes) = acc') as Hnil.
  { intros acc' n. rewrite drop_nil. apply app_nil_r. }
  destruct key as [|k key'].
  { rewrite Prove_loop_empty_key in Hp. injection Hp as <-. exists [].
    rewrite app_nil_r. split; [reflexivity|]. intros n acc' _.
    rewrite Hnil. apply Prove_loop_empty_key. }
  destruct tn as [|cs|Key Val|mask c1 c2|a Stor|h|v].
  - cbn in Hp. injection Hp as <-. exists []. rewrite app_nil_r.
    split; [reflexivity|]. intros n acc' _. rewrite Hnil. reflexivity.
  - (* FullNode *)
    rewrite Prove_loop_full in Hp.
    unfold emit in Hp. cbn [Z.eqb] in Hp.
    destruct (hashChildren hasher (FullNode cs)) as [e|err] eqn:He;
      [|discriminate]. unfold rbind in Hp. cbn [level_down Z.gtb Z.compare] in Hp.
    destruct (child_at_size cs k) as [Hc|Hc].
    + apply IH in Hp; [|cbn [node_size] in Hs; lia].
      destruct Hp as (q & -> & Hq). exists (e :: q).
      split; [rewrite <- app_assoc; reflexivity|].
      intros n acc' Hn. rewrite Prove_loop_full.
      destruct (decide (n = 0)) as [->|Hn0].
      * rewrite (emit_zero _ _ _ _ _ He). unfold rbind. change (level_down 0) with 0.
        rewrite (Hq 0 (acc' ++ [e])) by lia. cbn [Z.to_nat skipn].
        rewrite <- app_assoc. reflexivity.
      * rewrite emit_level by lia. unfold rbind.
        rewrite level_down_pos by lia. rewrite Hq by lia.
        rewrite skipn_level by lia. reflexivity.
    + rewrite Hc, Prove_loop_nil in Hp. injection Hp as <-.
      exists [e]. split; [reflexivity|].
      intros n acc' Hn. rewrite Prove_loop_full, Hc.
      destruct (decide (n = 0)) as [->|Hn0].
      * rewrite (emit_zero _ _ _ _ _ He). unfold rbind. change (level_down 0) with 0.
        rewrite Prove_loop_nil. reflexivity.
      * rewrite emit_level by lia. unfold rbind. rewrite Prove_loop_nil.
        rewrite skipn_level by lia. rewrite drop_nil, app_nil_r. reflexivity.
  - (* ShortNode *)
    rewrite Prove_loop_short in Hp by discriminate.
    unfold emit in Hp. cbn [Z.eqb] in Hp.
    destruct (hashChildren hasher (ShortNode Key Val)) as [e|err] eqn:He;
      [|discriminate]. unfold rbind in Hp. cbn [level_down Z.gtb Z.compare] in Hp.
    destruct (_ || _) eqn:Hcond.
    + injection Hp as <-. exists [e]. split; [reflexivity|].
      intros n acc' Hn. rewrite Prove_loop_short by discriminate. rewrite Hcond.
      destruct (decide (n = 0)) as [->|Hn0].
      * rewrite (emit_zero _ _ _ _ _ He). reflexivity.
      * rewrite emit_level by lia. unfold rbind.
        rewrite skipn_level by lia. rewrite drop_nil, app_nil_r. reflexivity.
    + apply IH in Hp; [|cbn [node_size] in Hs; lia].
      destruct Hp as (q & -> & Hq). exists (e :: q).
      split; [rewrite <- app_assoc; reflexivity|].
      intros n acc' Hn. rewrite Prove_loop_short by discriminate. rewrite Hcond.
      destruct (decide (n = 0)) as [->|Hn0].
      * rewrite (emit_zero _ _ _ _ _ He). unfold rbind. change (level_down 0) with 0.
        rewrite (Hq 0 (acc' ++ [e])) by lia. cbn [Z.to_nat skipn].
        rewrite <- app_assoc. reflexivity.
      * rewrite emit_level by lia. unfold rbind.
        rewrite level_down_pos by lia. rewrite Hq by lia.
        rewrite skipn_level by lia. reflexivity.
  - (* DuoNode *)
    cbn [Prove_loop] in Hp. unfold emit in Hp. cbn [Z.eqb] in Hp.
    destruct (hashChildren hasher (DuoNode mask c1 c2)) as [e|err] eqn:He;
      [|discriminate]. unfold rbind in Hp. cbn [level_down Z.gtb Z.compare] in Hp.
    assert (forall c, (node_size c < node_size (DuoNode mask c1 c2))%nat ->
              forall p, Prove_loop hashChildren hasher storage c key' 0 (acc ++ [e]) = Ok p ->
              exists q, p = acc ++ q /\
                forall n acc', 0 <= n ->
                  (let* proof := emit hashChildren hasher (DuoNode mask c1 c2) n acc' in
                   Prove_loop hashChildren hasher storage c key' (level_down n) proof)
                  = Ok (acc' ++ skipn (Z.to_nat n) q)) as Hchild.
    { intros c Hc p' Hp'. apply IH in Hp'; [|lia].
      destruct Hp' as (q & -> & Hq). exists (e :: q).
      split; [rewrite <- app_assoc; reflexivity|].
      intros n acc' Hn. destruct (decide (n = 0)) as [->|Hn0].
      * rewrite (emit_zero _ _ _ _ _ He). unfold rbind. change (level_down 0) with 0.
        rewrite (Hq 0 (acc' ++ [e])) by lia. cbn [Z.to_nat skipn].
        rewrite <- app_assoc. reflexivity.
      * rewrite emit_level by lia. unfold rbind.
        rewrite level_down_pos by lia. rewrite Hq by lia.
        rewrite skipn_level by lia. reflexivity. }
    destruct (childrenIdx mask) as [i1 i2] eqn:Hidx.
    destruct (k =? i1) eqn:E1; [|destruct (k =? i2) eqn:E2].
    + destruct (Hchild c1 ltac:(cbn [node_size]; lia) p Hp) as (q & -> & Hq).
      exists q. split; [reflexivity|]. intros n acc' Hn.
      cbn [Prove_loop]. rewrite Hidx, E1. specialize (Hq n acc' Hn).
      destruct (emit hashChildren hasher (DuoNode mask c1 c2) n acc');
        exact Hq.
    + destruct (Hchild c2 ltac:(cbn [node_size]; lia) p Hp) as (q & -> & Hq).
      exists q. split; [reflexivity|]. intros n acc' Hn.
      cbn [Prove_loop]. rewrite Hidx, E1, E2. specialize (Hq n acc' Hn).
      destruct (emit hashChildren hasher (DuoNode mask c1 c2) n acc');
        exact Hq.
    + injection Hp as <-. exists [e]. split; [reflexivity|].
      intros n acc' Hn. cbn [Prove_loop]. rewrite Hidx, E1, E2.
      destruct (decide (n = 0)) as [->|Hn0].
      * rewrite (emit_zero _ _ _ _ _ He). reflexivity.
      * rewrite emit_level by lia. unfold rbind.
        rewrite skipn_level by lia. rewrite drop_nil, app_nil_r. reflexivity.
  - (* AccountNode *)
    cbn [Prove_loop] in Hp. destruct storage eqn:Hst.
    + apply IH in Hp; [|cbn [node_size] in Hs; lia].
      destruct Hp as (q & -> & Hq). exists q. split; [reflexivity|].
      intros n acc' Hn. cbn [Prove_loop]. apply Hq. exact Hn.
    + injection Hp as <-. exists []. rewrite app_nil_r. split; [reflexivity|].
      intros n acc' _. rewrite Hnil. reflexivity.
  - discriminate.
  - cbn in Hp. injection Hp as <-. exists []. rewrite app_nil_r.
    split; [reflexivity|]. intros n acc' _. rewrite Hnil. reflexivity.
Qed.

(** [Prove_loop] fails only where the source returns an error: on a hash
    node of the path, or with the error of the hasher on a node of the
    path that it serializes. *)
Lemma Prove_loop_errors s :
  forall tn key fromLevel acc err,
    (node_size tn <= s)%nat ->
    Prove_loop hashChildren hasher storage tn key fromLevel acc = Err err ->
    exists nd k l,
      Prove_path storage (tn, key, fromLevel) (nd, k, l) /\ k <> [] /\
      ((exists h, nd = HashNode h /\ err = ErrHashNodeUnexpected k l) \/
       (is_inner nd /\ l = 0 /\ hashChildren hasher nd = Err err)).
Proof.
  induction s as [|s IH]; intros tn key fromLevel acc err Hs Hp.
  { destruct tn; simpl in Hs; lia. }
  destruct key as [|k key'].
  { rewrite Prove_loop_empty_key in Hp. discriminate. }
  assert (forall nd e', is_inner nd ->
            emit hashChildren hasher nd fromLevel acc = Err e' ->
            fromLevel = 0 /\ hashChildren hasher nd = Err e') as Hemit.
  { intros nd e' Hin He. unfold emit in He.
    destruct (fromLevel =? 0) eqn:E0; [|discriminate]. split; [lia|].
    destruct (hashChildren hasher nd) as [?|e0]; [discriminate|].
    unfold rbind in He. injection He as ->. reflexivity. }
  assert (forall s2,
            Prove_next storage (tn, k :: key', fromLevel) s2 ->
            (exists nd k0 l,
               Prove_path storage s2 (nd, k0, l) /\ k0 <> [] /\
               ((exists h, nd = HashNode h /\ err = ErrHashNodeUnexpected k0 l) \/
                (is_inner nd /\ l = 0 /\ hashChildren hasher nd = Err err))) ->
            exists nd k0 l,
              Prove_path storage (tn, k :: key', fromLevel) (nd, k0, l) /\ k0 <> [] /\
              ((exists h, nd = HashNode h /\ err = ErrHashNodeUnexpected k0 l) \/
               (is_inner nd /\ l = 0 /\ hashChildren hasher nd = Err err))) as Hnext.
  { intros s2 Hstep (nd & k0 & l & Hpath & Hk & Hor).
    exists nd, k0, l. split; [eapply path_next; eassumption|]. auto. }
  assert (forall nd, nd = tn -> is_inner nd ->
            fromLevel = 0 /\ hashChildren hasher nd = Err err ->
            exists nd k0 l,
              Prove_path storage (tn, k :: key', fromLevel) (nd, k0, l) /\ k0 <> [] /\
              ((exists h, nd = HashNode h /\ err = ErrHashNodeUnexpected k0 l) \/
               (is_inner nd /\ l = 0 /\ hashChildren hasher nd = Err err))) as Hhere.
  { intros nd -> Hin [H0 He]. exists tn, (k :: key'), fromLevel.
    split; [apply path_here|]. split; [discriminate|]. right. auto. }
  destruct tn as [|cs|Key Val|mask c1 c2|a Stor|h|v].
  - discriminate.
  - rewrite Prove_loop_full in Hp.
    destruct (emit hashChildren hasher (FullNode cs) fromLevel acc) as [acc'|e'] eqn:He.
    + unfold rbind in Hp.
      destruct (child_at_size cs k) as [Hc|Hc].
      * apply IH in Hp; [|cbn [node_size] in Hs; lia].
        eapply Hnext; [apply next_full|exact Hp].
      * rewrite Hc, Prove_loop_nil in Hp. discriminate.
    + injection Hp as ->. eapply Hhere; [reflexivity|exact I|].
      apply (Hemit (FullNode cs) _ I He).
  - rewrite Prove_loop_short in Hp by discriminate.
    destruct (emit hashChildren hasher (ShortNode Key Val) fromLevel acc)
      as [acc'|e'] eqn:He.
    + unfold rbind in Hp. destruct (_ || _) eqn:Epre; [discriminate|].
      apply IH in Hp; [|cbn [node_size] in Hs; lia].
      eapply Hnext; [apply next_short; [discriminate|exact Epre]|exact Hp].
    + injection Hp as ->. eapply Hhere; [reflexivity|exact I|].
      apply (Hemit (ShortNode Key Val) _ I He).
  - cbn [Prove_loop] in Hp.
    destruct (emit hashChildren hasher (DuoNode mask c1 c2) fromLevel acc)
      as [acc'|e'] eqn:He.
    + unfold rbind in Hp. destruct (childrenIdx mask) as [i1 i2] eqn:Eidx.
      destruct (k =? i1) eqn:E1; [|destruct (k =? i2) eqn:E2; [|discriminate]];
        (apply IH in Hp; [|cbn [node_size] in Hs; lia]).
      * eapply Hnext; [|exact Hp]. apply next_duo_first. rewrite Eidx. cbn. lia.
      * eapply Hnext; [|exact Hp].
        apply next_duo_second; rewrite Eidx; cbn; lia.
    + injection Hp as ->. eapply Hhere; [reflexivity|exact I|].
      apply (Hemit (DuoNode mask c1 c2) _ I He).
  - cbn [Prove_loop] in Hp. destruct storage eqn:Est; [|discriminate].
    apply IH in Hp; [|cbn [node_size] in Hs; lia].
    eapply Hnext; [apply next_account; [discriminate|reflexivity]|exact Hp].
  - cbn [Prove_loop] in Hp. injection Hp as <-.
    exists (HashNode h), (k :: key'), fromLevel.
    split; [apply path_here|]. split; [discriminate|]. left. eauto.
  - discriminate.
Qed.

End BuilderLevels.

Lemma nibbles_cons b key : nibbles (b :: key) = b / 16 :: b mod 16 :: nibbles key.
Proof. reflexivity. Qed.

Lemma Prove_unfold hashChildren t key fromLevel storage :
  Prove hashChildren t key fromLevel storage
  = Prove_loop hashChildren (valueNodesRLPEncoded t) storage (RootNode t)
      (nibbles key) fromLevel [].
Proof. unfold Prove, keybytesToHex. rewrite removelast_last. reflexivity. Qed.

(** X1: The levels skipped by [fromLevel] are the first entries of the full
    proof: when [Prove] with [fromLevel = 0] returns a proof, [Prove] with
    a level [n >= 0] returns that proof without its first [n] entries. *)
Theorem Prove_skips_levels hashChildren t key n storage p :
  0 <= n ->
  Prove hashChildren t key 0 storage = Ok p ->
  Prove hashChildren t key n storage = Ok (skipn (Z.to_nat n) p).
Proof.
  intros Hn. rewrite !Prove_unfold. intros Hp.
  destruct (Prove_loop_levels hashChildren (valueNodesRLPEncoded t) storage
              _ _ _ _ _ (Nat.le_refl _) Hp) as (q & -> & Hq).
  rewrite Hq by exact Hn. reflexivity.
Qed.

Lemma Prove_skips_levels_witness :
  Prove hashChildren_model branch_trie sample_key 0 false
  = Ok [node_rlp (RootNode branch_trie); node_rlp (branch_leaf 0x05)] /\
  Prove hashChildren_model branch_trie sample_key 1 false
  = Ok [node_rlp (branch_leaf 0x05)].
Proof.
  assert (Prove hashChildren_model branch_trie sample_key 0 false
          = Ok [node_rlp (RootNode branch_trie); node_rlp (branch_leaf 0x05)])
    as HP by (vm_compute; reflexivity).
  split; [exact HP|].
  exact (Prove_skips_levels hashChildren_model branch_trie sample_key 1 false
           _ ltac:(lia) HP).
Defined.

(** X2: [Prove] fails in two ways only.  When it returns an error, its
    loop has come, from the root, the expanded key without its
    terminator and the given level, to a node with a rest [k] of the key
    that is not empty and a level [l], and either that node is a hash
    node and the error is "encountered hashNode unexpectedly" with [k]
    and [l], or that node is a short node, a two-way branch or a branch,
    the level is 0 and the error is the one that the hasher returns on
    that node. *)
Theorem Prove_error_sources hashChildren t key fromLevel storage err :
  Prove hashChildren t key fromLevel storage = Err err ->
  exists nd k l,
    Prove_path storage
      (RootNode t, removelast (keybytesToHex key), fromLevel) (nd, k, l) /\
    k <> [] /\
    ((exists h, nd = HashNode h /\ err = ErrHashNodeUnexpected k l) \/
     (is_inner nd /\ l = 0 /\
      hashChildren (valueNodesRLPEncoded t) nd = Err err)).
Proof.
  rewrite Prove_unfold. intros Hp.
  unfold keybytesToHex. rewrite removelast_last.
  eapply Prove_loop_errors; [apply Nat.le_refl|exact Hp].
Qed.

(** X3: On a non-empty key, a proof built from level 0 on a trie whose root
    is a short node, a branch or a two-way branch starts with the
    serialization of the root. *)
Theorem Prove_starts_with_root hashChildren t key storage p :
  key <> [] ->
  is_inner (RootNode t) ->
  Prove hashChildren t key 0 storage = Ok p ->
  exists e rest,
    hashChildren (valueNodesRLPEncoded t) (RootNode t) = Ok e /\ p = e :: rest.
Proof.
  intros Hkey Hin. rewrite Prove_unfold.
  destruct key as [|b key]; [congruence|]. rewrite nibbles_cons.
  set (hex := b mod 16 :: nibbles key).
  destruct (RootNode t) as [|cs|Key Val|mask c1 c2|a Stor|h|v] eqn:ER;
    try destruct Hin.
  - rewrite Prove_loop_full. unfold emit. cbn [Z.eqb].
    destruct (hashChildren _ (FullNode cs)) as [e|err]; [|discriminate].
    unfold rbind. intros Hp. exists e.
    destruct (child_at_size cs (b / 16)) as [Hc|Hc].
    + apply (Prove_loop_levels _ _ _ _ _ _ _ _ (Nat.le_refl _)) in Hp
        as (q & -> & _). eauto.
    + rewrite Hc, Prove_loop_nil in Hp. injection Hp as <-. eauto.
  - rewrite Prove_loop_short by discriminate. unfold emit. cbn [Z.eqb].
    destruct (hashChildren _ (ShortNode Key Val)) as [e|err]; [|discriminate].
    unfold rbind. destruct (_ || _).
    + intros [= <-]. eauto.
    + intros Hp.
      apply (Prove_loop_levels _ _ _ _ _ _ _ _ (Nat.le_refl _)) in Hp
        as (q & -> & _). eauto.
  - cbn [Prove_loop]. unfold emit. cbn [Z.eqb].
    destruct (hashChildren _ (DuoNode mask c1 c2)) as [e|err]; [|discriminate].
    unfold rbind. destruct (childrenIdx mask) as [i1 i2].
    destruct (_ =? i1); [|destruct (_ =? i2)]; intros Hp;
      try (injection Hp as <-; eauto; fail);
      apply (Prove_loop_levels _ _ _ _ _ _ _ _ (Nat.le_refl _)) in Hp
        as (q & -> & _); eauto.
Qed.

Lemma Prove_starts_with_root_witness :
  exists e rest,
    hashChildren_model (valueNodesRLPEncoded branch_trie) (RootNode branch_trie)
    = Ok e /\
    [node_rlp (RootNode branch_trie); node_rlp (branch_leaf 0x05)] = e :: rest.
Proof.
  assert (Prove hashChildren_model branch_trie sample_key 0 false
          = Ok [node_rlp (RootNode branch_trie); node_rlp (branch_leaf 0x05)])
    as HP by (vm_compute; reflexivity).
  exact (Prove_starts_with_root hashChildren_model branch_trie sample_key false
           _ ltac:(discriminate) I HP).
Defined.

Lemma Prove_error_sources_witness :
  Prove hashChildren_model hash_branch_trie sample_key 0 false
  = Err (ErrHashNodeUnexpected (repeat 1 63%nat) 0) /\
  exists nd k l,
    Prove_path false
      (RootNode hash_branch_trie, removelast (keybytesToHex sample_key), 0)
      (nd, k, l) /\
    k <> [] /\
    ((exists h, nd = HashNode h /\
                ErrHashNodeUnexpected (repeat 1 63%nat) 0
                = ErrHashNodeUnexpected k l) \/
     (is_inner nd /\ l = 0 /\
      hashChildren_model (valueNodesRLPEncoded hash_branch_trie) nd
      = Err (ErrHashNodeUnexpected (repeat 1 63%nat) 0))).
Proof.
  assert (Prove hashChildren_model hash_branch_trie sample_key 0 false
          = Err (ErrHashNodeUnexpected (repeat 1 63%nat) 0)) as HP
    by (vm_compute; reflexivity).
  split; [exact HP|].
  exact (Prove_error_sources hashChildren_model hash_branch_trie sample_key 0 false
           _ HP).
Defined.

(** ** The builder: the storage flag *)

Section BuilderStorage.

Variable hashChildren : bool -> Node -> result bytes.
Variable hasher : bool.

Lemma emit_extends n fromLevel acc acc' :
  emit hashChildren hasher n fromLevel acc = Ok acc' -> exists q, acc' = acc ++ q.
Proof.
  unfold emit. destruct (fromLevel =? 0).
  - destruct (hashChildren hasher n) as [e|err]; [|discriminate].
    unfold rbind. intros [= <-]. eauto.
  - intros [= <-]. exists []. rewrite app_nil_r. reflexivity.
Qed.

(** [Prove_loop] only appends to the list collected so far. *)
Lemma Prove_loop_extends s :
  forall storage tn key fromLevel acc p,
    (node_size tn <= s)%nat ->
    Prove_loop hashChildren hasher storage tn key fromLevel acc = Ok p ->
    exists q, p = acc ++ q.
Proof.
  induction s as [|s IH]; intros storage tn key fromLevel acc p Hs Hp.
  { destruct tn; simpl in Hs; lia. }
  assert (exists q : list bytes, acc = acc ++ q) as Hnil
    by (exists []; rewrite app_nil_r; reflexivity).
  destruct key as [|k key'].
  { rewrite Prove_loop_empty_key in Hp. injection Hp as <-. exact Hnil. }
  assert (forall nd acc' c key'' lvl,
            (node_size c <= s)%nat ->
            emit hashChildren hasher nd fromLevel acc = Ok acc' ->
            Prove_loop hashChildren hasher storage c key'' lvl acc' = Ok p ->
            exists q, p = acc ++ q) as Hstep.
  { intros nd acc' c key'' lvl Hc He Hr.
    apply emit_extends in He as [q1 ->].
    apply IH in Hr as [q2 ->]; [|exact Hc].
    exists (q1 ++ q2). rewrite app_assoc. reflexivity. }
  destruct tn as [|cs|Key Val|mask c1 c2|a Stor|h|v].
  - injection Hp as <-. exact Hnil.
  - rewrite Prove_loop_full in Hp.
    destruct (emit hashChildren hasher (FullNode cs) fromLevel acc) as [acc'|e'] eqn:He;
      [|discriminate]. unfold rbind in Hp.
    destruct (child_at_size cs k) as [Hc|Hc].
    + eapply Hstep; [|exact He|exact Hp]. cbn [node_size] in Hs. lia.
    + rewrite Hc, Prove_loop_nil in Hp. injection Hp as <-.
      eapply emit_extends. exact He.
  - rewrite Prove_loop_short in Hp by discriminate.
    destruct (emit hashChildren hasher (ShortNode Key Val) fromLevel acc)
      as [acc'|e'] eqn:He; [|discriminate]. unfold rbind in Hp.
    destruct (_ || _).
    + injection Hp as <-. eapply emit_extends. exact He.
    + eapply Hstep; [|exact He|exact Hp]. cbn [node_size] in Hs. lia.
  - cbn [Prove_loop] in Hp.
    destruct (emit hashChildren hasher (DuoNode mask c1 c2) fromLevel acc)
      as [acc'|e'] eqn:He; [|discriminate]. unfold rbind in Hp.
    destruct (childrenIdx mask) as [i1 i2].
    destruct (k =? i1); [|destruct (k =? i2)].
    + eapply Hstep; [|exact He|exact Hp]. cbn [node_size] in Hs. lia.
    + eapply Hstep; [|exact He|exact Hp]. cbn [node_size] in Hs. lia.
    + injection Hp as <-. eapply emit_extends. exact He.
  - cbn [Prove_loop] in Hp. destruct storage.
    + eapply IH; [|exact Hp]. cbn [node_size] in Hs. lia.
    + injection Hp as <-. exact Hnil.
  - discriminate.
  - injection Hp as <-. exact Hnil.
Qed.

(** With the storage flag the loop goes where it goes without the flag,
    and further: below an account node. *)
Lemma Prove_loop_storage s :
  forall tn key fromLevel acc p,
    (node_size tn <= s)%nat ->
    Prove_loop hashChildren hasher true tn key fromLevel acc = Ok p ->
    exists p0 q,
      Prove_loop hashChildren hasher false tn key fromLevel acc = Ok p0 /\
      p = p0 ++ q.
Proof.
  induction s as [|s IH]; intros tn key fromLevel acc p Hs Hp.
  { destruct tn; simpl in Hs; lia. }
  assert (forall l : list bytes, exists p0 q, Ok l = Ok p0 /\ l = p0 ++ q :> list bytes)
    as Hsame.
  { intros l. exists l, []. rewrite app_nil_r. auto. }
  destruct key as [|k key'].
  { rewrite Prove_loop_empty_key in Hp |- *. injection Hp as <-. apply Hsame. }
  destruct tn as [|cs|Key Val|mask c1 c2|a Stor|h|v].
  - injection Hp as <-. apply Hsame.
  - rewrite Prove_loop_full in Hp |- *.
    destruct (emit hashChildren hasher (FullNode cs) fromLevel acc) as [acc'|e'];
      [|discriminate]. unfold rbind in Hp |- *.
    destruct (child_at_size cs k) as [Hc|Hc].
    + eapply IH; [|exact Hp]. cbn [node_size] in Hs. lia.
    + rewrite Hc, Prove_loop_nil in Hp |- *. injection Hp as <-. apply Hsame.
  - rewrite Prove_loop_short in Hp |- * by discriminate.
    destruct (emit hashChildren hasher (ShortNode Key Val) fromLevel acc)
      as [acc'|e']; [|discriminate]. unfold rbind in Hp |- *.
    destruct (_ || _).
    + injection Hp as <-. apply Hsame.
    + eapply IH; [|exact Hp]. cbn [node_size] in Hs. lia.
  - cbn [Prove_loop] in Hp |- *.
    destruct (emit hashChildren hasher (DuoNode mask c1 c2) fromLevel acc)
      as [acc'|e']; [|discriminate]. unfold rbind in Hp |- *.
    destruct (childrenIdx mask) as [i1 i2].
    destruct (k =? i1); [|destruct (k =? i2)].
    + eapply IH; [|exact Hp]. cbn [node_size] in Hs. lia.
    + eapply IH; [|exact Hp]. cbn [node_size] in Hs. lia.
    + injection Hp as <-. apply Hsame.
  - cbn [Prove_loop] in Hp |- *.
    apply Prove_loop_extends with (s := s) in Hp as [q ->];
      [|cbn [node_size] in Hs; lia].
    exists acc, q. auto.
  - discriminate.
  - injection Hp as <-. apply Hsame.
Qed.

End BuilderStorage.

(** X4: The proof that [Prove] builds with the storage flag starts with the
    proof that it builds without the flag, for the same key and the same
    number of skipped levels: the flag only lets the builder go on
    below an account node, into the storage of the account. *)
Theorem Prove_storage_extends hashChildren t key fromLevel p :
  Prove hashChildren t key fromLevel true = Ok p ->
  exists p0 q,
    Prove hashChildren t key fromLevel false = Ok p0 /\ p = p0 ++ q.
Proof.
  unfold Prove. intros Hp.
  eapply Prove_loop_storage; [apply Nat.le_refl|exact Hp].
Qed.

Lemma Prove_storage_extends_witness :
  exists p p0 q,
    Prove hashChildren_model account_trie [0x11; 0x22] 0 true = Ok p /\
    Prove hashChildren_model account_trie [0x11; 0x22] 0 false = Ok p0 /\
    p = p0 ++ q /\ length p = 2%nat /\ length p0 = 1%nat.
Proof.
  destruct (Prove hashChildren_model account_trie [0x11; 0x22] 0 true)
    as [p|e] eqn:Hp; [|vm_compute in Hp; discriminate Hp].
  destruct (Prove_storage_extends hashChildren_model account_trie [0x11; 0x22] 0 p Hp)
    as (p0 & q & Hp0 & Hq).
  exists p, p0, q. split; [reflexivity|]. split; [exact Hp0|]. split; [exact Hq|].
  vm_compute in Hp. injection Hp as <-.
  vm_compute in Hp0. injection Hp0 as <-. split; reflexivity.
Defined.

(** ** The decoder: shape of the result, bytes after the node *)

Lemma last_nibbles l x : last (nibbles l) = Some x -> 0 <= x < 16.
Proof.
  induction l as [|b l IH]; [discriminate|].
  change (nibbles (b :: l)) with (b / 16 :: b mod 16 :: nibbles l).
  rewrite last_cons_cons.
  destruct (nibbles l) as [|y ns] eqn:E.
  - intros [= <-]. apply Z.mod_pos_bound. lia.
  - rewrite last_cons_cons. exact IH.
Qed.

Lemma ToHex_no_terminator kbuf :
  Terminating (CompactToKeybytes kbuf) = false ->
  last (ToHex (CompactToKeybytes kbuf)) <> Some 16.
Proof.
  intros Ht. unfold ToHex. rewrite Ht, app_nil_r.
  destruct kbuf as [|c0 tl]; cbn [CompactToKeybytes Nibbles]; [discriminate|].
  destruct (Z.testbit c0 4).
  - destruct (nibbles tl) as [|y ns] eqn:E.
    + intros [= H]. pose proof (Z.mod_pos_bound c0 16). lia.
    + rewrite last_cons_cons, <- E. intros H. apply last_nibbles in H. lia.
  - intros H. apply last_nibbles in H. lia.
Qed.

Section DecoderShape.

Variable f : bytes -> result Node.
Hypothesis f_shape : forall b n, f b = Ok n -> decoded_node n.

Lemma decodeRef_with_shape buf n rest :
  decodeRef_with f buf = Ok (n, rest) -> decoded_ref n.
Proof.
  unfold decodeRef_with.
  destruct (rlp.Split buf) as [[[k val] r]|e]; [|discriminate]. unfold rbind at 1.
  destruct (bool_decide (k = rlp.List)).
  - destruct (_ >=? _); [discriminate|].
    destruct (f buf) as [m|e] eqn:E; [|discriminate]. unfold rbind.
    intros [= <- <-]. apply dref_embedded. eapply f_shape. exact E.
  - destruct (bool_decide (k = rlp.String)); cbn [andb].
    + destruct (len val =? 0) eqn:E0; [intros [= <- <-]; constructor|].
      destruct (len val =? 32) eqn:E32; [|discriminate].
      intros [= <- <-]. apply dref_hash. unfold len in E32. lia.
    + discriminate.
Qed.

Lemma decodeFull_children_shape k elems cs rest :
  decodeFull_children f k elems = Ok (cs, rest) ->
  length cs = k /\ Forall decoded_ref cs.
Proof.
  revert elems cs rest. induction k as [|k IH]; intros elems cs rest.
  - intros [= <- <-]. split; [reflexivity|constructor].
  - cbn [decodeFull_children].
    destruct (decodeRef_with f elems) as [[c r]|e] eqn:E; [|discriminate].
    unfold rbind at 1.
    destruct (decodeFull_children f k r) as [[cs' r']|e] eqn:E'; [|discriminate].
    unfold rbind. intros [= <- <-].
    apply IH in E' as [Hl HF]. apply decodeRef_with_shape in E.
    split; [cbn [length]; lia|constructor; assumption].
Qed.

Lemma decodeNode_with_shape encoded n :
  decodeNode_with f encoded = Ok n -> decoded_node n.
Proof.
  unfold decodeNode_with. destruct (len encoded =? 0); [discriminate|].
  destruct (rlp.SplitList encoded) as [[elems r]|e]; [|discriminate].
  unfold rbind at 1.
  destruct (_ =? 2).
  - unfold decodeShort_with.
    destruct (rlp.SplitString elems) as [[kbuf rest]|e]; [|discriminate].
    unfold rbind at 1.
    destruct (Terminating (CompactToKeybytes kbuf)) eqn:ET.
    + destruct (rlp.SplitString rest) as [[val r']|e]; [|discriminate].
      unfold rbind. intros [= <-]. apply dnode_leaf.
      unfold ToHex. rewrite ET. apply last_snoc.
    + destruct (decodeRef_with f rest) as [[val r']|e] eqn:E; [|discriminate].
      unfold rbind. intros [= <-]. apply dnode_ext.
      * apply ToHex_no_terminator. exact ET.
      * eapply decodeRef_with_shape. exact E.
  - destruct (_ =? 17); [|discriminate].
    unfold decodeFull_with.
    destruct (decodeFull_children f 16 elems) as [[cs r']|e] eqn:E; [|discriminate].
    unfold rbind at 1.
    destruct (rlp.SplitString r') as [[val r'']|e]; [|discriminate].
    unfold rbind. intros [= <-].
    apply decodeFull_children_shape in E as [Hl HF].
    apply dnode_full; [exact Hl|exact HF|].
    destruct (len val >? 0) eqn:Ev; [right|left; reflexivity].
    exists val. split; [|reflexivity]. intros ->. discriminate.
Qed.

End DecoderShape.

Lemma decodeNode_bounded_shape k encoded n :
  decodeNode_bounded k encoded = Ok n -> decoded_node n.
Proof.
  revert encoded n. induction k as [|k IH]; intros encoded n; [discriminate|].
  cbn [decodeNode_bounded]. apply decodeNode_with_shape. exact IH.
Qed.

(** X5: Every node that [decodeNode] returns is a [decoded_node]: a
    short node (whose key ends with the terminator exactly when it holds
    a value, and which holds a child reference otherwise) or a full node
    of 17 slots; its child references are nil, hash references of
    exactly 32 bytes or embedded nodes of the same shape, and the value
    slot of a full node is nil or a non-empty value.  No two-way branch,
    account node or bare value is ever returned. *)
Theorem decodeNode_shape encoded n :
  decodeNode encoded = Ok n ->
  decoded_node n /\
  (forall Key Val, n = ShortNode Key Val ->
     (last Key = Some 16 <-> exists v, Val = ValueNode v)).
Proof.
  intros H. apply decodeNode_bounded_shape in H. split; [exact H|].
  intros Key Val ->.
  inversion H as [Key' v Hlast|Key' r Hlast Hr|]; subst.
  - split; [intros _; exists v; reflexivity|intros _; exact Hlast].
  - split; [intros E; contradiction|].
    intros [v ->]. inversion Hr as [| |n' Hn]; subst. inversion Hn.
Qed.

Lemma decodeNode_shape_witness :
  decodeNode sample_leaf
  = Ok (ShortNode (nibbles sample_key ++ [16]) (ValueNode [0x05])) /\
  decoded_node (ShortNode (nibbles sample_key ++ [16]) (ValueNode [0x05])).
Proof.
  assert (decodeNode sample_leaf
          = Ok (ShortNode (nibbles sample_key ++ [16]) (ValueNode [0x05]))) as H
    by (vm_compute; reflexivity).
  split; [exact H|]. exact (proj1 (decodeNode_shape sample_leaf _ H)).
Defined.

Lemma readSize_app b junk slen s :
  1 <= slen ->
  rlp.readSize b slen = Ok s -> rlp.readSize (b ++ junk) slen = Ok s.
Proof.
  intros Hs. unfold rlp.readSize.
  destruct (slen >? len b) eqn:E; [discriminate|].
  assert ((slen >? len (b ++ junk)) = false) as ->.
  { unfold len in *. rewrite length_app. lia. }
  rewrite take_app_le by (unfold len in E; lia).
  rewrite app_nth1 by (unfold len in E; lia).
  auto.
Qed.

Lemma readKind_app buf junk k ts cs :
  rlp.readKind buf = Ok (k, ts, cs) ->
  rlp.readKind (buf ++ junk) = Ok (k, ts, cs).
Proof.
  intros H. pose proof (readKind_bounds _ _ _ _ H) as (Hts & Hcs & Hlen & _).
  revert H. unfold rlp.readKind. destruct buf as [|b tl]; [discriminate|].
  cbn [app].
  assert (len (b :: tl ++ junk) = len (b :: tl) + len junk) as HL.
  { unfold len. cbn [length]. rewrite length_app. lia. }
  assert (0 <= len junk) as Hj by (unfold len; lia).
  assert (forall k' ts' cs' (R : result (rlp.Kind * Z * Z)),
            (if cs' >? len (b :: tl) - ts' then Err ErrValueTooLarge
             else Ok (k', ts', cs')) = R -> R = Ok (k, ts, cs) ->
            (if cs' >? len (b :: tl ++ junk) - ts' then Err ErrValueTooLarge
             else Ok (k', ts', cs')) = Ok (k, ts, cs)) as Hc.
  { intros k' ts' cs' R <-. destruct (cs' >? len (b :: tl) - ts') eqn:E;
      [discriminate|]. intros [= <- <- <-].
    replace (cs' >? len (b :: tl ++ junk) - ts') with false by lia.
    reflexivity. }
  destruct (b <? 128); [intros H; eapply Hc; [reflexivity|exact H]|].
  destruct (b <? 184) eqn:E2.
  { destruct ((b - 128 =? 1) && (len (b :: tl) >? 1) && (nth 1 (b :: tl) 0 <? 128))
      eqn:EC; [discriminate|].
    unfold rbind. intros H.
    assert (((b - 128 =? 1) && (len (b :: tl ++ junk) >? 1)
             && (nth 1 (b :: tl ++ junk) 0 <? 128)) = false) as ->.
    { destruct (b - 128 =? 1) eqn:E1; [|reflexivity].
      destruct (b - 128 >? len (b :: tl) - 1) eqn:EV; [discriminate|].
      destruct tl as [|x tl]; [unfold len in EV; cbn [length] in EV; lia|].
      cbn [nth app] in *. unfold len in EC, HL |- *. cbn [length] in *.
      rewrite length_app.
      replace (Z.of_nat (S (S (length tl))) >? 1) with true in EC by lia.
      replace (Z.of_nat (S (S (length tl + length junk))) >? 1) with true by lia.
      exact EC. }
    eapply Hc; [reflexivity|exact H]. }
  destruct (b <? 192) eqn:E3.
  { destruct (rlp.readSize tl (b - 183)) as [s|e] eqn:ES; [|discriminate].
    rewrite (readSize_app tl junk (b - 183) s ltac:(lia) ES). unfold rbind.
    intros H. eapply Hc; [reflexivity|exact H]. }
  destruct (b <? 248) eqn:E4; [intros H; eapply Hc; [reflexivity|exact H]|].
  destruct (rlp.readSize tl (b - 247)) as [s|e] eqn:ES; [|discriminate].
  rewrite (readSize_app tl junk (b - 247) s ltac:(lia) ES). unfold rbind.
  intros H. eapply Hc; [reflexivity|exact H].
Qed.

Lemma Split_app buf junk k content rest :
  rlp.Split buf = Ok (k, content, rest) ->
  rlp.Split (buf ++ junk) = Ok (k, content, rest ++ junk).
Proof.
  intros (ts & cs & HK & -> & ->)%Split_inv.
  pose proof (readKind_bounds _ _ _ _ HK) as (Hts & Hcs & Hlen & _).
  unfold len in Hlen.
  unfold rlp.Split. rewrite (readKind_app _ junk _ _ _ HK). unfold rbind.
  rewrite !drop_app_le by lia.
  rewrite take_app_le by (rewrite length_drop; lia). reflexivity.
Qed.

(** X6: [decodeNode] reads the first list of its input and nothing after it:
    bytes appended to an encoding whose outer list splits do not change
    the result, neither the node nor the error. *)
Theorem decodeNode_ignores_trailing buf junk elems r :
  rlp.SplitList buf = Ok (elems, r) ->
  decodeNode (buf ++ junk) = decodeNode buf.
Proof.
  intros HL. rewrite (decodeNode_unfold (buf ++ junk)), (decodeNode_unfold buf).
  unfold decodeNode_with.
  assert (buf <> []) as Hne by (intros ->; discriminate).
  replace (len (buf ++ junk) =? 0) with false
    by (destruct buf; [congruence|unfold len; cbn [app length]; lia]).
  replace (len buf =? 0) with false
    by (destruct buf; [congruence|unfold len; cbn [length]; lia]).
  rewrite HL.
  assert (rlp.SplitList (buf ++ junk) = Ok (elems, r ++ junk)) as ->.
  { revert HL. unfold rlp.SplitList.
    destruct (rlp.Split buf) as [[[k c] r0]|e] eqn:E; [|discriminate].
    rewrite (Split_app _ junk _ _ _ E). unfold rbind.
    destruct (bool_decide (k = rlp.List)); [|discriminate].
    intros [= <- <-]. reflexivity. }
  reflexivity.
Qed.

Lemma decodeNode_ignores_trailing_witness :
  rlp.SplitList sample_leaf = Ok (tail sample_leaf, []) /\
  decodeNode (sample_leaf ++ [0xff; 0xff]) = decodeNode sample_leaf.
Proof.
  assert (rlp.SplitList sample_leaf
          = Ok (tail sample_leaf, [])) as H
    by (vm_compute; reflexivity).
  split; [exact H|].
  exact (decodeNode_ignores_trailing sample_leaf [0xff; 0xff] _ _ H).
Defined.

(** ** The two maps of a proof list *)

Lemma proofMap_app proof extra :
  proofMap (proof ++ [extra])
  = let* (pm, used) := proofMap proof in
    let* n := decodeNode extra in
    Ok (<[Keccak256Hash extra := n]> pm,
        <[Keccak256Hash extra := {| index := Z.of_nat (length proof);
                                    value := extra |}]> used).
Proof. unfold proofMap. rewrite proofMap_loop_app. reflexivity. Qed.

Lemma proofMap_maps_of proof :
  forall pm used, proofMap proof = Ok (pm, used) -> maps_of proof pm used.
Proof.
  induction proof as [|e l IH] using rev_ind; intros pm used.
  - intros [= <- <-]. split.
    + intros j x Hx. discriminate.
    + intros h [[? H]|[? H]]; rewrite lookup_empty in H; discriminate.
  - rewrite proofMap_app.
    destruct (proofMap l) as [[pm0 used0]|err]; [|discriminate].
    unfold rbind at 1.
    destruct (decodeNode e) as [n|err] eqn:En; [|discriminate].
    unfold rbind. intros [= <- <-].
    destruct (IH pm0 used0 eq_refl) as [IH1 IH2]. split.
    + intros j x Hx.
      destruct (decide (Keccak256Hash e = Keccak256Hash x)) as [Heq|Hne].
      * exists n, {| index := Z.of_nat (length l); value := e |}.
        rewrite <- Heq, !lookup_insert_eq. cbn [index value].
        rewrite Nat2Z.id.
        apply lookup_lt_Some in Hx as Hj. rewrite length_app in Hj.
        cbn [length] in Hj.
        repeat split; try reflexivity; try assumption; try lia.
        rewrite list_lookup_middle by reflexivity. reflexivity.
      * assert (l !! j = Some x) as Hx'.
        { apply lookup_app_Some in Hx as [Hx|[_ Hx]]; [exact Hx|].
          destruct (j - length l)%nat; [|discriminate].
          injection Hx as <-. congruence. }
        destruct (IH1 j x Hx') as (n' & r & Hp & Hu & Hd & Hk & H0 & Hj & Hr).
        exists n', r. rewrite !lookup_insert_ne by exact Hne.
        repeat split; try assumption.
        apply lookup_app_l_Some. exact Hr.
    + intros h Hh.
      destruct (decide (Keccak256Hash e = h)) as [Heq|Hne].
      * exists (length l), e. split; [|exact Heq].
        rewrite list_lookup_middle by reflexivity. reflexivity.
      * rewrite !lookup_insert_ne in Hh by exact Hne.
        destruct (IH2 h Hh) as (j & x & Hx & Hk).
        exists j, x. split; [|exact Hk]. apply lookup_app_l_Some. exact Hx.
Qed.

Lemma proofMap_loop_decodable proof i res raw :
  Forall (fun x => is_ok (decodeNode x)) proof ->
  is_ok (proofMap_loop i proof res raw).
Proof.
  revert i res raw. induction proof as [|p proof IH]; intros i res raw Hdec.
  - eexists. reflexivity.
  - inversion Hdec as [|? ? [n Hn] Hdec']; subst.
    cbn [proofMap_loop]. rewrite Hn. unfold rbind. apply IH. exact Hdec'.
Qed.

(** X7: [proofMap] succeeds exactly when every entry of the proof list
    decodes as a node. *)
Theorem proofMap_succeeds_iff proof :
  is_ok (proofMap proof) <-> Forall (fun x => is_ok (decodeNode x)) proof.
Proof.
  split.
  - intros [[pm used] Hok]. apply Forall_forall. intros x Hx.
    destruct (decodeNode x) as [n|e] eqn:E; [eexists; reflexivity|].
    destruct (proofMap_loop_malformed proof 0 ∅ ∅ x e) as [e' He'];
      [apply list_elem_of_In; exact Hx|exact E|].
    unfold proofMap in Hok. congruence.
  - apply proofMap_loop_decodable.
Qed.

(** X8: The two maps that [proofMap] returns have the digests of the entries
    as their keys, and no other key.  Under the digest of an entry the
    first map holds the decoding of the bytes that the second map holds,
    and the index in the second map is the position of the last entry of
    the list with that digest: of two entries with the same digest, the
    later one replaces the earlier one. *)
Theorem proofMap_last_entry_wins proof pm used :
  proofMap proof = Ok (pm, used) ->
  (forall h, is_Some (pm !! h) <-> In h (map Keccak256Hash proof)) /\
  (forall h, is_Some (used !! h) <-> In h (map Keccak256Hash proof)) /\
  (forall j x, proof !! j = Some x ->
     exists n r,
       pm !! Keccak256Hash x = Some n /\
       used !! Keccak256Hash x = Some r /\
       decodeNode (value r) = Ok n /\
       (j <= Z.to_nat (index r))%nat /\
       proof !! Z.to_nat (index r) = Some (value r) /\
       Keccak256Hash (value r) = Keccak256Hash x).
Proof.
  intros Hpm. destruct (proofMap_maps_of proof pm used Hpm) as [H1 H2].
  assert (forall h, In h (map Keccak256Hash proof) ->
            is_Some (pm !! h) /\ is_Some (used !! h)) as Hin.
  { intros h (x & <- & Hx)%in_map_iff.
    apply list_elem_of_In, list_elem_of_lookup in Hx as [j Hx].
    destruct (H1 j x Hx) as (n & r & Hp & Hu & _). eauto. }
  assert (forall h, is_Some (pm !! h) \/ is_Some (used !! h) ->
            In h (map Keccak256Hash proof)) as Hout.
  { intros h Hh. destruct (H2 h Hh) as (j & x & Hx & <-).
    apply in_map. apply list_elem_of_In, list_elem_of_lookup. eauto. }
  split; [|split].
  - intros h. split; [auto|]. intros Hh. apply Hin. exact Hh.
  - intros h. split; [auto|]. intros Hh. apply Hin. exact Hh.
  - intros j x Hx.
    destruct (H1 j x Hx) as (n & r & Hp & Hu & Hd & Hk & H0 & Hj & Hr).
    exists n, r. auto 10.
Qed.

Lemma proofMap_last_entry_wins_witness :
  proofMap [sample_leaf; sample_leaf] = Ok (sample_twice_proofs, sample_twice_used) /\
  exists n r,
    sample_twice_proofs !! Keccak256Hash sample_leaf = Some n /\
    sample_twice_used !! Keccak256Hash sample_leaf = Some r /\
    decodeNode (value r) = Ok n /\
    (0 <= Z.to_nat (index r))%nat /\
    [sample_leaf; sample_leaf] !! Z.to_nat (index r) = Some (value r) /\
    Keccak256Hash (value r) = Keccak256Hash sample_leaf.
Proof.
  assert (proofMap [sample_leaf; sample_leaf]
          = Ok (sample_twice_proofs, sample_twice_used)) as H
    by (vm_compute; reflexivity).
  split; [exact H|].
  exact (proj2 (proj2 (proofMap_last_entry_wins _ _ _ H)) 0%nat sample_leaf eq_refl).
Defined.

Lemma proofMap_succeeds_iff_witness :
  Forall (fun x => is_ok (decodeNode x)) [sample_leaf] /\
  is_ok (proofMap [sample_leaf]).
Proof.
  assert (Forall (fun x => is_ok (decodeNode x)) [sample_leaf]) as H.
  { constructor; [|constructor]. eexists. vm_compute. reflexivity. }
  split; [exact H|]. exact (proj2 (proofMap_succeeds_iff [sample_leaf]) H).
Defined.

(** ** Accepted proofs *)

Lemma verifyProof_first_step root key pm used res :
  verifyProof root key pm used = Ok res ->
  exists node raw,
    pm !! BytesToHash root = Some node /\
    used !! BytesToHash root = Some raw /\ index raw = 0.
Proof.
  unfold verifyProof, verifyProof_bound. cbn [verifyProof_loop].
  unfold verifyProof_step at 1. cbn [verifyProof_init v_node v_key v_nextIndex v_used].
  destruct (pm !! BytesToHash root) as [node|]; [|discriminate].
  destruct (used !! BytesToHash root) as [raw|]; [|discriminate].
  destruct (0 =? index raw) eqn:E; [|discriminate].
  intros _. exists node, raw. repeat split. lia.
Qed.

(** X9: A proof that [VerifyProof] accepts, with a value or with the nil
    value, is not empty, and the digest of its first entry is the root
    hash. *)
Theorem accepted_proof_starts_at_root root key proof res :
  VerifyProof root key proof = Ok res ->
  exists e, proof !! 0%nat = Some e /\ Keccak256Hash e = BytesToHash root.
Proof.
  unfold VerifyProof.
  destruct (proofMap proof) as [[pm used]|err] eqn:Hpm; [|discriminate].
  unfold rbind. intros Hv.
  destruct (verifyProof_first_step _ _ _ _ _ Hv) as (node & raw & _ & Hu & Hi).
  destruct (proofMap_index _ _ _ _ _ Hpm Hu) as (Hr & _ & Hk).
  rewrite Hi in Hr. exists (value raw). split; [exact Hr|]. symmetry. exact Hk.
Qed.

Lemma accepted_proof_starts_at_root_witness :
  VerifyProof sample_root sample_absent_key [sample_leaf] = Ok None /\
  exists e, [sample_leaf] !! 0%nat = Some e /\
            Keccak256Hash e = BytesToHash sample_root.
Proof.
  assert (VerifyProof sample_root sample_absent_key [sample_leaf] = Ok None) as H
    by (vm_compute; reflexivity).
  split; [exact H|].
  exact (accepted_proof_starts_at_root _ _ _ _ H).
Defined.

(** X10: When no entry of the proof has the root hash as its digest, and in
    particular when the proof is empty, [VerifyProof] returns the error
    "missing hash" for the root. *)
Theorem unknown_root_rejected root key proof :
  is_ok (proofMap proof) ->
  ~ In (BytesToHash root) (map Keccak256Hash proof) ->
  VerifyProof root key proof = Err (ErrMissingHash root).
Proof.
  intros [[pm used] Hpm] Hroot. unfold VerifyProof. rewrite Hpm. unfold rbind.
  destruct (proofMap_loop_fresh _ _ _ _ _ _ (BytesToHash root) Hpm)
    as [Hp _]; try apply lookup_empty; [exact Hroot|].
  unfold verifyProof, verifyProof_bound. cbn [verifyProof_loop].
  unfold verifyProof_step at 1.
  cbn [verifyProof_init v_node v_key v_nextIndex v_used].
  rewrite Hp. reflexivity.
Qed.

Lemma unknown_root_rejected_witness :
  is_ok (proofMap []) /\
  ~ In (BytesToHash EmptyRoot) (map Keccak256Hash []) /\
  VerifyProof EmptyRoot sample_key [] = Err (ErrMissingHash EmptyRoot).
Proof.
  assert (is_ok (proofMap [])) as H1 by (eexists; reflexivity).
  assert (~ In (BytesToHash EmptyRoot) (map Keccak256Hash [])) as H2
    by (intros []).
  split; [exact H1|]. split; [exact H2|].
  exact (unknown_root_rejected EmptyRoot sample_key [] H1 H2).
Defined.

Lemma verifyProof_step_value proofs st v :
  verifyProof_step proofs st = Return (Ok (Some v)) -> v_used st = ∅.
Proof.
  unfold verifyProof_step.
  destruct (v_node st) as [|cs|sk sv|m a b|acc s|h|nt]; try discriminate.
  - destruct (v_key st) as [|k key]; [discriminate|].
    destruct (child_at cs k); discriminate.
  - destruct (_ >? _); [discriminate|]. destruct (negb _); discriminate.
  - destruct (proofs !! _); [|discriminate].
    destruct (v_used st !! _); [|discriminate].
    destruct (negb _); discriminate.
  - destruct (negb (len (v_key st) =? 0)); [discriminate|].
    case_bool_decide as E; [|discriminate]. intros _. exact E.
Qed.

(** When the loop returns a value, every entry that the index map held
    has been consumed. *)
Lemma verifyProof_loop_value_consumes proofs fuel st v :
  verifyProof_loop proofs fuel st = Ok (Some v) ->
  forall h raw, v_used st !! h = Some raw ->
    (h, raw) ∈ verifyProof_consumed proofs fuel st.
Proof.
  revert st. induction fuel as [|fuel IH]; intros st; [discriminate|].
  cbn [verifyProof_loop verifyProof_consumed].
  destruct (verifyProof_step proofs st) as [st'|r] eqn:E.
  - intros Hv h raw Hu. specialize (IH st' Hv).
    apply verifyProof_step_consumes in E
      as [(_ & Hu' & ->)|(h0 & raw0 & Hl & _ & _ & Hu' & ->)].
    + cbn [app]. apply IH. rewrite Hu'. exact Hu.
    + cbn [app]. destruct (decide (h = h0)) as [->|Hne].
      * assert (raw = raw0) as -> by congruence. apply list_elem_of_here.
      * apply list_elem_of_further. apply IH. rewrite Hu'.
        rewrite lookup_delete_ne by congruence. exact Hu.
  - intros -> h raw Hu. apply verifyProof_step_value in E.
    rewrite E, lookup_empty in Hu. discriminate.
Qed.

Lemma value_run_log root key proof pm used v :
  proofMap proof = Ok (pm, used) ->
  verifyProof root key pm used = Ok (Some v) ->
  fmap fst (verifyProof_consumed pm (verifyProof_bound pm used)
              (verifyProof_init root key used))
  = fmap Keccak256Hash proof /\
  NoDup (fmap Keccak256Hash proof).
Proof.
  intros Hpm Hv.
  set (log := verifyProof_consumed pm (verifyProof_bound pm used)
                (verifyProof_init root key used)).
  destruct (verifyProof_consumed_inv pm (verifyProof_bound pm used)
              (verifyProof_init root key used)) as [Hlog Hnd].
  fold log in Hlog, Hnd. cbn [verifyProof_init v_nextIndex v_used] in Hlog.
  pose proof (verifyProof_loop_value_consumes _ _ _ _ Hv) as Hall.
  fold log in Hall. cbn [verifyProof_init v_used] in Hall.
  destruct (proofMap_maps_of _ _ _ Hpm) as [Hm _].
  (* every entry of the log sits at its index in the list *)
  assert (forall i h raw, log !! i = Some (h, raw) ->
            proof !! i = Some (value raw) /\ h = Keccak256Hash (value raw)) as Hpos.
  { intros i h raw Hi. destruct (Hlog i h raw Hi) as [Hidx Hu].
    destruct (proofMap_index _ _ _ _ _ Hpm Hu) as (Hr & _ & Hk).
    replace (Z.to_nat (index raw)) with i in Hr by lia. auto. }
  assert (length log = length proof) as Hlen.
  { apply Nat.le_antisymm.
    - destruct (length log) as [|m] eqn:Em; [lia|].
      destruct (lookup_lt_is_Some_2 log m ltac:(lia)) as [[h raw] Hi].
      destruct (Hpos m h raw Hi) as [Hr _]. apply lookup_lt_Some in Hr. lia.
    - destruct (length proof) as [|L] eqn:EL; [lia|].
      destruct (lookup_lt_is_Some_2 proof L ltac:(lia)) as [x Hx].
      destruct (Hm L x Hx) as (n & r & _ & Hu & _ & _ & H0 & HL & Hr).
      apply lookup_lt_Some in Hr.
      apply Hall, list_elem_of_lookup in Hu as [i Hi].
      destruct (Hlog i _ _ Hi) as [Hidx _].
      apply lookup_lt_Some in Hi. lia. }
  assert (fmap fst log = fmap Keccak256Hash proof) as Heq.
  { apply list_eq. intros i. rewrite !list_lookup_fmap.
    destruct (log !! i) as [[h raw]|] eqn:Hi.
    - destruct (Hpos i h raw Hi) as [-> ->]. reflexivity.
    - apply lookup_ge_None in Hi. rewrite Hlen in Hi.
      apply lookup_ge_None in Hi. rewrite Hi. reflexivity. }
  split; [exact Heq|]. rewrite <- Heq. exact Hnd.
Qed.

(** X11: When [verifyProof] returns a value on the maps of a proof list, the
    run has consumed every entry of the list, each once and in the order
    of the list: the digests consumed, in the order of their
    consumption, are the digests of the entries.  So the digests of the
    entries of a proof accepted with a value are pairwise distinct. *)
Theorem value_proof_consumed_in_list_order root key proof pm used v :
  proofMap proof = Ok (pm, used) ->
  verifyProof root key pm used = Ok (Some v) ->
  fmap fst (verifyProof_consumed pm (verifyProof_bound pm used)
              (verifyProof_init root key used))
  = fmap Keccak256Hash proof /\
  NoDup (fmap Keccak256Hash proof).
Proof. apply value_run_log. Qed.

Lemma value_proof_consumed_in_list_order_witness :
  exists pm used,
    proofMap [sample_leaf] = Ok (pm, used) /\
    verifyProof sample_root sample_key pm used = Ok (Some [0x05]) /\
    NoDup (fmap Keccak256Hash [sample_leaf]).
Proof.
  destruct (proofMap [sample_leaf]) as [[pm used]|e] eqn:Hpm;
    [|vm_compute in Hpm; discriminate Hpm].
  assert (verifyProof sample_root sample_key pm used = Ok (Some [0x05])) as Hv.
  { assert (VerifyProof sample_root sample_key [sample_leaf] = Ok (Some [0x05])) as H
      by (vm_compute; reflexivity).
    unfold VerifyProof in H. rewrite Hpm in H. exact H. }
  exists pm, used. split; [reflexivity|]. split; [exact Hv|].
  exact (proj2 (value_proof_consumed_in_list_order _ _ _ _ _ _ Hpm Hv)).
Defined.

(** ** A proof without one of its entries *)

Section RemovedEntry.

(** The maps of the full proof and of the proof without the entry of
    digest [he] and index [i]. *)
Variables pm pm' : gmap bytes Node.
Variable he : bytes.
Variable i : Z.

Hypothesis pm'_other : forall h, h <> he -> pm' !! h = pm !! h.
Hypothesis pm'_removed : pm' !! he = None.

Lemma removed_sim_loop fuel :
  forall st st' v,
    removed_sim he i st st' ->
    verifyProof_loop pm fuel st = Ok (Some v) ->
    exists hash,
      verifyProof_loop pm' fuel st' = Err (ErrMissingHash hash) /\
      BytesToHash hash = he.
Proof.
  induction fuel as [|fuel IH]; intros st st' v Hsim Hv; [discriminate|].
  destruct Hsim as (Hn & Hk & Hx & Hle & Hhe & Huniq & Hlow).
  cbn [verifyProof_loop] in *.
  unfold verifyProof_step in *. rewrite Hn, Hk, Hx.
  destruct (v_node st) as [|cs|sk sv|m a b|acc s|hash|nt] eqn:EN;
    try discriminate.
  - (* FullNode *)
    destruct (v_key st) as [|k key] eqn:EK; [discriminate|].
    destruct (child_at cs k) eqn:EC; try discriminate;
      (eapply IH; [|exact Hv]); repeat split; assumption.
  - (* ShortNode *)
    destruct (_ >? _); [discriminate|]. destruct (negb _); [discriminate|].
    eapply IH; [|exact Hv]. repeat split; assumption.
  - (* HashNode *)
    destruct (pm !! BytesToHash hash) as [node|] eqn:EP; [|discriminate].
    destruct (v_used st !! BytesToHash hash) as [raw|] eqn:EU; [|discriminate].
    destruct (v_nextIndex st =? index raw) eqn:EI; [|discriminate].
    cbn [negb] in Hv.
    destruct (decide (BytesToHash hash = he)) as [Heq|Hne].
    + exists hash. rewrite Heq, pm'_removed. auto.
    + rewrite (pm'_other _ Hne), EP.
      assert (index raw < i) as Hlt.
      { destruct (decide (index raw = i)) as [E|E]; [|lia].
        exfalso. apply Hne. eapply Huniq; eassumption. }
      rewrite (Hlow _ _ EU Hlt), EI. cbn [negb].
      eapply IH; [|exact Hv]. repeat split; cbn [v_node v_key v_nextIndex v_used];
        try reflexivity; try lia.
      * destruct Hhe as [r Hr]. exists r.
        rewrite lookup_delete_ne by exact Hne. exact Hr.
      * intros h r Hr. apply lookup_delete_Some in Hr as [_ Hr].
        eapply Huniq. exact Hr.
      * intros h r Hr Hi. apply lookup_delete_Some in Hr as [Hd Hr].
        rewrite lookup_delete_ne by exact Hd. eapply Hlow; eassumption.
  - (* ValueNode: the entry of digest [he] is still unused *)
    destruct (negb (len (v_key st) =? 0)); [discriminate|].
    case_bool_decide as E; [|discriminate].
    destruct Hhe as [r Hr]. rewrite E, lookup_empty in Hr. discriminate.
Qed.

End RemovedEntry.

Lemma proofMap_ok_decodable proof :
  is_ok (proofMap proof) -> Forall (fun x => is_ok (decodeNode x)) proof.
Proof.
  intros [[pm used] Hok]. apply Forall_forall. intros x Hx.
  destruct (decodeNode x) as [n|e] eqn:E; [eexists; reflexivity|].
  destruct (proofMap_loop_malformed proof 0 ∅ ∅ x e) as [e' He'];
    [apply list_elem_of_In; exact Hx|exact E|].
  unfold proofMap in Hok. congruence.
Qed.

(** X12: Leaving out one entry of a proof that [VerifyProof] accepts with a
    value makes it reject the proof: the run stops at the reference to
    the missing entry, with [ErrMissingHash] on the digest of that
    entry. *)
Theorem removed_entry_rejected root key l1 e l2 v :
  VerifyProof root key (l1 ++ e :: l2) = Ok (Some v) ->
  exists hash,
    VerifyProof root key (l1 ++ l2) = Err (ErrMissingHash hash) /\
    BytesToHash hash = Keccak256Hash e.
Proof.
  intros Hv. unfold VerifyProof in Hv.
  destruct (proofMap (l1 ++ e :: l2)) as [[pm used]|err] eqn:Hpm; [|discriminate].
  cbn [rbind] in Hv.
  destruct (value_run_log _ _ _ _ _ _ Hpm Hv) as [_ Hnd].
  assert (Forall (fun x => is_ok (decodeNode x)) (l1 ++ e :: l2)) as Hdec.
  { apply proofMap_ok_decodable. exists (pm, used). exact Hpm. }
  destruct (proofMap_entries_ok _ Hnd Hdec) as (pm0 & used0 & Hpm0 & _ & Hent & Hdom).
  rewrite Hpm in Hpm0. injection Hpm0 as <- <-.
  (* the shorter proof *)
  assert (NoDup (fmap Keccak256Hash (l1 ++ l2))) as Hnd'.
  { rewrite fmap_app in *. cbn [fmap list_fmap] in Hnd.
    apply NoDup_app in Hnd as (H1 & H2 & H3). apply NoDup_cons in H3 as [_ H3].
    apply NoDup_app. split; [exact H1|]. split; [|exact H3].
    intros x Hx Hx'. apply (H2 x Hx). apply list_elem_of_further. exact Hx'. }
  assert (Keccak256Hash e ∉ fmap Keccak256Hash (l1 ++ l2)) as Hfresh.
  { rewrite fmap_app in *. cbn [fmap list_fmap] in Hnd.
    apply NoDup_app in Hnd as (H1 & H2 & H3). apply NoDup_cons in H3 as [H4 _].
    intros Hin. apply elem_of_app in Hin as [Hin|Hin]; [|exact (H4 Hin)].
    apply (H2 _ Hin). apply list_elem_of_here. }
  assert (Forall (fun x => is_ok (decodeNode x)) (l1 ++ l2)) as Hdec'.
  { apply Forall_app in Hdec as [H1 H2]. inversion H2; subst.
    apply Forall_app. split; assumption. }
  destruct (proofMap_entries_ok _ Hnd' Hdec') as (pm' & used' & Hpm' & _ & Hent' & Hdom').
  unfold VerifyProof. rewrite Hpm'. cbn [rbind].
  set (i := Z.of_nat (length l1)).
  assert (removed_sim (Keccak256Hash e) i
            (verifyProof_init root key used) (verifyProof_init root key used')) as Hsim.
  { unfold removed_sim. cbn [verifyProof_init v_node v_key v_nextIndex v_used].
    split; [reflexivity|]. split; [reflexivity|]. split; [reflexivity|].
    split; [unfold i; lia|]. split.
    - destruct (Hent (length l1) e) as (n & _ & _ & Hu).
      { apply list_lookup_middle. reflexivity. }
      rewrite Hu. eauto.
    - split.
      + intros h r Hr Hi.
        assert (h ∈ fmap Keccak256Hash (l1 ++ e :: l2)) as Hin by (apply Hdom; eauto).
        apply list_elem_of_fmap in Hin as (x & -> & Hx).
        apply list_elem_of_lookup in Hx as [j Hj].
        destruct (Hent j x Hj) as (n & _ & _ & Hu).
        rewrite Hu in Hr. injection Hr as <-. cbn [index] in Hi.
        assert (j = length l1) as -> by (unfold i in Hi; lia).
        rewrite list_lookup_middle in Hj by reflexivity. congruence.
      + intros h r Hr Hi.
        assert (h ∈ fmap Keccak256Hash (l1 ++ e :: l2)) as Hin by (apply Hdom; eauto).
        apply list_elem_of_fmap in Hin as (x & -> & Hx).
        apply list_elem_of_lookup in Hx as [j Hj].
        destruct (Hent j x Hj) as (n & _ & _ & Hu).
        rewrite Hu in Hr. injection Hr as <-. cbn [index] in Hi.
        assert (j < length l1)%nat as Hlt by (unfold i in Hi; lia).
        rewrite lookup_app_l in Hj by exact Hlt.
        destruct (Hent' j x) as (n' & _ & _ & Hu').
        { rewrite lookup_app_l by exact Hlt. exact Hj. }
        exact Hu'. }
  assert (forall h, h <> Keccak256Hash e -> pm' !! h = pm !! h) as Hother.
  { intros h Hne.
    destruct (decide (h ∈ fmap Keccak256Hash (l1 ++ l2))) as [Hin|Hin].
    - apply list_elem_of_fmap in Hin as (x & -> & Hx).
      apply list_elem_of_lookup in Hx as [j Hj].
      destruct (Hent' j x Hj) as (n' & Hn' & Hp' & _).
      assert (x ∈ l1 ++ e :: l2) as Hx.
      { apply list_elem_of_lookup_2 in Hj. apply elem_of_app in Hj as [Hj|Hj].
        - apply elem_of_app. left. exact Hj.
        - apply elem_of_app. right. apply list_elem_of_further. exact Hj. }
      apply list_elem_of_lookup in Hx as [j' Hj'].
      destruct (Hent j' x Hj') as (n & Hn & Hp & _).
      rewrite Hp', Hp. congruence.
    - destruct (proofMap_loop_fresh 0 (l1 ++ l2) ∅ ∅ pm' used' h Hpm') as [-> _];
        try apply lookup_empty.
      { intros HI. apply Hin. apply list_elem_of_In. exact HI. }
      destruct (proofMap_loop_fresh 0 (l1 ++ e :: l2) ∅ ∅ pm used h Hpm) as [-> _];
        try apply lookup_empty; [|reflexivity].
      intros HI. apply list_elem_of_In in HI.
      change (map Keccak256Hash (l1 ++ e :: l2)) with (fmap Keccak256Hash (l1 ++ e :: l2)) in HI.
      rewrite fmap_app in HI. cbn [fmap list_fmap] in HI.
      apply elem_of_app in HI as [HI|HI].
      + apply Hin. rewrite fmap_app. apply elem_of_app. left. exact HI.
      + apply elem_of_cons in HI as [HI|HI]; [congruence|].
        apply Hin. rewrite fmap_app. apply elem_of_app. right. exact HI. }
  assert (pm' !! Keccak256Hash e = None) as Hnone.
  { destruct (proofMap_loop_fresh 0 (l1 ++ l2) ∅ ∅ pm' used' (Keccak256Hash e) Hpm')
      as [-> _]; try apply lookup_empty; [|reflexivity].
    intros HI. apply Hfresh. apply list_elem_of_In. exact HI. }
  unfold verifyProof in Hv.
  destruct (removed_sim_loop pm pm' (Keccak256Hash e) i Hother Hnone _ _ _ _ Hsim Hv)
    as (hash & Hrun & Hhash).
  exists hash. split; [|exact Hhash].
  unfold verifyProof.
  eapply verifyProof_loop_deterministic; [exact Hrun|discriminate|].
  apply verifyProof_total.
Qed.

Lemma removed_entry_rejected_witness :
  VerifyProof (rootHash hashChildren_model branch_trie) sample_key
    ([node_rlp (RootNode branch_trie)] ++ node_rlp (branch_leaf 0x05) :: [])
  = Ok (Some [0x05]) /\
  exists hash,
    VerifyProof (rootHash hashChildren_model branch_trie) sample_key
      ([node_rlp (RootNode branch_trie)] ++ [])
    = Err (ErrMissingHash hash) /\
    BytesToHash hash = Keccak256Hash (node_rlp (branch_leaf 0x05)).
Proof.
  assert (VerifyProof (rootHash hashChildren_model branch_trie) sample_key
            ([node_rlp (RootNode branch_trie)] ++ node_rlp (branch_leaf 0x05) :: [])
          = Ok (Some [0x05])) as H by (vm_compute; reflexivity).
  split; [exact H|].
  exact (removed_entry_rejected _ _ _ _ _ _ H).
Defined.

(** ** One root, one key, two proofs *)

Section TwoProofs.

(** Two maps that hold the same node under every digest that both know. *)
Variables pm1 pm2 : gmap bytes Node.
Hypothesis pm_agree :
  forall h n1 n2, pm1 !! h = Some n1 -> pm2 !! h = Some n2 -> n1 = n2.

Lemma verifyProof_loop_agree f1 :
  forall f2 st1 st2 r1 r2,
    v_node st1 = v_node st2 -> v_key st1 = v_key st2 ->
    verifyProof_loop pm1 f1 st1 = Ok r1 ->
    verifyProof_loop pm2 f2 st2 = Ok r2 ->
    r1 = r2.
Proof.
  induction f1 as [|f1 IH]; intros f2 st1 st2 r1 r2 Hn Hk H1 H2; [discriminate|].
  destruct f2 as [|f2]; [discriminate|].
  cbn [verifyProof_loop] in H1, H2. unfold verifyProof_step in H1, H2.
  rewrite Hn, Hk in H1.
  destruct (v_node st2) as [|cs|sk sv|m a b|acc s|hash|nt]; try discriminate.
  - destruct (v_key st2) as [|k key]; [discriminate|].
    destruct (child_at cs k); try congruence;
      (eapply IH; [| |exact H1|exact H2]; reflexivity).
  - destruct (_ >? _); [discriminate|]. destruct (negb _); [congruence|].
    eapply IH; [| |exact H1|exact H2]; reflexivity.
  - destruct (pm1 !! BytesToHash hash) as [n1|] eqn:E1; [|discriminate].
    destruct (pm2 !! BytesToHash hash) as [n2|] eqn:E2; [|discriminate].
    rewrite (pm_agree _ _ _ E1 E2) in H1.
    destruct (v_used st1 !! BytesToHash hash); [|discriminate].
    destruct (v_used st2 !! BytesToHash hash); [|discriminate].
    destruct (negb _); [discriminate|]. destruct (negb _); [discriminate|].
    eapply IH; [| |exact H1|exact H2]; reflexivity.
  - destruct (negb _); [discriminate|].
    destruct (negb _); [discriminate|]. destruct (negb _); [discriminate|].
    congruence.
Qed.

End TwoProofs.

Lemma verify_two_proofs root key proof1 proof2 r1 r2 :
  VerifyProof root key proof1 = Ok r1 ->
  VerifyProof root key proof2 = Ok r2 ->
  r1 = r2 \/
  exists x y, x ∈ proof1 /\ y ∈ proof2 /\ x <> y /\
              Keccak256Hash x = Keccak256Hash y.
Proof.
  unfold VerifyProof. intros H1 H2.
  destruct (proofMap proof1) as [[pm1 used1]|e1] eqn:Hpm1; [|discriminate].
  destruct (proofMap proof2) as [[pm2 used2]|e2] eqn:Hpm2; [|discriminate].
  cbn [rbind] in H1, H2.
  destruct (decide (Exists (fun x => Exists (fun y => x <> y /\
              Keccak256Hash x = Keccak256Hash y) proof2) proof1)) as [Hc|Hc].
  - right. apply Exists_exists in Hc as (x & Hx & Hc).
    apply Exists_exists in Hc as (y & Hy & Hne & Heq).
    exists x, y. repeat split; assumption.
  - left. eapply (verifyProof_loop_agree pm1 pm2); [| | |exact H1|exact H2];
      [|reflexivity|reflexivity].
    intros h n1 n2 E1 E2.
    destruct (proofMap_maps_of _ _ _ Hpm1) as [Ha1 Hb1].
    destruct (proofMap_maps_of _ _ _ Hpm2) as [Ha2 Hb2].
    destruct (Hb1 h) as (j1 & x1 & Hj1 & <-); [left; eauto|].
    destruct (Hb2 (Keccak256Hash x1)) as (j2 & x2 & Hj2 & Hk2); [left; eauto|].
    destruct (Ha1 _ _ Hj1) as (n1' & s1 & Hp1 & _ & Hd1 & Hk1 & _ & _ & Hi1).
    destruct (Ha2 _ _ Hj2) as (n2' & s2 & Hp2 & _ & Hd2 & Hk2' & _ & _ & Hi2).
    rewrite Hk2 in Hp2.
    assert (n1' = n1) as -> by congruence. assert (n2' = n2) as -> by congruence.
    destruct (decide (value s1 = value s2)) as [Hv|Hv]; [congruence|].
    exfalso. apply Hc. apply Exists_exists. exists (value s1).
    split; [eapply list_elem_of_lookup_2; exact Hi1|].
    apply Exists_exists. exists (value s2).
    split; [eapply list_elem_of_lookup_2; exact Hi2|].
    split; [exact Hv|]. congruence.
Qed.

(** X13: A root commits to one answer per key.  When [VerifyProof] accepts
    two proofs for the same root and the same key, it returns the same
    answer for both (the same value, or the nil value for both), unless
    the two proofs hold two different entries with the same Keccak-256
    digest. *)
Theorem root_binds_key root key proof1 proof2 r1 r2 :
  VerifyProof root key proof1 = Ok r1 ->
  VerifyProof root key proof2 = Ok r2 ->
  r1 = r2 \/
  exists x y, x ∈ proof1 /\ y ∈ proof2 /\ x <> y /\
              Keccak256Hash x = Keccak256Hash y.
Proof. apply verify_two_proofs. Qed.

Lemma root_binds_key_witness :
  VerifyProof sample_root sample_absent_key [sample_leaf] = Ok None /\
  VerifyProof sample_root sample_absent_key [sample_leaf; sample_unrelated]
  = Ok None /\
  (None = None :> option bytes \/
   exists x y, x ∈ [sample_leaf] /\ y ∈ [sample_leaf; sample_unrelated] /\
               x <> y /\ Keccak256Hash x = Keccak256Hash y).
Proof.
  assert (VerifyProof sample_root sample_absent_key [sample_leaf] = Ok None) as H1
    by (vm_compute; reflexivity).
  assert (VerifyProof sample_root sample_absent_key [sample_leaf; sample_unrelated]
          = Ok None) as H2 by (vm_compute; reflexivity).
  split; [exact H1|]. split; [exact H2|].
  exact (root_binds_key _ _ _ _ _ _ H1 H2).
Defined.

(** ** One root, one key, one proof of a value *)

Section TwoLogs.

Variables pm1 pm2 : gmap bytes Node.
Hypothesis pm_agree :
  forall h n1 n2, pm1 !! h = Some n1 -> pm2 !! h = Some n2 -> n1 = n2.

Lemma consumed_by_same st st' :
  v_used st' = v_used st -> consumed_by st st' = [].
Proof.
  intros E. unfold consumed_by. rewrite E, map_difference_diag.
  apply map_to_list_empty.
Qed.

Lemma consumed_by_delete st st' h raw :
  v_used st !! h = Some raw -> v_used st' = delete h (v_used st) ->
  consumed_by st st' = [(h, raw)].
Proof.
  intros EU E. unfold consumed_by.
  rewrite E, (difference_delete _ _ _ _ EU), map_difference_diag, insert_empty.
  apply map_to_list_singleton.
Qed.

Lemma verifyProof_consumed_agree f1 :
  forall f2 st1 st2 r1 r2,
    v_node st1 = v_node st2 -> v_key st1 = v_key st2 ->
    verifyProof_loop pm1 f1 st1 = Ok r1 ->
    verifyProof_loop pm2 f2 st2 = Ok r2 ->
    fmap fst (verifyProof_consumed pm1 f1 st1)
    = fmap fst (verifyProof_consumed pm2 f2 st2).
Proof.
  induction f1 as [|f1 IH]; intros f2 st1 st2 r1 r2 Hn Hk H1 H2; [discriminate|].
  destruct f2 as [|f2]; [discriminate|].
  cbn [verifyProof_loop verifyProof_consumed] in *.
  unfold verifyProof_step in *.
  rewrite Hn, Hk in *.
  destruct (v_node st2) as [|cs|sk sv|m a b|acc s|hash|nt]; try reflexivity.
  - destruct (v_key st2) as [|k key]; [reflexivity|].
    destruct (child_at cs k); try reflexivity;
      rewrite !consumed_by_same by reflexivity;
      (eapply IH; [| |exact H1|exact H2]; reflexivity).
  - destruct (_ >? _); [reflexivity|]. destruct (negb _); [reflexivity|].
    rewrite !consumed_by_same by reflexivity.
    eapply IH; [| |exact H1|exact H2]; reflexivity.
  - destruct (pm1 !! BytesToHash hash) as [n1|] eqn:E1; [|discriminate].
    destruct (pm2 !! BytesToHash hash) as [n2|] eqn:E2; [|discriminate].
    rewrite (pm_agree _ _ _ E1 E2) in *.
    destruct (v_used st1 !! BytesToHash hash) as [raw1|] eqn:U1; [|discriminate].
    destruct (v_used st2 !! BytesToHash hash) as [raw2|] eqn:U2; [|discriminate].
    destruct (negb (v_nextIndex st1 =? _)); [discriminate|].
    destruct (negb (v_nextIndex st2 =? _)); [discriminate|].
    rewrite (consumed_by_delete _ _ _ _ U1) by reflexivity.
    rewrite (consumed_by_delete _ _ _ _ U2) by reflexivity.
    cbn [app fmap list_fmap fst]. f_equal.
    eapply IH; [| |exact H1|exact H2]; reflexivity.
  - destruct (negb _); [reflexivity|].
    destruct (negb _); destruct (negb _); reflexivity.
Qed.

End TwoLogs.

(** X14: A root and a key admit one proof of a value.  When [VerifyProof]
    returns a value for two proofs, for the same root and the same key,
    the two proofs are the same list of entries, unless they hold two
    different entries with the same Keccak-256 digest. *)
Theorem value_proof_unique root key proof1 proof2 v1 v2 :
  VerifyProof root key proof1 = Ok (Some v1) ->
  VerifyProof root key proof2 = Ok (Some v2) ->
  proof1 = proof2 \/
  exists x y, x ∈ proof1 /\ y ∈ proof2 /\ x <> y /\
              Keccak256Hash x = Keccak256Hash y.
Proof.
  unfold VerifyProof. intros H1 H2.
  destruct (proofMap proof1) as [[pm1 used1]|e1] eqn:Hpm1; [|discriminate].
  destruct (proofMap proof2) as [[pm2 used2]|e2] eqn:Hpm2; [|discriminate].
  cbn [rbind] in H1, H2.
  destruct (decide (Exists (fun x => Exists (fun y => x <> y /\
              Keccak256Hash x = Keccak256Hash y) proof2) proof1)) as [Hc|Hc].
  { right. apply Exists_exists in Hc as (x & Hx & Hc).
    apply Exists_exists in Hc as (y & Hy & Hne & Heq).
    exists x, y. repeat split; assumption. }
  left.
  assert (forall x y, x ∈ proof1 -> y ∈ proof2 ->
            Keccak256Hash x = Keccak256Hash y -> x = y) as Hinj.
  { intros x y Hx Hy Hk. destruct (decide (x = y)) as [E|E]; [exact E|].
    exfalso. apply Hc. apply Exists_exists. exists x. split; [exact Hx|].
    apply Exists_exists. exists y. auto. }
  assert (forall h n1 n2, pm1 !! h = Some n1 -> pm2 !! h = Some n2 -> n1 = n2) as Hagree.
  { intros h n1 n2 E1 E2.
    destruct (proofMap_maps_of _ _ _ Hpm1) as [Ha1 Hb1].
    destruct (proofMap_maps_of _ _ _ Hpm2) as [Ha2 Hb2].
    destruct (Hb1 h) as (j1 & x1 & Hj1 & <-); [left; eauto|].
    destruct (Hb2 (Keccak256Hash x1)) as (j2 & x2 & Hj2 & Hk2); [left; eauto|].
    destruct (Ha1 _ _ Hj1) as (n1' & s1 & Hp1 & _ & Hd1 & Hk1 & _ & _ & Hi1).
    destruct (Ha2 _ _ Hj2) as (n2' & s2 & Hp2 & _ & Hd2 & Hk2' & _ & _ & Hi2).
    rewrite Hk2 in Hp2.
    assert (n1' = n1) as -> by congruence. assert (n2' = n2) as -> by congruence.
    assert (value s1 = value s2) as E.
    { apply Hinj; [eapply list_elem_of_lookup_2; exact Hi1
                  |eapply list_elem_of_lookup_2; exact Hi2|congruence]. }
    congruence. }
  destruct (value_run_log _ _ _ _ _ _ Hpm1 H1) as [L1 _].
  destruct (value_run_log _ _ _ _ _ _ Hpm2 H2) as [L2 _].
  pose proof (verifyProof_consumed_agree pm1 pm2 Hagree
                (verifyProof_bound pm1 used1) (verifyProof_bound pm2 used2)
                (verifyProof_init root key used1) (verifyProof_init root key used2)
                _ _ eq_refl eq_refl H1 H2) as Hlog.
  rewrite L1, L2 in Hlog.
  apply list_eq. intros j.
  apply (f_equal (fun l => l !! j)) in Hlog. rewrite !list_lookup_fmap in Hlog.
  destruct (proof1 !! j) as [x|] eqn:Ex; destruct (proof2 !! j) as [y|] eqn:Ey;
    cbn [fmap option_fmap option_map] in Hlog;
    [|discriminate Hlog|discriminate Hlog|reflexivity].
  injection Hlog as Hlog. f_equal. apply Hinj;
    [eapply list_elem_of_lookup_2; exact Ex
    |eapply list_elem_of_lookup_2; exact Ey|exact Hlog].
Qed.

Lemma value_proof_unique_witness :
  VerifyProof (rootHash hashChildren_model branch_trie) sample_key
    [node_rlp (RootNode branch_trie); node_rlp (branch_leaf 0x05)]
  = Ok (Some [0x05]) /\
  ([node_rlp (RootNode branch_trie); node_rlp (branch_leaf 0x05)]
   = [node_rlp (RootNode branch_trie); node_rlp (branch_leaf 0x05)] \/
   exists x y,
     x ∈ [node_rlp (RootNode branch_trie); node_rlp (branch_leaf 0x05)] /\
     y ∈ [node_rlp (RootNode branch_trie); node_rlp (branch_leaf 0x05)] /\
     x <> y /\ Keccak256Hash x = Keccak256Hash y).
Proof.
  assert (VerifyProof (rootHash hashChildren_model branch_trie) sample_key
            [node_rlp (RootNode branch_trie); node_rlp (branch_leaf 0x05)]
          = Ok (Some [0x05])) as H by (vm_compute; reflexivity).
  split; [exact H|].
  exact (value_proof_unique _ _ _ _ _ _ H H).
Defined.

(** ** The guard on full nodes *)

Lemma well_keyed_child cs k :
  forallb well_keyed cs = true -> well_keyed (child_at cs k) = true.
Proof.
  unfold child_at. generalize (Z.to_nat k) as i.
  induction cs as [|c cs IH]; intros [|i]; cbn [forallb nth]; try reflexivity;
    intros H; apply andb_true_iff in H as [H1 H2]; auto.
Qed.

Lemma ends_key_well_keyed n : ends_key n = true -> well_keyed n = true.
Proof. destruct n; try discriminate; reflexivity. Qed.

Lemma verifyProof_step_key_open proofs st :
  (forall h n, proofs !! h = Some n -> well_keyed n = true) ->
  key_open st ->
  match verifyProof_step proofs st with
  | Continue st' => key_open st'
  | Return r => r <> Err ErrFullNodeValue
  end.
Proof.
  intros Hpm [Hwk Hkey]. unfold verifyProof_step.
  destruct (v_node st) as [|cs|sk sv|m a b|acc s|hash|nt] eqn:EN; try discriminate.
  - (* FullNode *)
    destruct Hkey as [(hex & Hk & Hhex)|Ht]; [|discriminate].
    rewrite Hk. cbn [well_keyed] in Hwk.
    apply andb_true_iff in Hwk as [Hv Hcs].
    destruct hex as [|k hex]; cbn [app].
    + destruct (child_at cs 16) eqn:EC; try discriminate;
        (split; [reflexivity|right; reflexivity]).
    + pose proof (well_keyed_child cs k Hcs) as Hc.
      apply not_elem_of_cons in Hhex as [_ Hhex].
      destruct (child_at cs k) eqn:EC; try discriminate;
        (split; [exact Hc|left; exists hex; split; [reflexivity|exact Hhex]]).
  - (* ShortNode *)
    destruct (_ >? _) eqn:Elen; [discriminate|].
    case_bool_decide as Epre; cbn [negb]; [|discriminate].
    cbn [well_keyed] in Hwk. apply andb_true_iff in Hwk as [Hterm Hval].
    split; [exact Hval|]. cbn [v_node v_key].
    destruct Hkey as [(hex & Hk & Hhex)|Ht]; [|discriminate].
    apply orb_true_iff in Hterm as [Hno|Hend]; [|right; exact Hend].
    left. apply negb_true_iff, bool_decide_eq_false in Hno.
    rewrite Hk in Epre, Elen |- *.
    assert (length sk <= length hex)%nat as Hle.
    { destruct (le_lt_dec (length sk) (length hex)) as [H|H]; [exact H|].
      exfalso. apply Hno. rewrite Epre.
      unfold len in Elen. rewrite length_app in Elen. cbn [length] in Elen.
      rewrite firstn_all2 by (rewrite length_app; cbn [length]; lia).
      apply elem_of_app. right. apply list_elem_of_here. }
    exists (skipn (length sk) hex). split.
    + apply drop_app_le. exact Hle.
    + intros Hin. apply Hhex. eapply subseteq_drop. exact Hin.
  - (* HashNode *)
    destruct (proofs !! BytesToHash hash) as [node|] eqn:EP; [|discriminate].
    destruct (v_used st !! BytesToHash hash) as [raw|]; [|discriminate].
    destruct (negb _); [discriminate|].
    split; [exact (Hpm _ _ EP)|].
    destruct Hkey as [Hk|Ht]; [left; exact Hk|discriminate].
  - (* ValueNode *)
    destruct (negb _); [discriminate|]. destruct (negb _); discriminate.
Qed.

Lemma verifyProof_loop_key_open proofs fuel :
  (forall h n, proofs !! h = Some n -> well_keyed n = true) ->
  forall st, key_open st ->
  verifyProof_loop proofs fuel st <> Err ErrFullNodeValue.
Proof.
  intros Hpm. induction fuel as [|fuel IH]; intros st Hst; [discriminate|].
  cbn [verifyProof_loop].
  pose proof (verifyProof_step_key_open proofs st Hpm Hst) as Hstep.
  destruct (verifyProof_step proofs st) as [st'|r]; [apply IH|]; exact Hstep.
Qed.

(** X15: [verifyProof] never returns the error "full nodes should not have
    values" on maps of well-keyed nodes: the expanded key ends with its
    only terminator, a short node that consumes the terminator and the
    17th slot of a full node lead to a value or to nothing, so no full
    node is reached with an empty key. *)
Theorem full_node_guard_unreachable root key proofs used :
  Forall (fun b => 0 <= b < 256) key ->
  (forall h n, proofs !! h = Some n -> well_keyed n = true) ->
  verifyProof root key proofs used <> Err ErrFullNodeValue.
Proof.
  intros Hkey Hpm. unfold verifyProof.
  apply verifyProof_loop_key_open; [exact Hpm|].
  split; [reflexivity|]. left. exists (nibbles key).
  split; [reflexivity|]. apply nibbles_range. exact Hkey.
Qed.

Lemma full_node_guard_unreachable_witness :
  Forall (fun b => 0 <= b < 256) sample_key /\
  verifyProof sample_root sample_key sample_twice_proofs sample_twice_used
  <> Err ErrFullNodeValue.
Proof.
  split; [exact sample_key_bytes|].
  apply (full_node_guard_unreachable sample_root sample_key
           sample_twice_proofs sample_twice_used sample_key_bytes).
  intros h n Hn. unfold sample_twice_proofs in Hn.
  apply lookup_singleton_Some in Hn as [_ <-]. vm_compute. reflexivity.
Defined.

(** ** Decoded nodes are well keyed *)

Lemma ToHex_open kbuf :
  Forall (fun b => 0 <= b < 256) kbuf ->
  Terminating (CompactToKeybytes kbuf) = false ->
  16 ∉ ToHex (CompactToKeybytes kbuf).
Proof.
  intros Hb Ht. unfold ToHex. rewrite Ht, app_nil_r.
  destruct kbuf as [|c0 tl]; cbn [CompactToKeybytes Nibbles].
  - apply not_elem_of_nil.
  - inversion Hb as [|? ? H0 Htl]; subst.
    pose proof (nibbles_range tl Htl) as Hn.
    destruct (Z.testbit c0 4); [|exact Hn].
    apply not_elem_of_cons. split; [|exact Hn].
    pose proof (Z.mod_pos_bound c0 16). lia.
Qed.

Lemma Split_bytes b k content rest :
  Forall (fun b => 0 <= b < 256) b ->
  rlp.Split b = Ok (k, content, rest) ->
  Forall (fun b => 0 <= b < 256) content /\ Forall (fun b => 0 <= b < 256) rest.
Proof.
  intros Hb (ts & cs & _ & -> & ->)%Split_inv.
  split; [apply Forall_take|]; apply Forall_drop; exact Hb.
Qed.

Lemma SplitString_bytes b content rest :
  Forall (fun b => 0 <= b < 256) b ->
  rlp.SplitString b = Ok (content, rest) ->
  Forall (fun b => 0 <= b < 256) content /\ Forall (fun b => 0 <= b < 256) rest.
Proof.
  intros Hb. unfold rlp.SplitString.
  destruct (rlp.Split b) as [[[k c] r]|e] eqn:E; [|discriminate]. unfold rbind.
  destruct (bool_decide _); [discriminate|]. intros [= <- <-].
  eapply Split_bytes; eassumption.
Qed.

Lemma SplitList_bytes b content rest :
  Forall (fun b => 0 <= b < 256) b ->
  rlp.SplitList b = Ok (content, rest) ->
  Forall (fun b => 0 <= b < 256) content /\ Forall (fun b => 0 <= b < 256) rest.
Proof.
  intros Hb. unfold rlp.SplitList.
  destruct (rlp.Split b) as [[[k c] r]|e] eqn:E; [|discriminate]. unfold rbind.
  destruct (bool_decide _); [|discriminate]. intros [= <- <-].
  eapply Split_bytes; eassumption.
Qed.

Section DecoderKeys.

Variable f : bytes -> result Node.
Hypothesis f_keys :
  forall b n, Forall (fun b => 0 <= b < 256) b -> f b = Ok n -> well_keyed n = true.

Lemma decodeRef_with_keys buf n rest :
  Forall (fun b => 0 <= b < 256) buf ->
  decodeRef_with f buf = Ok (n, rest) ->
  well_keyed n = true /\ Forall (fun b => 0 <= b < 256) rest.
Proof.
  intros Hb. unfold decodeRef_with.
  destruct (rlp.Split buf) as [[[k val] r]|e] eqn:ES; [|discriminate].
  unfold rbind at 1. destruct (Split_bytes _ _ _ _ Hb ES) as [_ Hr].
  destruct (bool_decide (k = rlp.List)).
  - destruct (_ >=? _); [discriminate|].
    destruct (f buf) as [m|e] eqn:E; [|discriminate]. unfold rbind.
    intros [= <- <-]. split; [|exact Hr]. apply (f_keys buf); assumption.
  - destruct (bool_decide (k = rlp.String)); cbn [andb]; [|discriminate].
    destruct (len val =? 0); [intros [= <- <-]; split; [reflexivity|exact Hr]|].
    destruct (len val =? 32); [|discriminate].
    intros [= <- <-]. split; [reflexivity|exact Hr].
Qed.

Lemma decodeFull_children_keys k elems cs rest :
  Forall (fun b => 0 <= b < 256) elems ->
  decodeFull_children f k elems = Ok (cs, rest) ->
  length cs = k /\ forallb well_keyed cs = true /\
  Forall (fun b => 0 <= b < 256) rest.
Proof.
  revert elems cs rest. induction k as [|k IH]; intros elems cs rest Hb.
  - intros [= <- <-]. auto.
  - cbn [decodeFull_children].
    destruct (decodeRef_with f elems) as [[c r]|e] eqn:E; [|discriminate].
    unfold rbind at 1.
    destruct (decodeFull_children f k r) as [[cs' r']|e] eqn:E'; [|discriminate].
    unfold rbind. intros [= <- <-].
    apply decodeRef_with_keys in E as [Hc Hr]; [|exact Hb].
    apply IH in E' as (Hl & HF & Hr'); [|exact Hr].
    cbn [length forallb]. rewrite Hc, HF. auto.
Qed.

Lemma decodeNode_with_keys encoded n :
  Forall (fun b => 0 <= b < 256) encoded ->
  decodeNode_with f encoded = Ok n -> well_keyed n = true.
Proof.
  intros Hb. unfold decodeNode_with. destruct (len encoded =? 0); [discriminate|].
  destruct (rlp.SplitList encoded) as [[elems r]|e] eqn:EL; [|discriminate].
  unfold rbind at 1. destruct (SplitList_bytes _ _ _ Hb EL) as [He _].
  destruct (_ =? 2).
  - unfold decodeShort_with.
    destruct (rlp.SplitString elems) as [[kbuf rest]|e] eqn:EK; [|discriminate].
    unfold rbind at 1. destruct (SplitString_bytes _ _ _ He EK) as [Hk Hrest].
    destruct (Terminating (CompactToKeybytes kbuf)) eqn:ET.
    + destruct (rlp.SplitString rest) as [[val r']|e]; [|discriminate].
      unfold rbind. intros [= <-]. cbn [well_keyed ends_key].
      rewrite orb_true_r. reflexivity.
    + destruct (decodeRef_with f rest) as [[val r']|e] eqn:E; [|discriminate].
      unfold rbind. intros [= <-]. cbn [well_keyed].
      apply decodeRef_with_keys in E as [Hv _]; [|exact Hrest].
      rewrite Hv, andb_true_r.
      rewrite bool_decide_eq_false_2 by (apply ToHex_open; assumption).
      reflexivity.
  - destruct (_ =? 17); [|discriminate].
    unfold decodeFull_with.
    destruct (decodeFull_children f 16 elems) as [[cs r']|e] eqn:E; [|discriminate].
    unfold rbind at 1.
    destruct (rlp.SplitString r') as [[val r'']|e]; [|discriminate].
    unfold rbind. intros [= <-].
    apply decodeFull_children_keys in E as (Hl & HF & _); [|exact He].
    cbn [well_keyed]. unfold child_at.
    change (Z.to_nat 16) with 16%nat.
    rewrite app_nth2 by lia. rewrite Hl. cbn [Nat.sub nth].
    rewrite forallb_app, HF. cbn [forallb].
    destruct (len val >? 0); reflexivity.
Qed.

End DecoderKeys.

Lemma decodeNode_bounded_keys k encoded n :
  Forall (fun b => 0 <= b < 256) encoded ->
  decodeNode_bounded k encoded = Ok n -> well_keyed n = true.
Proof.
  revert encoded n. induction k as [|k IH]; intros encoded n Hb; [discriminate|].
  cbn [decodeNode_bounded]. apply decodeNode_with_keys; [exact IH|exact Hb].
Qed.

(** X16: On the maps that [proofMap] builds from a list of byte strings,
    [verifyProof] never returns the error "full nodes should not have
    values": in the nodes that [decodeNode] returns, a short node whose
    key ends with the terminator holds a value and the 17th slot of a
    full node holds a value or nothing, so the traversal of an expanded
    key never stands on a full node with an empty key. *)
Theorem decoded_proof_never_full_node_value root key proof pm used :
  Forall (fun b => 0 <= b < 256) key ->
  Forall (Forall (fun b => 0 <= b < 256)) proof ->
  proofMap proof = Ok (pm, used) ->
  verifyProof root key pm used <> Err ErrFullNodeValue.
Proof.
  intros Hkey Hproof Hpm.
  unfold verifyProof. apply verifyProof_loop_key_open.
  - intros h n Hn. destruct (proofMap_maps_of _ _ _ Hpm) as [Ha Hb].
    destruct (Hb h) as (j & x & Hj & <-); [left; eauto|].
    destruct (Ha _ _ Hj) as (n' & r & Hp & _ & Hd & _ & _ & _ & Hi).
    assert (n' = n) as -> by congruence.
    eapply decodeNode_bounded_keys; [|exact Hd].
    eapply Forall_lookup_1; [exact Hproof|exact Hi].
  - split; [reflexivity|]. left. exists (nibbles key).
    split; [reflexivity|]. apply nibbles_range. exact Hkey.
Qed.

Lemma decoded_proof_never_full_node_value_witness :
  exists pm used,
    Forall (fun b => 0 <= b < 256) sample_key /\
    Forall (Forall (fun b => 0 <= b < 256)) [sample_leaf] /\
    proofMap [sample_leaf] = Ok (pm, used) /\
    verifyProof sample_root sample_key pm used <> Err ErrFullNodeValue.
Proof.
  destruct (proofMap [sample_leaf]) as [[pm used]|e] eqn:Hpm;
    [|vm_compute in Hpm; discriminate Hpm].
  assert (Forall (Forall (fun b => 0 <= b < 256)) [sample_leaf]) as Hb
    by (apply (bool_decide_unpack _); vm_compute; exact I).
  exists pm, used. split; [exact sample_key_bytes|]. split; [exact Hb|].
  split; [reflexivity|].
  exact (decoded_proof_never_full_node_value sample_root sample_key [sample_leaf]
           pm used sample_key_bytes Hb Hpm).
Defined.

(** ** The serialization of the claimed fields *)

Lemma be_value_acc l a :
  fold_left (fun a x => a * 256 + x) l a
  = a * 256 ^ Z.of_nat (length l) + rlp.be_value l.
Proof.
  unfold rlp.be_value. revert a.
  induction l as [|x l IH]; intros a; cbn [fold_left length].
  - change (256 ^ Z.of_nat 0) with 1. lia.
  - rewrite (IH (a * 256 + x)), (IH (0 * 256 + x)).
    rewrite Nat2Z.inj_succ, Z.pow_succ_r by lia. lia.
Qed.

Lemma be_value_cons x l :
  rlp.be_value (x :: l) = x * 256 ^ Z.of_nat (length l) + rlp.be_value l.
Proof.
  unfold rlp.be_value at 1. cbn [fold_left]. rewrite be_value_acc. lia.
Qed.

Lemma be_bytes_loop_value k :
  forall x acc, 0 <= x < 2 ^ Z.of_nat k ->
    rlp.be_value (rlp.be_bytes_loop k x acc)
    = x * 256 ^ Z.of_nat (length acc) + rlp.be_value acc.
Proof.
  induction k as [|k IH]; intros x acc Hx; cbn [rlp.be_bytes_loop].
  - change (2 ^ Z.of_nat 0) with 1 in Hx. assert (x = 0) as -> by lia. lia.
  - destruct (x <=? 0) eqn:E; [assert (x = 0) as -> by lia; lia|].
    rewrite Nat2Z.inj_succ, Z.pow_succ_r in Hx by lia.
    rewrite IH.
    + rewrite be_value_cons. cbn [length].
      rewrite Nat2Z.inj_succ, Z.pow_succ_r by lia.
      pose proof (Z.div_mod x 256 ltac:(lia)). nia.
    + split; [apply Z.div_pos; lia|].
      apply Z.div_lt_upper_bound; [lia|].
      assert (0 < 2 ^ Z.of_nat k) by (apply Z.pow_pos_nonneg; lia). lia.
Qed.

Lemma be_bytes_value x : 0 <= x -> rlp.be_value (rlp.be_bytes x) = x.
Proof.
  intros Hx. unfold rlp.be_bytes. rewrite be_bytes_loop_value.
  - cbn [length rlp.be_value fold_left]. change (256 ^ Z.of_nat 0) with 1.
    unfold rlp.be_value. cbn [fold_left]. lia.
  - split; [exact Hx|].
    destruct (Z.eq_dec x 0) as [->|Hne].
    + apply Z.pow_pos_nonneg; lia.
    + rewrite Nat2Z.inj_add, Z2Nat.id by apply Z.log2_nonneg.
      change (Z.of_nat 1) with 1.
      apply Z.log2_lt_pow2; lia.
Qed.

Lemma be_bytes_loop_length k :
  forall m x acc, 0 <= m -> x < 256 ^ m ->
    len (rlp.be_bytes_loop k x acc) <= m + len acc.
Proof.
  induction k as [|k IH]; intros m x acc Hm Hx; cbn [rlp.be_bytes_loop]; [lia|].
  destruct (x <=? 0) eqn:E; [lia|].
  assert (1 <= m) as Hm1.
  { destruct (Z.eq_dec m 0) as [->|]; [|lia]. change (256 ^ 0) with 1 in Hx. lia. }
  specialize (IH (m - 1) (x / 256) (x mod 256 :: acc) ltac:(lia)).
  unfold len in IH |- *. cbn [length] in IH.
  assert (x / 256 < 256 ^ (m - 1)) as Hd.
  { apply Z.div_lt_upper_bound; [lia|].
    replace m with (Z.succ (m - 1)) in Hx by lia.
    rewrite Z.pow_succ_r in Hx by lia. lia. }
  specialize (IH Hd). lia.
Qed.

Lemma be_bytes_length m x : 0 <= m -> x < 256 ^ m -> len (rlp.be_bytes x) <= m.
Proof.
  intros Hm Hx. unfold rlp.be_bytes.
  pose proof (be_bytes_loop_length (Z.to_nat (Z.log2 x) + 1) m x [] Hm Hx) as H.
  unfold len in H |- *. cbn [length] in H. lia.
Qed.

(** An item that holds a string of less than 56 bytes tells where it
    ends. *)
Lemma encode_string_short_inj s1 s2 r1 r2 :
  len s1 < 56 -> len s2 < 56 ->
  rlp.encode_string s1 ++ r1 = rlp.encode_string s2 ++ r2 ->
  s1 = s2 /\ r1 = r2.
Proof.
  assert (forall s, len s < 56 ->
            (exists b, s = [b] /\ b < 128 /\ rlp.encode_string s = [b]) \/
            (len s <> 1 \/ exists b, s = [b] /\ 128 <= b) /\
            rlp.encode_string s = (128 + len s) :: s) as Hcase.
  { intros s Hs. unfold rlp.encode_string.
    destruct s as [|b [|c s]].
    - right. split; [left; discriminate|].
      unfold rlp.encode_header. reflexivity.
    - destruct (b <? 128) eqn:E.
      + left. exists b. repeat split; lia.
      + right. split; [right; exists b; split; [reflexivity|lia]|reflexivity].
    - right. split; [left; unfold len; cbn [length]; lia|].
      unfold rlp.encode_header.
      destruct (_ <? 56) eqn:E; [reflexivity|lia]. }
  intros H1 H2 Heq.
  destruct (Hcase s1 H1) as [(b1 & -> & Hb1 & E1)|[Hn1 E1]];
    destruct (Hcase s2 H2) as [(b2 & -> & Hb2 & E2)|[Hn2 E2]];
    rewrite E1, E2 in Heq; cbn [app] in Heq.
  - injection Heq as -> ->. auto.
  - injection Heq as -> Heq. unfold len in Hb1. lia.
  - injection Heq as Hb Heq. unfold len in Hb. lia.
  - injection Heq as Hl Heq.
    apply app_inj_1 in Heq; [exact Heq|]. unfold len in Hl. lia.
Qed.

(** A list item of less than 256 bytes of content tells its content. *)
Lemma encode_list_inj p1 p2 :
  len p1 < 256 -> len p2 < 256 ->
  rlp.encode_list p1 = rlp.encode_list p2 -> p1 = p2.
Proof.
  assert (forall n, 56 <= n < 256 -> rlp.be_bytes n = [n]) as Hbe.
  { intros n Hn. unfold rlp.be_bytes.
    assert (0 <= Z.log2 n) by apply Z.log2_nonneg.
    replace (Z.to_nat (Z.log2 n) + 1)%nat with (S (Z.to_nat (Z.log2 n))) by lia.
    cbn [rlp.be_bytes_loop].
    destruct (n <=? 0) eqn:E; [lia|].
    rewrite Z.div_small, Z.mod_small by lia.
    destruct (Z.to_nat (Z.log2 n)); reflexivity. }
  assert (forall p, len p < 256 ->
            rlp.encode_list p = (192 + len p) :: p /\ len p < 56 \/
            rlp.encode_list p = 248 :: len p :: p /\ 56 <= len p) as Hcase.
  { intros p Hp. unfold rlp.encode_list, rlp.encode_header.
    destruct (len p <? 56) eqn:E; [left; split; [reflexivity|lia]|].
    right. rewrite Hbe by lia. split; [reflexivity|lia]. }
  intros H1 H2 Heq.
  destruct (Hcase p1 H1) as [[E1 L1]|[E1 L1]];
    destruct (Hcase p2 H2) as [[E2 L2]|[E2 L2]];
    rewrite E1, E2 in Heq; injection Heq; intros; subst; try lia; auto.
Qed.

(** X17: A root and an account key commit to one account.  When
    [VerifyAccountProofByHash] accepts two claims for the same state
    root and the same account key, the two claims hold the same nonce,
    balance, storage root and code hash, unless their proofs hold two
    different entries with the same Keccak-256 digest.  The nonce is a
    [uint64], the balance is below [2^256] and the two hashes have 32
    bytes. *)
Theorem root_binds_account stateRoot accountKey c1 c2 :
  (forall c, c = c1 \/ c = c2 ->
     0 <= Nonce c < 2 ^ 64 /\ 0 <= Balance c < 2 ^ 256 /\
     length (StorageHash c) = 32%nat /\ length (CodeHash c) = 32%nat) ->
  VerifyAccountProofByHash stateRoot accountKey c1 = None ->
  VerifyAccountProofByHash stateRoot accountKey c2 = None ->
  (Nonce c1 = Nonce c2 /\ Balance c1 = Balance c2 /\
   StorageHash c1 = StorageHash c2 /\ CodeHash c1 = CodeHash c2) \/
  exists x y, x ∈ AccountProof c1 /\ y ∈ AccountProof c2 /\ x <> y /\
              Keccak256Hash x = Keccak256Hash y.
Proof.
  intros Hwf H1 H2.
  assert (forall c, (c = c1 \/ c = c2) ->
            VerifyAccountProofByHash stateRoot accountKey c = None ->
            (VerifyProof stateRoot accountKey (AccountProof c) = Ok None /\
             Nonce c = 0 /\ Balance c = 0 /\
             StorageHash c = zeroHash /\ CodeHash c = zeroHash) \/
            VerifyProof stateRoot accountKey (AccountProof c)
            = Ok (Some (rlp.encode_list
                    (rlp.encode_uint (Nonce c)
                     ++ rlp.encode_string (rlp.be_bytes (Z.abs (Balance c)))
                     ++ rlp.encode_string (StorageHash c)
                     ++ rlp.encode_string (CodeHash c))))) as Hacc.
  { intros c _. unfold VerifyAccountProofByHash, VerifyProof.
    destruct (proofMap (AccountProof c)) as [[pm used]|e]; [|discriminate].
    cbn [rbind].
    destruct (verifyProof stateRoot accountKey pm used) as [[v|]|e]; [| |discriminate].
    - unfold bytes_Equal. cbn [default]. case_bool_decide as E; [|discriminate].
      intros _. right. do 2 f_equal. symmetry. exact E.
    - destruct (Nonce c =? 0) eqn:E1; cbn [negb]; [|discriminate].
      destruct (Z.sgn (Balance c) =? 0) eqn:E2; cbn [negb]; [|discriminate].
      case_bool_decide as E3; cbn [negb]; [|discriminate].
      case_bool_decide as E4; cbn [negb]; [|discriminate].
      intros _. left. repeat split; try assumption; lia. }
  pose proof (Hacc c1 (or_introl eq_refl) H1) as A1.
  pose proof (Hacc c2 (or_intror eq_refl) H2) as A2.
  assert (forall r1 r2,
            VerifyProof stateRoot accountKey (AccountProof c1) = Ok r1 ->
            VerifyProof stateRoot accountKey (AccountProof c2) = Ok r2 ->
            r1 <> r2 ->
            exists x y, x ∈ AccountProof c1 /\ y ∈ AccountProof c2 /\ x <> y /\
                        Keccak256Hash x = Keccak256Hash y) as Hcol.
  { intros r1 r2 V1 V2 Hne.
    destruct (verify_two_proofs _ _ _ _ _ _ V1 V2) as [E|C]; [contradiction|exact C]. }
  destruct A1 as [(V1 & N1 & B1 & S1 & K1)|V1];
    destruct A2 as [(V2 & N2 & B2 & S2 & K2)|V2].
  - left. repeat split; congruence.
  - right. eapply Hcol; [exact V1|exact V2|discriminate].
  - right. eapply Hcol; [exact V1|exact V2|discriminate].
  - destruct (verify_two_proofs _ _ _ _ _ _ V1 V2) as [E|C]; [|right; exact C].
    left. injection E as E.
    destruct (Hwf c1 (or_introl eq_refl)) as (Hn1 & Hb1 & Hs1 & Hc1).
    destruct (Hwf c2 (or_intror eq_refl)) as (Hn2 & Hb2 & Hs2 & Hc2).
    assert (forall x, 0 <= x < 2 ^ 256 -> len (rlp.be_bytes x) <= 32) as Hlen.
    { intros x Hx. apply be_bytes_length; [lia|].
      change (256 ^ 32) with (2 ^ 256). lia. }
    assert (forall x, 0 <= x < 2 ^ 64 -> len (rlp.be_bytes x) <= 32) as Hlen'.
    { intros x Hx. apply Hlen. split; [lia|].
      assert (2 ^ 64 < 2 ^ 256) by (apply Z.pow_lt_mono_r; lia). lia. }
    assert (forall s, len s <= 32 -> len (rlp.encode_string s) <= 33) as Henc.
    { intros s Hs. unfold rlp.encode_string.
      destruct s as [|b [|c s]].
      - vm_compute. discriminate.
      - destruct (b <? 128); unfold len; cbn [length]; lia.
      - unfold rlp.encode_header. destruct (_ <? 56) eqn:E56; [|lia].
        unfold len in *. cbn [app length] in *. lia. }
    assert (forall c, (c = c1 \/ c = c2) ->
              len (rlp.encode_uint (Nonce c)
                   ++ rlp.encode_string (rlp.be_bytes (Z.abs (Balance c)))
                   ++ rlp.encode_string (StorageHash c)
                   ++ rlp.encode_string (CodeHash c)) < 256) as Hpay.
    { intros c Hc. destruct (Hwf c Hc) as (Hn & Hb & Hs & Hk).
      pose proof (Henc (rlp.be_bytes (Nonce c)) (Hlen' _ Hn)).
      assert (0 <= Z.abs (Balance c) < 2 ^ 256) as Ha by lia.
      pose proof (Henc (rlp.be_bytes (Z.abs (Balance c))) (Hlen _ Ha)).
      assert (len (StorageHash c) <= 32) as Hs' by (unfold len; lia).
      assert (len (CodeHash c) <= 32) as Hk' by (unfold len; lia).
      pose proof (Henc (StorageHash c) Hs').
      pose proof (Henc (CodeHash c) Hk').
      unfold rlp.encode_uint, len in *. rewrite !length_app. lia. }
    apply encode_list_inj in E;
      [|apply Hpay; left; reflexivity|apply Hpay; right; reflexivity].
    unfold rlp.encode_uint in E.
    apply encode_string_short_inj in E as [En E];
      [|pose proof (Hlen' _ Hn1); lia|pose proof (Hlen' _ Hn2); lia].
    assert (0 <= Z.abs (Balance c1) < 2 ^ 256) as Ha1 by lia.
    assert (0 <= Z.abs (Balance c2) < 2 ^ 256) as Ha2 by lia.
    apply encode_string_short_inj in E as [Eb E];
      [|pose proof (Hlen _ Ha1); lia|pose proof (Hlen _ Ha2); lia].
    rewrite <- (app_nil_r (rlp.encode_string (CodeHash c1))) in E.
    rewrite <- (app_nil_r (rlp.encode_string (CodeHash c2))) in E.
    rewrite !app_assoc in E. rewrite <- !app_assoc in E.
    apply encode_string_short_inj in E as [Es E];
      [|unfold len; lia|unfold len; lia].
    apply encode_string_short_inj in E as [Ek _];
      [|unfold len; lia|unfold len; lia].
    apply (f_equal rlp.be_value) in En, Eb.
    rewrite !be_bytes_value in En, Eb by lia.
    repeat split; try assumption; lia.
Qed.

Lemma root_binds_account_witness :
  VerifyAccountProofByHash sample_account_root sample_key
    (sample_account_claim [sample_account_leaf]) = None /\
  (Nonce (sample_account_claim [sample_account_leaf])
   = Nonce (sample_account_claim [sample_account_leaf]) /\
   Balance (sample_account_claim [sample_account_leaf])
   = Balance (sample_account_claim [sample_account_leaf]) /\
   StorageHash (sample_account_claim [sample_account_leaf])
   = StorageHash (sample_account_claim [sample_account_leaf]) /\
   CodeHash (sample_account_claim [sample_account_leaf])
   = CodeHash (sample_account_claim [sample_account_leaf]) \/
   exists x y, x ∈ [sample_account_leaf] /\ y ∈ [sample_account_leaf] /\
               x <> y /\ Keccak256Hash x = Keccak256Hash y).
Proof.
  assert (VerifyAccountProofByHash sample_account_root sample_key
            (sample_account_claim [sample_account_leaf]) = None) as H
    by (vm_compute; reflexivity).
  split; [exact H|].
  apply (root_binds_account sample_account_root sample_key
           (sample_account_claim [sample_account_leaf])
           (sample_account_claim [sample_account_leaf])); [|exact H|exact H].
  intros c [-> | ->]; cbn [sample_account_claim Nonce Balance StorageHash CodeHash];
    (split; [lia|]); (split; [lia|]); split; reflexivity.
Defined.

(** X18: A storage root and a slot key commit to one value of a slot that is
    present.  When [VerifyStorageProofByHash] accepts two claims for the
    same storage root and the same key, the two claims hold the same
    value, or both proofs show that the slot is absent (the value of an
    absent slot is not checked), or the proofs hold two different
    entries with the same Keccak-256 digest.  The values are below
    [2^256]. *)
Theorem root_binds_slot storageRoot keyHash p1 p2 :
  0 <= Value p1 < 2 ^ 256 -> 0 <= Value p2 < 2 ^ 256 ->
  VerifyStorageProofByHash storageRoot keyHash p1 = None ->
  VerifyStorageProofByHash storageRoot keyHash p2 = None ->
  Value p1 = Value p2 \/
  (VerifyProof storageRoot keyHash (Proof p1) = Ok None /\
   VerifyProof storageRoot keyHash (Proof p2) = Ok None) \/
  exists x y, x ∈ Proof p1 /\ y ∈ Proof p2 /\ x <> y /\
              Keccak256Hash x = Keccak256Hash y.
Proof.
  intros Hv1 Hv2 H1 H2.
  unfold VerifyStorageProofByHash in H1, H2.
  destruct (bool_decide (storageRoot = EmptyRoot) || bool_decide (storageRoot = zeroHash)).
  { left.
    destruct (Z.sgn (Value p1) =? 0) eqn:E1; cbn [negb] in H1; [|discriminate].
    destruct (Z.sgn (Value p2) =? 0) eqn:E2; cbn [negb] in H2; [|discriminate].
    lia. }
  assert (forall p, 
            match proofMap (Proof p) with
            | Err err => Some (ErrProofMap err)
            | Ok (pm, used) =>
              match verifyProof storageRoot keyHash pm used with
              | Err err => Some (ErrVerifyProof err)
              | Ok value =>
                let expected :=
                  match value with
                  | Some _ => Some (rlp.encode_string (rlp.be_bytes (Z.abs (Value p))))
                  | None => None
                  end in
                if negb (bytes_Equal expected value) then
                  Some (ErrStorageMismatch (default [] value) (default [] expected))
                else None
              end
            end = None ->
            VerifyProof storageRoot keyHash (Proof p) = Ok None \/
            VerifyProof storageRoot keyHash (Proof p)
            = Ok (Some (rlp.encode_string (rlp.be_bytes (Z.abs (Value p)))))) as Hacc.
  { intros p. unfold VerifyProof.
    destruct (proofMap (Proof p)) as [[pm used]|e]; [|discriminate].
    cbn [rbind].
    destruct (verifyProof storageRoot keyHash pm used) as [[v|]|e]; [| |discriminate].
    - cbv zeta. unfold bytes_Equal. case_bool_decide as E; [|discriminate].
      intros _. right. do 2 f_equal. symmetry. exact E.
    - intros _. left. reflexivity. }
  destruct (Hacc p1 H1) as [V1|V1]; destruct (Hacc p2 H2) as [V2|V2].
  - right. left. split; assumption.
  - destruct (verify_two_proofs _ _ _ _ _ _ V1 V2) as [E|C]; [discriminate|].
    right. right. exact C.
  - destruct (verify_two_proofs _ _ _ _ _ _ V1 V2) as [E|C]; [discriminate|].
    right. right. exact C.
  - destruct (verify_two_proofs _ _ _ _ _ _ V1 V2) as [E|C]; [|right; right; exact C].
    left. injection E as E.
    assert (forall x, 0 <= x < 2 ^ 256 -> len (rlp.be_bytes x) < 56) as Hlen.
    { intros x Hx. pose proof (be_bytes_length 32 x ltac:(lia)) as H.
      change (256 ^ 32) with (2 ^ 256) in H. lia. }
    assert (0 <= Z.abs (Value p1) < 2 ^ 256) as Ha1 by lia.
    assert (0 <= Z.abs (Value p2) < 2 ^ 256) as Ha2 by lia.
    rewrite <- (app_nil_r (rlp.encode_string (rlp.be_bytes (Z.abs (Value p1))))) in E.
    rewrite <- (app_nil_r (rlp.encode_string (rlp.be_bytes (Z.abs (Value p2))))) in E.
    apply encode_string_short_inj in E as [E _]; [|apply Hlen; exact Ha1|apply Hlen; exact Ha2].
    apply (f_equal rlp.be_value) in E.
    rewrite !be_bytes_value in E by lia. lia.
Qed.

Lemma root_binds_slot_witness :
  VerifyStorageProofByHash sample_root sample_key
    {| Value := 5; Proof := [sample_leaf] |} = None /\
  (5 = 5 \/
   (VerifyProof sample_root sample_key [sample_leaf] = Ok None /\
    VerifyProof sample_root sample_key [sample_leaf] = Ok None) \/
   exists x y, x ∈ [sample_leaf] /\ y ∈ [sample_leaf] /\ x <> y /\
               Keccak256Hash x = Keccak256Hash y).
Proof.
  assert (VerifyStorageProofByHash sample_root sample_key
            {| Value := 5; Proof := [sample_leaf] |} = None) as H
    by (vm_compute; reflexivity).
  split; [exact H|].
  apply (root_binds_slot sample_root sample_key
           {| Value := 5; Proof := [sample_leaf] |}
           {| Value := 5; Proof := [sample_leaf] |}); cbn [Value]; try lia; exact H.
Defined.

